(** * go-arena: a shallow embedding of the arena allocator and its helpers

    The development follows the Go sources file by file:
    - [monotonic_arena.go]: [monotonicBuffer], [monotonicArena] and their
      methods, over an explicit model of the host memory;
    - [concurrent_arena.go] and [arena.go]: the [Arena] interface as a tagged
      variant, [Allocate];
    - [slice.go]: [AllocateSlice], [growSlice], [SliceAppend];
    - [buffer.go]: the arena backed byte [Buffer];
    - [pool.go]: the arena [Pool] and its per-key statistics.

    Go's [uintptr] and [int] are 64 bit; both are embedded in [Z] with the
    wrap-around written out.  A Go panic is the [Panic] outcome. *)

From Stdlib Require Import ZArith List Lia Bool.
From stdpp Require Import base option list gmap.
Import ListNotations.

Local Open Scope Z_scope.

(* ===================================================================== *)
(** * Machine integers *)
(* ===================================================================== *)

(** [uintptr] arithmetic is modulo [2^64]. *)
Definition modulus : Z := 2 ^ 64.
Definition half_modulus : Z := 2 ^ 63.

Definition wrap (z : Z) : Z := z mod modulus.

(** [int(x)] for a [uintptr] [x], and [uintptr(x)] for an [int] [x]. *)
Definition to_int (z : Z) : Z :=
  if z <? half_modulus then z else z - modulus.
Definition to_uintptr (z : Z) : Z := wrap z.

(** Arithmetic on [int] wraps to the signed range. *)
Definition wrap_int (z : Z) : Z := to_int (wrap z).

Definition is_uintptr (z : Z) : Prop := 0 <= z < modulus.
Definition is_int (z : Z) : Prop := - half_modulus <= z < half_modulus.

(* ===================================================================== *)
(** * Outcomes: a value or a panic *)
(* ===================================================================== *)

Inductive panic : Type :=
| PanicNewBuffer        (* panic("failed to allocate on newly created buffer") *)
| PanicTruncate         (* panic("arena: truncation out of range") *)
| PanicDivideByZero     (* runtime: integer divide by zero *)
| PanicMakeLen          (* runtime: makeslice: len or cap out of range *)
| PanicUnsafeSlice      (* runtime: unsafe.Slice: len out of range / nil pointer *)
| PanicSliceBounds      (* runtime: slice bounds out of range *)
| PanicNilDeref         (* runtime: nil pointer dereference *)
| PanicFuel.            (* the model ran out of fuel; never produced, see the fuel lemmas *)

Inductive result (A : Type) : Type :=
| Ret (a : A)
| Panic (e : panic).
Arguments Ret {A} a.
Arguments Panic {A} e.

(** [result] is a monad; stdpp's [x ← m; k] notation sequences the steps. *)
Global Instance result_ret : MRet result := fun A a => Ret a.
Global Instance result_bind : MBind result :=
  fun A B k m => match m with
                 | Ret a => k a
                 | Panic e => Panic e
                 end.

Definition returns {A : Type} (m : result A) : Prop := exists a, m = Ret a.

(* ===================================================================== *)
(** * The host: memory and the runtime allocator *)
(* ===================================================================== *)

(** The memory maps an address to a byte.  The Go runtime decides where a
    block made by [make] or [new] lives; [host k n] is the address it gives
    to the [k]-th block, of [n] bytes.  [makes] counts the blocks made.
    [rtcap c n] is the capacity the runtime's [append] picks when a slice of
    capacity [c] has to grow to length [n]. *)
Record World : Type := mkWorld {
  mem   : Z -> Z;
  host  : nat -> Z -> Z;
  makes : nat;
  rtcap : Z -> Z -> Z
}.

Definition store (m : Z -> Z) (a v : Z) : Z -> Z :=
  fun x => if x =? a then v else m x.

(** [for i := range b { b[i] = 0 }] over the [n] bytes at [p]. *)
Fixpoint memclr (m : Z -> Z) (p : Z) (n : nat) : Z -> Z :=
  match n with
  | O => m
  | S k => memclr (store m p 0) (p + 1) k
  end.

(** A fresh block of [n] bytes: zeroed, at the address the host chooses. *)
Definition hostBlock (w : World) (n : Z) : Z * World :=
  let b := host w (makes w) n in
  (b, mkWorld (memclr (mem w) b (Z.to_nat n)) (host w) (S (makes w)) (rtcap w)).

(** [make([]byte, n)] for a [uintptr] [n], followed by [unsafe.SliceData]:
    a length that is not a non-negative [int] panics; otherwise the block is
    zeroed and its address returned (non-nil also for [n = 0]). *)
Definition hostMake (w : World) (n : Z) : result (Z * World) :=
  if half_modulus <=? n then Panic PanicMakeLen
  else Ret (hostBlock w n).

(** [unsafe.Slice] of [size] bytes at [ptr], [size] a [uintptr]: panics when
    the length is not a non-negative [int], when the bytes do not fit below
    the top of the address space, and for a nil pointer with a length. *)
Definition unsafeSlice_ok (ptr size : Z) : bool :=
  (size <? half_modulus) && (size <=? wrap (- ptr)).

(* ===================================================================== *)
(** * monotonic_arena.go *)
(* ===================================================================== *)

(** [ptr = 0] is the nil pointer. *)
Record monotonicBuffer : Type := mkBuffer {
  ptr    : Z;
  offset : Z;
  size   : Z
}.

Record monotonicArena : Type := mkArena {
  buffers            : list monotonicBuffer;
  peak               : Z;
  minBufferSize      : Z;
  initialBufferCount : Z
}.

Definition newMonotonicBuffer (sz : Z) : monotonicBuffer :=
  mkBuffer 0 0 (to_uintptr sz).

Definition availableBytes (s : monotonicBuffer) : Z :=
  wrap (size s - offset s).

(** [for alignedPtr := p; alignedPtr%alignment != 0; alignedPtr++ { alignOffset++ }];
    [None] when the fuel is used up. *)
Fixpoint alignLoop (fuel : nat) (alignment alignedPtr alignOffset : Z) : option Z :=
  if alignedPtr mod alignment =? 0 then Some alignOffset
  else match fuel with
       | O => None
       | S f => alignLoop f alignment (wrap (alignedPtr + 1)) (wrap (alignOffset + 1))
       end.

(** The loop with its divisor check and enough fuel ([alignment] rounds). *)
Definition alignPad (alignment p : Z) : result Z :=
  if alignment =? 0 then Panic PanicDivideByZero
  else match alignLoop (Z.to_nat alignment) alignment p 0 with
       | Some k => Ret k
       | None => Panic PanicFuel
       end.

(** [monotonicBuffer.alloc]: the buffer is returned in every case, since
    the lazy [make] changes it even when the request does not fit; the
    pointer is [None] for [(nil, false)]. *)
Definition monotonicBuffer_alloc (s : monotonicBuffer) (sz alignment : Z) (w : World)
  : result (monotonicBuffer * World * option Z) :=
  '(s, w) ← (if ptr s =? 0
                 then '(b, w') ← hostMake w (size s);
                      Ret (mkBuffer b (offset s) (size s), w')
                 else Ret (s, w));
  alignOffset ← alignPad alignment (wrap (ptr s + offset s));
  let allocSize := wrap (sz + alignOffset) in
  if availableBytes s <? allocSize then Ret (s, w, None)
  else
    let p := wrap (ptr s + offset s + alignOffset) in
    let s' := mkBuffer (ptr s) (wrap (offset s + allocSize)) (size s) in
    if unsafeSlice_ok p sz
    then Ret (s', mkWorld (memclr (mem w) p (Z.to_nat sz)) (host w) (makes w) (rtcap w),
              Some p)
    else Panic PanicUnsafeSlice.

Definition monotonicBuffer_reset (s : monotonicBuffer) : monotonicBuffer :=
  if offset s =? 0 then s else mkBuffer (ptr s) 0 (size s).

Definition monotonicBuffer_release (s : monotonicBuffer) : monotonicBuffer :=
  mkBuffer 0 0 (size s).

Definition default_minBufferSize : Z := 1024 * 32.

(** The options of the package, and what each does to the arena under
    construction. *)
Inductive MonotonicArenaOption : Type :=
| WithMinBufferSize (sz : Z)
| WithInitialBufferCount (count : Z).

Definition apply_option (a : monotonicArena) (opt : MonotonicArenaOption) : monotonicArena :=
  match opt with
  | WithMinBufferSize sz =>
      mkArena (buffers a) (peak a) (to_uintptr sz) (initialBufferCount a)
  | WithInitialBufferCount count =>
      mkArena (buffers a) (peak a) (minBufferSize a) count
  end.

Definition NewMonotonicArena (opts : list MonotonicArenaOption) : monotonicArena :=
  let a := fold_left apply_option opts (mkArena [] 0 default_minBufferSize 1) in
  mkArena (buffers a ++
             repeat (newMonotonicBuffer (to_int (minBufferSize a)))
                    (Z.to_nat (initialBufferCount a)))
          (peak a) (minBufferSize a) (initialBufferCount a).

(** [monotonicArena.len]: the sum of the offsets, in [uintptr]. *)
Definition monotonicArena_len (a : monotonicArena) : Z :=
  fold_left (fun total s => wrap (total + offset s)) (buffers a) 0.

Definition monotonicArena_Len (a : monotonicArena) : Z :=
  to_int (monotonicArena_len a).

Definition monotonicArena_Cap (a : monotonicArena) : Z :=
  to_int (fold_left (fun total s => wrap (total + size s)) (buffers a) 0).

Definition monotonicArena_Peak (a : monotonicArena) : Z :=
  to_int (peak a).

(** The first loop of [Alloc]: try each buffer in order.  Buffers tried
    without success keep the block their lazy [make] gave them. *)
Fixpoint alloc_scan (bs : list monotonicBuffer) (sz alignment : Z) (w : World)
  : result (list monotonicBuffer * World * option Z) :=
  match bs with
  | [] => Ret ([], w, None)
  | s :: rest =>
      '(s', w', r) ← monotonicBuffer_alloc s sz alignment w;
      match r with
      | Some p => Ret (s' :: rest, w', Some p)
      | None =>
          '(rest', w'', r') ← alloc_scan rest sz alignment w';
          Ret (s' :: rest', w'', r')
      end
  end.

(** [if currentLen > a.peak { a.peak = currentLen }]. *)
Definition update_peak (a : monotonicArena) : monotonicArena :=
  let currentLen := monotonicArena_len a in
  if peak a <? currentLen
  then mkArena (buffers a) currentLen (minBufferSize a) (initialBufferCount a)
  else a.

Definition with_buffers (a : monotonicArena) (bs : list monotonicBuffer) : monotonicArena :=
  mkArena bs (peak a) (minBufferSize a) (initialBufferCount a).

Definition monotonicArena_Alloc (a : monotonicArena) (sz alignment : Z) (w : World)
  : result (Z * monotonicArena * World) :=
  '(bs, w1, r) ← alloc_scan (buffers a) sz alignment w;
  let a1 := with_buffers a bs in
  match r with
  | Some p => Ret (p, update_peak a1, w1)
  | None =>
      let currentLen := monotonicArena_len a1 in
      alignOffset ← (if 0 <? currentLen then alignPad alignment currentLen
                         else Ret 0);
      let requiredSize := wrap (sz + alignOffset) in
      let newBufferSize :=
        if requiredSize <? minBufferSize a1 then minBufferSize a1 else requiredSize in
      let newBuffer := newMonotonicBuffer (to_int newBufferSize) in
      '(nb, w2, r2) ← monotonicBuffer_alloc newBuffer sz alignment w1;
      match r2 with
      | None => Panic PanicNewBuffer
      | Some p => Ret (p, update_peak (with_buffers a1 (bs ++ [nb])), w2)
      end
  end.

Definition monotonicArena_Reset (a : monotonicArena) : monotonicArena :=
  with_buffers a (map monotonicBuffer_reset (buffers a)).

Definition monotonicArena_Release (a : monotonicArena) : monotonicArena :=
  with_buffers a (map monotonicBuffer_release (buffers a)).

(* ===================================================================== *)
(** * arena.go and concurrent_arena.go: the Arena interface *)
(* ===================================================================== *)

(** The implementations of the [Arena] interface in the package.  The
    concurrent arena holds a mutex and an inner arena that may be nil; the
    embedding is sequential, so the mutex does not appear. *)
#[warnings="-register-all"]
Inductive ArenaImpl : Type :=
| MonotonicArena (a : monotonicArena)
| ConcurrentArena (inner : option ArenaImpl).

(** An interface value; [None] is the nil interface. *)
Definition Arena : Type := option ArenaImpl.

Fixpoint Arena_Alloc (a : ArenaImpl) (sz alignment : Z) (w : World)
  : result (Z * ArenaImpl * World) :=
  match a with
  | MonotonicArena m =>
      '(p, m', w') ← monotonicArena_Alloc m sz alignment w;
      Ret (p, MonotonicArena m', w')
  | ConcurrentArena None => Ret (0, a, w)
  | ConcurrentArena (Some i) =>
      '(p, i', w') ← Arena_Alloc i sz alignment w;
      Ret (p, ConcurrentArena (Some i'), w')
  end.

Fixpoint Arena_Reset (a : ArenaImpl) : ArenaImpl :=
  match a with
  | MonotonicArena m => MonotonicArena (monotonicArena_Reset m)
  | ConcurrentArena None => a
  | ConcurrentArena (Some i) => ConcurrentArena (Some (Arena_Reset i))
  end.

Fixpoint Arena_Release (a : ArenaImpl) : ArenaImpl :=
  match a with
  | MonotonicArena m => MonotonicArena (monotonicArena_Release m)
  | ConcurrentArena None => a
  | ConcurrentArena (Some i) => ConcurrentArena (Some (Arena_Release i))
  end.

Fixpoint Arena_Len (a : ArenaImpl) : Z :=
  match a with
  | MonotonicArena m => monotonicArena_Len m
  | ConcurrentArena None => 0
  | ConcurrentArena (Some i) => Arena_Len i
  end.

Fixpoint Arena_Cap (a : ArenaImpl) : Z :=
  match a with
  | MonotonicArena m => monotonicArena_Cap m
  | ConcurrentArena None => 0
  | ConcurrentArena (Some i) => Arena_Cap i
  end.

Fixpoint Arena_Peak (a : ArenaImpl) : Z :=
  match a with
  | MonotonicArena m => monotonicArena_Peak m
  | ConcurrentArena None => 0
  | ConcurrentArena (Some i) => Arena_Peak i
  end.

Definition NewConcurrentArena (a : Arena) : ArenaImpl := ConcurrentArena a.

(** What the generic helpers use of a type parameter [T]: [unsafe.Sizeof],
    [unsafe.Alignof], and the value that [sizeofT] bytes of memory hold. *)
Class GoType (T : Type) : Type := {
  sizeofT  : Z;
  alignofT : Z;
  decodeT  : list Z -> T
}.

(** A byte is a [Z]. *)
Global Instance byte_GoType : GoType Z := {
  sizeofT := 1;
  alignofT := 1;
  decodeT := fun l => hd 0 l
}.

Section TypedHelpers.
Context {T : Type} `{GT : GoType T}.

(** The zero value of [T]: all bytes zero. *)
Definition zeroT : T := decodeT (repeat 0 (Z.to_nat sizeofT)).

(** [*p] for [p] a pointer to [T]. *)
Definition loadT (w : World) (p : Z) : T :=
  decodeT (map (fun i => mem w (p + Z.of_nat i)) (seq 0 (Z.to_nat sizeofT))).

(** [new(T)]. *)
Definition go_new (w : World) : Z * World := hostBlock w sizeofT.

(** [Allocate]: the pointer, with the arena and the memory after the call. *)
Definition Allocate (a : Arena) (w : World) : result (Z * Arena * World) :=
  match a with
  | Some impl =>
      '(p, impl', w') ← Arena_Alloc impl sizeofT alignofT w;
      if p =? 0
      then let '(q, w'') := go_new w' in Ret (q, Some impl', w'')
      else Ret (p, Some impl', w')
  | None => let '(q, w') := go_new w in Ret (q, None, w')
  end.
End TypedHelpers.

(* ===================================================================== *)
(** * slice.go *)
(* ===================================================================== *)

Definition growThreshold : Z := 256.

(** A slice: the address of its backing storage ([0] for a nil slice), the
    elements the storage holds up to the capacity, and the length. *)
Record slice (T : Type) : Type := mkSlice {
  sdata : Z;
  sarr  : list T;
  slen  : Z
}.
Arguments mkSlice {T} sdata sarr slen.
Arguments sdata {T} s.
Arguments sarr {T} s.
Arguments slen {T} s.

Definition scap {T : Type} (s : slice T) : Z := Z.of_nat (length (sarr s)).
Definition elems {T : Type} (s : slice T) : list T := firstn (Z.to_nat (slen s)) (sarr s).
Definition nil_slice {T : Type} : slice T := mkSlice 0 [] 0.

(** [copy(dst, src)]: the number of elements copied is the smaller length. *)
Definition go_copy {T : Type} (dst : slice T) (src : list T) : slice T :=
  let n := Nat.min (Z.to_nat (slen dst)) (length src) in
  mkSlice (sdata dst) (firstn n src ++ skipn n (sarr dst)) (slen dst).

(** The capacity loop of [growSlice]; [None] when the fuel is used up. *)
Fixpoint growCap (fuel : nat) (newLen newCap : Z) : option Z :=
  if newCap <? newLen
  then match fuel with
       | O => None
       | S f =>
           growCap f newLen
             (if newCap <? growThreshold
              then wrap_int (newCap * 2)
              else wrap_int (newCap + Z.quot newCap 4))
       end
  else Some newCap.

Section Slices.
Context {T : Type} `{GT : GoType T}.

(** The elements that the [n] cells at [p] hold, as [unsafe.Slice] shows them. *)
Definition view (w : World) (p : Z) (n : nat) : list T :=
  map (fun i => loadT w (p + sizeofT * Z.of_nat i)) (seq 0 n).

(** [make([]T, len, cap)]. *)
Definition go_make (len cap : Z) (w : World) : result (slice T * World) :=
  if (len <? 0) || (cap <? len) || (half_modulus <=? sizeofT * cap)
  then Panic PanicMakeLen
  else
    let '(b, w') := hostBlock w (sizeofT * cap) in
    Ret (mkSlice b (repeat zeroT (Z.to_nat cap)) len, w').

(** [unsafe.Slice(ptr, cap)] for a pointer to [T] and an [int] [cap]. *)
Definition unsafeSliceT_ok (p cap : Z) : bool :=
  (0 <=? cap) && (sizeofT * cap <? modulus) && (sizeofT * cap <=? wrap (- p)).

Definition AllocateSlice (a : Arena) (len cap : Z) (w : World)
  : result (slice T * Arena * World) :=
  match a with
  | Some impl =>
      let bufSize := wrap_int (to_int sizeofT * cap) in
      '(p, impl', w') ← Arena_Alloc impl (to_uintptr bufSize) alignofT w;
      if p =? 0
      then '(s, w'') ← go_make len cap w'; Ret (s, Some impl', w'')
      else if unsafeSliceT_ok p cap
           then if (0 <=? len) && (len <=? cap)
                then Ret (mkSlice p (view w' p (Z.to_nat cap)) len, Some impl', w')
                else Panic PanicSliceBounds
           else Panic PanicUnsafeSlice
  | None => '(s, w') ← go_make len cap w; Ret (s, None, w')
  end.

Definition growSlice (a : Arena) (s : slice T) (dataLen : Z) (w : World)
  : result (slice T * Arena * World) :=
  let newLen := wrap_int (slen s + dataLen) in
  newCap ← (if 0 <? scap s
            then match growCap (Z.to_nat newLen) newLen (scap s) with
                 | Some c => Ret c
                 | None => Panic PanicFuel
                 end
            else Ret dataLen);
  if newCap =? scap s then Ret (s, a, w)
  else
    '(s2, a', w') ← AllocateSlice a (slen s) newCap w;
    Ret (go_copy s2 (elems s), a', w').

(** The built-in [append(s, data...)]: in place when the capacity allows;
    otherwise the runtime moves the elements to a block of the host, whose
    capacity is the runtime's choice and at least the new length. *)
Definition go_append (s : slice T) (data : list T) (w : World) : slice T * World :=
  let n := Z.to_nat (slen s) in
  let newLen := slen s + Z.of_nat (length data) in
  if newLen <=? scap s
  then (mkSlice (sdata s)
                (firstn n (sarr s) ++ data ++ skipn (n + length data) (sarr s))
                newLen, w)
  else
    let c := Z.max newLen (rtcap w (scap s) newLen) in
    let '(b, w') := hostBlock w (sizeofT * c) in
    (mkSlice b (firstn n (sarr s) ++ data ++ repeat zeroT (Z.to_nat (c - newLen)))
             newLen, w').

Definition SliceAppend (a : Arena) (s : slice T) (data : list T) (w : World)
  : result (slice T * Arena * World) :=
  match a with
  | None => let '(s', w') := go_append s data w in Ret (s', None, w')
  | Some _ =>
      '(s1, a1, w1) ← growSlice a s (Z.of_nat (length data)) w;
      let '(s2, w2) := go_append s1 data w1 in
      Ret (s2, a1, w2)
  end.
End Slices.

(* ===================================================================== *)
(** * buffer.go *)
(* ===================================================================== *)

(** The [error] results that occur: nil and [io.EOF]. *)
Inductive error : Type := no_error | io_EOF.

(** The arena is a reference held by the buffer; the record carries the
    arena as the last call on the buffer left it. *)
Record Buffer : Type := mkBuf {
  arena   : Arena;
  buf     : slice Z;
  off     : Z;
  readBuf : slice Z
}.

Definition NewArenaBuffer (a : Arena) : Buffer := mkBuf a nil_slice 0 nil_slice.

(** [s[lo:hi]]: the bounds are checked against the capacity. *)
Definition subslice {T : Type} (s : slice T) (lo hi : Z) : result (list T) :=
  if (0 <=? lo) && (lo <=? hi) && (hi <=? scap s)
  then Ret (skipn (Z.to_nat lo) (firstn (Z.to_nat hi) (sarr s)))
  else Panic PanicSliceBounds.

Definition Buffer_Write (b : Buffer) (p : list Z) (w : World)
  : result (Z * error * Buffer * World) :=
  if Z.of_nat (length p) =? 0 then Ret (0, no_error, b, w)
  else
    '(s, a, w') ← SliceAppend (arena b) (buf b) p w;
    Ret (Z.of_nat (length p), no_error, mkBuf a s (slen s) (readBuf b), w').

Definition Buffer_WriteByte (b : Buffer) (c : Z) (w : World)
  : result (error * Buffer * World) :=
  '(s, a, w') ← SliceAppend (arena b) (buf b) [c] w;
  Ret (no_error, mkBuf a s (slen s) (readBuf b), w').

(** [Read(p)]: the count, the error, and what [p] holds after the call. *)
Definition Buffer_Read (b : Buffer) (p : list Z)
  : result (Z * error * list Z * Buffer) :=
  if off b =? 0 then Ret (0, io_EOF, p, b)
  else
    window ← subslice (buf b) 0 (off b);
    let n := Nat.min (length p) (length window) in
    let p' := firstn n window ++ skipn n p in
    let err := if (n <? length p)%nat then io_EOF else no_error in
    rest ← subslice (buf b) (Z.of_nat n) (off b);
    Ret (Z.of_nat n, err, p',
         mkBuf (arena b) (go_copy (buf b) rest) (off b - Z.of_nat n) (readBuf b)).

Definition Buffer_ReadByte (b : Buffer) : result (Z * error * Buffer) :=
  if off b =? 0 then Ret (0, io_EOF, b)
  else
    match elems (buf b) with
    | [] => Panic PanicSliceBounds
    | c :: _ =>
        rest ← subslice (buf b) 1 (off b);
        Ret (c, no_error, mkBuf (arena b) (go_copy (buf b) rest) (off b - 1) (readBuf b))
    end.

Definition Buffer_Bytes (b : Buffer) : result (list Z) :=
  if off b =? 0 then Ret [] else subslice (buf b) 0 (off b).

Definition Buffer_Len (b : Buffer) : Z := off b.

Definition Buffer_Cap (b : Buffer) : Z := scap (buf b).

Definition Buffer_Reset (b : Buffer) : Buffer :=
  mkBuf (arena b)
        (if sdata (buf b) =? 0 then buf b
         else mkSlice (sdata (buf b)) (sarr (buf b)) 0)
        0 (readBuf b).

Definition Buffer_Truncate (b : Buffer) (n : Z) : result Buffer :=
  if (n <? 0) || (off b <? n) then Panic PanicTruncate
  else Ret (mkBuf (arena b) (buf b) n (readBuf b)).

Definition Buffer_Next (b : Buffer) (n : Z) (w : World)
  : result (list Z * Buffer * World) :=
  if n <=? 0 then Ret ([], b, w)
  else
    let n := if off b <? n then off b else n in
    if n =? 0 then Ret ([], b, w)
    else
      '(r, w') ← go_make n n w;
      head ← subslice (buf b) 0 n;
      rest ← subslice (buf b) n (off b);
      Ret (elems (go_copy r head),
           mkBuf (arena b) (go_copy (buf b) rest) (off b - n) (readBuf b), w').

Definition readBufferSize : Z := 4 * 1024.

Definition Buffer_allocateReadBuffer (b : Buffer) (w : World) : result (Buffer * World) :=
  '(s, a, w') ← AllocateSlice (arena b) readBufferSize readBufferSize w;
  Ret (mkBuf a (buf b) (off b) s, w').

(** [WriteString]: the string is its bytes. *)
Definition Buffer_WriteString (b : Buffer) (str : list Z) (w : World)
  : result (Z * error * Buffer * World) :=
  if Z.of_nat (length str) =? 0 then Ret (0, no_error, b, w)
  else
    '(s, a, w') ← SliceAppend (arena b) (buf b) str w;
    Ret (Z.of_nat (length str), no_error, mkBuf a s (slen s) (readBuf b), w').

Definition Buffer_String (b : Buffer) : result (list Z) :=
  subslice (buf b) 0 (off b).

(** [WriteTo(w)]: the writer is called once, so it is what it answers to
    the bytes it is given: the count [m] and its error, nil being [None]. *)
Definition Buffer_WriteTo {E : Type} (b : Buffer) (wr : list Z -> Z * option E)
  : result (Z * option E * Buffer) :=
  if off b =? 0 then Ret (0, None, b)
  else
    window ← subslice (buf b) 0 (off b);
    let '(m, err) := wr window in
    if 0 <? m
    then
      rest ← subslice (buf b) m (off b);
      Ret (m, err, mkBuf (arena b) (go_copy (buf b) rest) (off b - m) (readBuf b))
    else Ret (0, err, b).

(** What one call of [r.Read] does: the bytes it puts at the head of the
    slice it is given (as many as the slice is long), the count being their
    number, and its error. *)
Inductive read_status (E : Type) : Type :=
| read_more
| read_EOF
| read_error (e : E).
Arguments read_more {E}.
Arguments read_EOF {E}.
Arguments read_error {E} e.

(** The loop of [ReadFrom] over the answers of the reader, one per round;
    a reader whose answers end before [io.EOF] or an error leaves the loop
    without a result. *)
Fixpoint ReadFrom_loop {E : Type} (answers : list (list Z * read_status E))
         (b : Buffer) (n : Z) (w : World) : result (Z * option E * Buffer * World) :=
  match answers with
  | [] => Panic PanicFuel
  | (chunk, er) :: rest =>
      let nr := Z.of_nat (length chunk) in
      let b0 := mkBuf (arena b) (buf b) (off b) (go_copy (readBuf b) chunk) in
      '(b1, n1, w1) ←
        (if 0 <? nr
         then data ← subslice (readBuf b0) 0 nr;
              '(_, _, b1, w1) ← Buffer_Write b0 data w;
              Ret (b1, wrap_int (n + nr), w1)
         else Ret (b0, n, w));
      match er with
      | read_more => ReadFrom_loop rest b1 n1 w1
      | read_EOF => Ret (n1, None, b1, w1)
      | read_error e => Ret (n1, Some e, b1, w1)
      end
  end.

Definition Buffer_ReadFrom {E : Type} (b : Buffer)
           (answers : list (list Z * read_status E)) (w : World)
  : result (Z * option E * Buffer * World) :=
  '(b0, w0) ← (if sdata (readBuf b) =? 0
               then Buffer_allocateReadBuffer b w
               else Ret (b, w));
  ReadFrom_loop answers b0 0 w0.

(* ===================================================================== *)
(** * pool.go *)
(* ===================================================================== *)

Record arenaPoolItemSize : Type := mkSize {
  count      : Z;
  totalBytes : Z
}.

Record PoolItem : Type := mkItem {
  item_Arena : Arena;
  item_Key   : Z
}.

(** Pool items are reached through pointers, and a list handed to
    [ReleaseMany] may name one item twice: items live in a store, and a
    pointer is a key of the store. *)
Abbreviation item_store := (gmap nat PoolItem).

(** The weak pointers of the pool are the addresses of the items; the mutex
    does not appear in the sequential embedding. *)
Record Pool : Type := mkPool {
  pool  : list nat;
  sizes : gmap Z arenaPoolItemSize
}.

Definition NewArenaPool : Pool := mkPool [] ∅.

(** The method calls on [item.Arena] panic for a nil pointer and for a nil
    interface. *)
Definition Pool_Release (p : Pool) (item : nat) (h : item_store)
  : result (Pool * item_store) :=
  match h !! item with
  | None => Panic PanicNilDeref
  | Some it =>
      match item_Arena it with
      | None => Panic PanicNilDeref
      | Some a =>
          let peak := Arena_Peak a in
          let a' := Arena_Reset a in
          let sz :=
            match sizes p !! item_Key it with
            | Some st =>
                let st1 := if count st =? 50
                           then mkSize 1 (wrap_int (Z.quot (totalBytes st) 50))
                           else st in
                <[item_Key it := mkSize (wrap_int (count st1 + 1))
                                        (wrap_int (totalBytes st1 + peak))]> (sizes p)
            | None => <[item_Key it := mkSize 1 peak]> (sizes p)
            end in
          Ret (mkPool (pool p ++ [item]) sz, <[item := mkItem (Some a') 0]> h)
      end
  end.

Fixpoint Pool_ReleaseMany (p : Pool) (items : list nat) (h : item_store)
  : result (Pool * item_store) :=
  match items with
  | [] => Ret (p, h)
  | item :: rest =>
      match h !! item with
      | None => Panic PanicNilDeref
      | Some it =>
          match item_Arena it with
          | None => Panic PanicNilDeref
          | Some a =>
              let peak := Arena_Peak a in
              let a' := Arena_Reset a in
              let sz :=
                match sizes p !! item_Key it with
                | Some st =>
                    let st1 := if count st =? 50
                               then mkSize 1 (wrap_int (Z.quot (totalBytes st) 50))
                               else st in
                    <[item_Key it := mkSize (wrap_int (count st1 + 1))
                                            (wrap_int (totalBytes st1 + peak))]> (sizes p)
                | None => <[item_Key it := mkSize 1 peak]> (sizes p)
                end in
              Pool_ReleaseMany (mkPool (pool p ++ [item]) sz) rest
                               (<[item := mkItem (Some a') 0]> h)
          end
      end
  end.

Definition Pool_getArenaSize (p : Pool) (id : Z) : result Z :=
  match sizes p !! id with
  | Some st =>
      if count st =? 0 then Panic PanicDivideByZero
      else Ret (wrap_int (Z.quot (totalBytes st) (count st)))
  | None => Ret (1024 * 1024)
  end.

(** [Acquire]: [live] tells which weak pointers still have their item;
    [fresh] is the address of the item made when the pool has none. *)
Fixpoint Pool_acquire_loop (rev_pool : list nat) (live : nat -> bool)
  : option nat * list nat :=
  match rev_pool with
  | [] => (None, [])
  | wp :: rest =>
      if live wp then (Some wp, rest) else Pool_acquire_loop rest live
  end.

Definition Pool_Acquire (p : Pool) (key : Z) (h : item_store)
           (live : nat -> bool) (fresh : nat)
  : result (nat * Pool * item_store) :=
  match Pool_acquire_loop (rev (pool p)) live with
  | (Some v, rest) =>
      match h !! v with
      | None => Panic PanicNilDeref
      | Some it =>
          Ret (v, mkPool (rev rest) (sizes p), <[v := mkItem (item_Arena it) key]> h)
      end
  | (None, rest) =>
      sz ← Pool_getArenaSize p key;
      Ret (fresh, mkPool (rev rest) (sizes p),
           <[fresh := mkItem (Some (MonotonicArena (NewMonotonicArena [WithMinBufferSize sz])))
                             key]> h)
  end.

(* ===================================================================== *)
(** * Sequences of operations on a monotonic arena *)
(* ===================================================================== *)

(** The operations of the [Arena] interface, as a caller issues them. *)
Inductive arena_op : Type :=
| OpAlloc (sz alignment : Z)
| OpReset
| OpRelease
| OpLen
| OpCap
| OpPeak.

Definition arena_step (op : arena_op) (a : monotonicArena) (w : World)
  : result (monotonicArena * World) :=
  match op with
  | OpAlloc sz alignment =>
      '(_, a', w') ← monotonicArena_Alloc a sz alignment w; Ret (a', w')
  | OpReset => Ret (monotonicArena_Reset a, w)
  | OpRelease => Ret (monotonicArena_Release a, w)
  | OpLen | OpCap | OpPeak => Ret (a, w)
  end.

(** The arenas a program can hold: made by [NewMonotonicArena] and then
    only touched through the interface. *)
Inductive reachable : monotonicArena -> Prop :=
| reachable_new opts : reachable (NewMonotonicArena opts)
| reachable_step a op w a' w' :
    reachable a -> arena_step op a w = Ret (a', w') -> reachable a'.

(** What the allocator relies on: the host never hands out the nil address,
    and a block lies below the top of the address space. *)
Definition host_ok (w : World) : Prop :=
  forall k n, 0 <= n < half_modulus ->
              0 < host w k n /\ host w k n + n < modulus.

(** A buffer as the arena keeps it: fields in range, the offset within the
    size, and a block, once made, where the host put it. *)
Definition buffer_ok (s : monotonicBuffer) : Prop :=
  0 <= offset s <= size s /\ size s < modulus /\ 0 <= ptr s /\
  (ptr s <> 0 -> ptr s + size s < modulus).

Definition arena_ok (a : monotonicArena) : Prop :=
  Forall buffer_ok (buffers a) /\ 0 <= minBufferSize a < modulus.

(** The padding the specification names: the distance from [q] to the next
    multiple of [alignment]. *)
Definition pad (alignment q : Z) : Z := (alignment - q mod alignment) mod alignment.

(* ===================================================================== *)
(** * The vocabulary of the statements *)
(* ===================================================================== *)

(** The number of rounds of the loop from [q]: it stops at the next multiple
    of the alignment, or where the address wraps to 0. *)
Definition alignDist (al q : Z) : Z := Z.min (pad al q) (modulus - q).

(** The buffer after the lazy [make] of [alloc]. *)
Definition materialize (s : monotonicBuffer) (w : World) : result (monotonicBuffer * World) :=
  if ptr s =? 0
  then '(b, w') ← hostMake w (size s); Ret (mkBuffer b (offset s) (size s), w')
  else Ret (s, w).

(** What a returned pointer satisfies: non-nil, with its [sz] bytes below
    the top of the address space, aligned, and the [sz] bytes zero. *)
Definition good_pointer (w : World) (p sz al : Z) : Prop :=
  0 < p /\ p + sz < modulus /\ p mod al = 0 /\
  forall a, p <= a < p + sz -> mem w a = 0.

(** A host that places its blocks at multiples of 64 KiB. *)
Definition demo_host : nat -> Z -> Z :=
  fun k _ => 0xc000010000 + 0x10000 * (Z.of_nat k mod 0x10000).

Definition demo_world : World :=
  mkWorld (fun _ => 0xAA) demo_host 0 (fun c n => 2 * n).

Definition demo_arena : monotonicArena :=
  NewMonotonicArena [WithMinBufferSize 1024].

(** A host whose blocks start one byte past a multiple of 256, as the
    runtime's allocator for tiny objects may place a block of odd size. *)
Definition odd_host : nat -> Z -> Z :=
  fun k _ => 0xc000012001 + 0x100 * (Z.of_nat k mod 0x100).

Definition odd_world : World :=
  mkWorld (fun _ => 0) odd_host 0 (fun c n => 2 * n).

(** The arena and the length after the first of two calls, or the panic. *)
Definition after_first_alloc (a : monotonicArena) (sz al : Z) (w : World)
  : result (monotonicArena * Z) :=
  '(_, a1, _) ← monotonicArena_Alloc a sz al w; Ret (a1, monotonicArena_Len a1).

(** Sizes that [make] accepts. *)
Definition arena_small (a : monotonicArena) : Prop :=
  Forall (fun s => size s < half_modulus) (buffers a) /\
  minBufferSize a < half_modulus.

(** Every monotonic arena inside is as the allocator keeps it. *)
Fixpoint impl_ok (a : ArenaImpl) : Prop :=
  match a with
  | MonotonicArena m => arena_ok m
  | ConcurrentArena None => True
  | ConcurrentArena (Some i) => impl_ok i
  end.

Fixpoint impl_small (a : ArenaImpl) : Prop :=
  match a with
  | MonotonicArena m => arena_small m
  | ConcurrentArena None => True
  | ConcurrentArena (Some i) => impl_small i
  end.

(** The capacity rule as the specification words it: with capacity 0 the
    new capacity is the number of new elements; otherwise start from the
    capacity and, while it is below the new length, double it when it is
    below 256 and add a quarter of it otherwise. *)
Fixpoint spec_grow (rounds : nat) (need cap : Z) : Z :=
  match rounds with
  | O => cap
  | S r =>
      if cap <? need
      then spec_grow r need (if cap <? 256 then 2 * cap else cap + cap / 4)
      else cap
  end.

Definition spec_newCap (N K D : Z) : Z :=
  if K =? 0 then D else spec_grow (Z.to_nat (N + D)) (N + D) K.

(** Lengths and capacities this far from the top of [int] do not overflow
    in the loop. *)
Definition cap_bound : Z := 2 ^ 61.

Definition is_ret {A : Type} (m : result A) : bool :=
  match m with
  | Ret _ => true
  | Panic _ => false
  end.

(** The arena a buffer holds: nil, or an arena of the package as the
    allocator keeps it, with sizes that [make] accepts. *)
Definition buffer_arena_ok (a : Arena) : Prop :=
  match a with
  | None => True
  | Some impl => impl_ok impl /\ impl_small impl
  end.

(** [Release] on each item of a list, in order. *)
Fixpoint release_each (p : Pool) (items : list nat) (h : item_store)
  : result (Pool * item_store) :=
  match items with
  | [] => Ret (p, h)
  | item :: rest =>
      '(p', h') ← Pool_Release p item h; release_each p' rest h'
  end.

Definition demo_item : PoolItem := mkItem (Some (MonotonicArena demo_arena)) 7.

(** A buffer that a call left as it was, save for the lazy [make]. *)
Definition kept (s0 s1 : monotonicBuffer) : Prop :=
  offset s1 = offset s0 /\ size s1 = size s0 /\ (ptr s0 <> 0 -> ptr s1 = ptr s0).

(** A buffer that served the request: the pointer is the first multiple of
    the alignment at or after the bytes in use, and the offset moves past
    the bytes handed out. *)
Definition bumped (s0 s1 : monotonicBuffer) (p sz al : Z) : Prop :=
  size s1 = size s0 /\ (ptr s0 <> 0 -> ptr s1 = ptr s0) /\ 0 < ptr s1 /\
  p = ptr s1 + offset s0 + pad al (ptr s1 + offset s0) /\
  offset s1 = offset s0 + pad al (ptr s1 + offset s0) + sz /\
  offset s1 <= size s1.

(** A sum over the buffers, without the wrap-around. *)
Definition zsum {A : Type} (f : A -> Z) (l : list A) : Z :=
  fold_right (fun s acc => f s + acc) 0 l.

(** The unread window: the first [off] bytes of the storage. *)
Definition unread (b : Buffer) : list Z :=
  firstn (Z.to_nat (off b)) (sarr (buf b)).

(** What the methods keep: the offset within the length, the length within
    the capacity. *)
Definition buf_inv (b : Buffer) : Prop :=
  0 <= off b <= slen (buf b) /\ slen (buf b) <= scap (buf b).

(** One round of the loop of [ReadFrom], up to the test of the reader's
    error: the reader has put [chunk] at the head of the scratch slice. *)
Definition ReadFrom_round (b : Buffer) (chunk : list Z) (n : Z) (w : World)
  : result (Buffer * Z * World) :=
  let nr := Z.of_nat (length chunk) in
  let b0 := mkBuf (arena b) (buf b) (off b) (go_copy (readBuf b) chunk) in
  if 0 <? nr
  then data ← subslice (readBuf b0) 0 nr;
       '(_, _, b1, w1) ← Buffer_Write b0 data w;
       Ret (b1, wrap_int (n + nr), w1)
  else Ret (b0, n, w).

(** The state the loop of [ReadFrom] keeps between rounds, for a reader
    that has [more] bytes still to deliver. *)
Definition loop_inv (b : Buffer) (w : World) (n more : Z) : Prop :=
  buf_inv b /\ buffer_arena_ok (arena b) /\ host_ok w /\
  0 <= slen (readBuf b) <= scap (readBuf b) /\
  0 <= n /\ n + more < half_modulus /\
  (arena b <> None ->
   Z.max (scap (buf b)) (2 * (slen (buf b) + more)) < cap_bound).

Definition answers_of {E : Type} (chunks : list (list Z)) (last : list Z)
           (fin : option E) : list (list Z * read_status E) :=
  map (fun c => (c, read_more)) chunks ++
  [(last, match fin with None => read_EOF | Some e => read_error e end)].

(** The statistic as [Release] and [ReleaseMany] leave it after a sample. *)
Definition recorded (m : gmap Z arenaPoolItemSize) (key peak : Z)
  : gmap Z arenaPoolItemSize :=
  match m !! key with
  | Some st =>
      let st1 := if count st =? 50
                 then mkSize 1 (wrap_int (Z.quot (totalBytes st) 50))
                 else st in
      <[key := mkSize (wrap_int (count st1 + 1)) (wrap_int (totalBytes st1 + peak))]> m
  | None => <[key := mkSize 1 peak]> m
  end.

(** Every count lies between 1 and 50. *)
Definition sizes_ok (m : gmap Z arenaPoolItemSize) : Prop :=
  forall k st, m !! k = Some st -> 1 <= count st <= 50.

(* ===================================================================== *)
(** * Machine arithmetic *)
(* ===================================================================== *)

Lemma modulus_val : modulus = 18446744073709551616.
Proof. reflexivity. Qed.

Lemma half_modulus_val : half_modulus = 9223372036854775808.
Proof. reflexivity. Qed.

Lemma wrap_range z : 0 <= wrap z < modulus.
Proof. unfold wrap. apply Z.mod_pos_bound. rewrite modulus_val. lia. Qed.

Lemma wrap_small z : 0 <= z < modulus -> wrap z = z.
Proof. intros H. unfold wrap. now apply Z.mod_small. Qed.

Lemma wrap_0 : wrap 0 = 0.
Proof. reflexivity. Qed.

Lemma to_int_small z : z < half_modulus -> to_int z = z.
Proof.
  intros H. unfold to_int. destruct (Z.ltb_spec z half_modulus); [reflexivity | lia].
Qed.

Lemma wrap_int_small z : 0 <= z < half_modulus -> wrap_int z = z.
Proof.
  intros H. unfold wrap_int. rewrite wrap_small.
  - apply to_int_small. lia.
  - rewrite modulus_val. rewrite half_modulus_val in H. lia.
Qed.

Lemma to_int_mono x y :
  0 <= x <= y -> y < half_modulus -> to_int x <= to_int y.
Proof. intros H1 H2. rewrite !to_int_small by lia. lia. Qed.

Ltac unfold_bind := unfold mbind, result_bind, mret, result_ret in *.

(* ===================================================================== *)
(** * Reset and Release *)
(* ===================================================================== *)

Lemma sum_offsets_zero (bs : list monotonicBuffer) :
  Forall (fun s => offset s = 0) bs ->
  fold_left (fun total s => wrap (total + offset s)) bs 0 = 0.
Proof.
  induction 1 as [| s bs Hs _ IH]; simpl; [reflexivity |].
  rewrite Hs. exact IH.
Qed.

Lemma reset_offset s : offset (monotonicBuffer_reset s) = 0.
Proof.
  unfold monotonicBuffer_reset.
  destruct (Z.eqb_spec (offset s) 0) as [E | E]; [exact E | reflexivity].
Qed.

Lemma reset_size s : size (monotonicBuffer_reset s) = size s.
Proof. unfold monotonicBuffer_reset. now destruct (offset s =? 0). Qed.

Lemma reset_ptr s : ptr (monotonicBuffer_reset s) = ptr s.
Proof. unfold monotonicBuffer_reset. now destruct (offset s =? 0). Qed.

Lemma sum_sizes_ext (f : monotonicBuffer -> monotonicBuffer) bs acc :
  (forall s, size (f s) = size s) ->
  fold_left (fun total s => wrap (total + size s)) (map f bs) acc =
  fold_left (fun total s => wrap (total + size s)) bs acc.
Proof.
  intros Hf. revert acc.
  induction bs as [| s bs IH]; intros acc; simpl; [reflexivity |].
  rewrite Hf. apply IH.
Qed.

Lemma Reset_Len a : monotonicArena_Len (monotonicArena_Reset a) = 0.
Proof.
  unfold monotonicArena_Len, monotonicArena_len, monotonicArena_Reset. simpl.
  rewrite sum_offsets_zero; [reflexivity |].
  apply List.Forall_forall. intros s Hs. apply in_map_iff in Hs.
  destruct Hs as (s0 & <- & _). apply reset_offset.
Qed.

Lemma Release_Len a : monotonicArena_Len (monotonicArena_Release a) = 0.
Proof.
  unfold monotonicArena_Len, monotonicArena_len, monotonicArena_Release. simpl.
  rewrite sum_offsets_zero; [reflexivity |].
  apply List.Forall_forall. intros s Hs. apply in_map_iff in Hs.
  now destruct Hs as (s0 & <- & _).
Qed.

(** C3. After [Reset] the length is 0 while the capacity and the peak are
    as before, with the same buffers at the same addresses and of the same
    sizes; after [Release] the length is 0 and the peak is as before, every
    base address is dropped and every offset is 0. *)
Theorem Reset_Release_frame (a : monotonicArena) :
  (monotonicArena_Len (monotonicArena_Reset a) = 0 /\
   monotonicArena_Cap (monotonicArena_Reset a) = monotonicArena_Cap a /\
   monotonicArena_Peak (monotonicArena_Reset a) = monotonicArena_Peak a /\
   length (buffers (monotonicArena_Reset a)) = length (buffers a) /\
   map size (buffers (monotonicArena_Reset a)) = map size (buffers a) /\
   map ptr (buffers (monotonicArena_Reset a)) = map ptr (buffers a)) /\
  (monotonicArena_Len (monotonicArena_Release a) = 0 /\
   monotonicArena_Peak (monotonicArena_Release a) = monotonicArena_Peak a /\
   Forall (fun s => ptr s = 0 /\ offset s = 0) (buffers (monotonicArena_Release a))).
Proof.
  split; [split; [apply Reset_Len |] | split; [apply Release_Len |]].
  - unfold monotonicArena_Cap, monotonicArena_Peak, monotonicArena_Reset. simpl.
    rewrite (sum_sizes_ext _ _ _ reset_size).
    repeat split.
    + apply length_map.
    + rewrite map_map. apply map_ext. exact reset_size.
    + rewrite map_map. apply map_ext. exact reset_ptr.
  - split; [reflexivity |].
    unfold monotonicArena_Release. simpl.
    apply List.Forall_forall. intros s Hs. apply in_map_iff in Hs.
    now destruct Hs as (s0 & <- & _).
Qed.

(* ===================================================================== *)
(** * The alignment loop *)
(* ===================================================================== *)

Lemma pad_range al q : 0 < al -> 0 <= pad al q < al.
Proof. intros H. unfold pad. apply Z.mod_pos_bound. exact H. Qed.

Lemma pad_aligned al q : 0 < al -> q mod al = 0 -> pad al q = 0.
Proof.
  intros H E. unfold pad. rewrite E, Z.sub_0_r. apply Z.mod_same. lia.
Qed.

Lemma pad_unaligned al q : 0 < al -> q mod al <> 0 -> pad al q = al - q mod al.
Proof.
  intros H E. unfold pad. pose proof (Z.mod_pos_bound q al H).
  apply Z.mod_small. lia.
Qed.

Lemma pad_zero_aligned al q : 0 < al -> pad al q = 0 -> q mod al = 0.
Proof.
  intros H E. destruct (Z.eq_dec (q mod al) 0) as [E0 | N]; [exact E0 |].
  rewrite pad_unaligned in E by assumption.
  pose proof (Z.mod_pos_bound q al H). lia.
Qed.

Lemma pad_succ al q : 0 < al -> q mod al <> 0 -> pad al (q + 1) = pad al q - 1.
Proof.
  intros H E. pose proof (Z.mod_pos_bound q al H) as B.
  rewrite (pad_unaligned al q) by assumption.
  assert (S : (q + 1) mod al = (q mod al + 1) mod al)
    by (rewrite Zplus_mod_idemp_l; reflexivity).
  destruct (Z.eq_dec (q mod al + 1) al) as [T | T].
  - assert (Z0 : (q + 1) mod al = 0) by (rewrite S, T; apply Z.mod_same; lia).
    rewrite pad_aligned by assumption. lia.
  - assert (Z1 : (q + 1) mod al = q mod al + 1)
      by (rewrite S; apply Z.mod_small; lia).
    rewrite pad_unaligned by (try assumption; lia). lia.
Qed.

Lemma pad_sum_aligned al q : 0 < al -> (q + pad al q) mod al = 0.
Proof.
  intros H. destruct (Z.eq_dec (q mod al) 0) as [E | N].
  - rewrite pad_aligned by assumption. now rewrite Z.add_0_r.
  - rewrite pad_unaligned by assumption.
    replace (q + (al - q mod al)) with (q - q mod al + 1 * al) by lia.
    rewrite Z.mod_add by lia.
    rewrite Zminus_mod_idemp_r, Z.sub_diag. apply Z.mod_0_l. lia.
Qed.

Lemma alignLoop_stop fuel al q acc :
  q mod al = 0 -> alignLoop fuel al q acc = Some acc.
Proof.
  intros E. destruct fuel; simpl; rewrite E; reflexivity.
Qed.

Lemma alignLoop_run fuel : forall al q acc,
  0 < al -> 0 <= q < modulus -> 0 <= acc ->
  acc + alignDist al q < modulus ->
  (Z.to_nat (alignDist al q) <= fuel)%nat ->
  alignLoop fuel al q acc = Some (acc + alignDist al q).
Proof.
  induction fuel as [| f IH]; intros al q acc Hal Hq Hacc Hsum Hfuel;
    pose proof (pad_range al q Hal) as Hp; unfold alignDist in *.
  - simpl. destruct (Z.eqb_spec (q mod al) 0) as [E | N].
    + rewrite pad_aligned by assumption. f_equal. lia.
    + exfalso. pose proof (pad_zero_aligned al q Hal). lia.
  - simpl. destruct (Z.eqb_spec (q mod al) 0) as [E | N].
    + rewrite pad_aligned by assumption. f_equal. lia.
    + assert (P1 : 1 <= pad al q).
      { pose proof (pad_zero_aligned al q Hal). lia. }
      destruct (Z.eq_dec (q + 1) modulus) as [T | T].
      * (* the address wraps to 0 *)
        assert (W : wrap (q + 1) = 0) by (rewrite T; reflexivity).
        rewrite W, alignLoop_stop by (apply Z.mod_0_l; lia).
        rewrite wrap_small by lia. f_equal. lia.
      * rewrite (wrap_small (q + 1)) by lia.
        rewrite (wrap_small (acc + 1)) by lia.
        pose proof (pad_succ al q Hal N) as PS.
        rewrite IH; unfold alignDist; try lia.
        f_equal. lia.
Qed.

Lemma alignPad_ret al q :
  0 < al -> 0 <= q < modulus -> alignPad al q = Ret (alignDist al q).
Proof.
  intros Hal Hq. unfold alignPad.
  destruct (Z.eqb_spec al 0) as [E | _]; [lia |].
  pose proof (pad_range al q Hal) as Hp.
  assert (D : 0 <= alignDist al q <= pad al q) by (unfold alignDist; lia).
  assert (B : alignDist al q < modulus).
  { destruct (Z.eq_dec q 0) as [-> | N].
    - unfold alignDist. rewrite pad_aligned by (try apply Z.mod_0_l; lia).
      rewrite modulus_val. lia.
    - unfold alignDist. lia. }
  rewrite (alignLoop_run _ al q 0); try lia.
  reflexivity.
Qed.

Lemma alignDist_range al q :
  0 < al -> 0 <= q < modulus -> 0 <= alignDist al q < al.
Proof.
  intros Hal Hq. pose proof (pad_range al q Hal). unfold alignDist. lia.
Qed.

(* ===================================================================== *)
(** * Clearing memory *)
(* ===================================================================== *)

Lemma memclr_outside n : forall m p a,
  a < p \/ p + Z.of_nat n <= a -> memclr m p n a = m a.
Proof.
  induction n as [| n IH]; intros m p a H; simpl; [reflexivity |].
  rewrite IH by lia. unfold store.
  destruct (Z.eqb_spec a p); [lia | reflexivity].
Qed.

Lemma memclr_inside n : forall m p a,
  p <= a < p + Z.of_nat n -> memclr m p n a = 0.
Proof.
  induction n as [| n IH]; intros m p a H; simpl; [lia |].
  destruct (Z.eq_dec a p) as [E | N].
  - subst a. rewrite memclr_outside by lia. unfold store.
    now rewrite Z.eqb_refl.
  - apply IH. lia.
Qed.

(* ===================================================================== *)
(** * One buffer *)
(* ===================================================================== *)

Lemma wrap_cases x :
  0 <= x < 2 * modulus ->
  (x < modulus /\ wrap x = x) \/ (modulus <= x /\ wrap x = x - modulus).
Proof.
  intros H. destruct (Z_lt_ge_dec x modulus) as [L | G].
  - left. split; [exact L | apply wrap_small; lia].
  - right. split; [lia |]. unfold wrap.
    symmetry. apply (Z.mod_unique x modulus 1 (x - modulus)); lia.
Qed.

Lemma wrap_neg p :
  0 <= p < modulus -> (p = 0 /\ wrap (- p) = 0) \/ (0 < p /\ wrap (- p) = modulus - p).
Proof.
  intros H. destruct (Z.eq_dec p 0) as [-> | N].
  - left. split; reflexivity.
  - right. split; [lia |]. unfold wrap.
    symmetry. apply (Z.mod_unique (- p) modulus (-1) (modulus - p)); lia.
Qed.

Lemma materialize_spec s w s1 w1 :
  buffer_ok s -> host_ok w ->
  materialize s w = Ret (s1, w1) ->
  0 < ptr s1 /\ ptr s1 + size s1 < modulus /\
  offset s1 = offset s /\ size s1 = size s /\
  (ptr s <> 0 -> ptr s1 = ptr s /\ w1 = w) /\
  (ptr s = 0 -> ptr s1 = host w (makes w) (size s) /\ size s < half_modulus) /\
  host w1 = host w /\ rtcap w1 = rtcap w.
Proof.
  intros (Hoff & Hsz & Hp & Hblk) Hh. unfold materialize.
  destruct (Z.eqb_spec (ptr s) 0) as [E | N].
  - unfold hostMake. destruct (Z.leb_spec half_modulus (size s)) as [G | L];
      unfold_bind; [discriminate |].
    unfold hostBlock. intros [= <- <-]. simpl.
    destruct (Hh (makes w) (size s)) as [Hb1 Hb2]; [lia |].
    repeat split; try lia.
  - intros [= <- <-]. repeat split; try lia; try reflexivity.
Qed.

Lemma monotonicBuffer_alloc_unfold s sz al w :
  monotonicBuffer_alloc s sz al w =
  '(s1, w1) ← materialize s w;
  alignOffset ← alignPad al (wrap (ptr s1 + offset s1));
  let allocSize := wrap (sz + alignOffset) in
  if availableBytes s1 <? allocSize then Ret (s1, w1, None)
  else
    let p := wrap (ptr s1 + offset s1 + alignOffset) in
    let s' := mkBuffer (ptr s1) (wrap (offset s1 + allocSize)) (size s1) in
    if unsafeSlice_ok p sz
    then Ret (s', mkWorld (memclr (mem w1) p (Z.to_nat sz)) (host w1) (makes w1) (rtcap w1),
              Some p)
    else Panic PanicUnsafeSlice.
Proof. reflexivity. Qed.

(** What a successful [alloc] on one buffer gives. *)
Lemma monotonicBuffer_alloc_Some s sz al w s' w' p :
  buffer_ok s -> host_ok w -> 0 <= sz < modulus -> 0 < al ->
  monotonicBuffer_alloc s sz al w = Ret (s', w', Some p) ->
  0 < ptr s' /\ ptr s' + size s' < modulus /\ size s' = size s /\
  (ptr s <> 0 -> ptr s' = ptr s) /\
  p = ptr s' + offset s + pad al (ptr s' + offset s) /\
  offset s' = offset s + pad al (ptr s' + offset s) + sz /\
  offset s' <= size s' /\
  p mod al = 0 /\
  (forall a, p <= a < p + sz -> mem w' a = 0) /\
  host w' = host w /\ rtcap w' = rtcap w.
Proof.
  intros Hok Hh Hsz Hal. rewrite monotonicBuffer_alloc_unfold.
  destruct (materialize s w) as [[s1 w1] |] eqn:M; unfold_bind; [| discriminate].
  destruct (materialize_spec _ _ _ _ Hok Hh M)
    as (P1 & P2 & O1 & S1 & Pn & _ & Hw & Hr).
  destruct Hok as (Hoff & Hs & _).
  assert (Q : 0 <= ptr s1 + offset s1 < modulus) by lia.
  rewrite (wrap_small _ Q), (alignPad_ret al _ Hal Q).
  pose proof (pad_range al (ptr s1 + offset s1) Hal) as Hp.
  pose proof (pad_sum_aligned al (ptr s1 + offset s1) Hal) as Ha.
  unfold availableBytes. rewrite (wrap_small (size s1 - offset s1)) by lia.
  set (d := alignDist al (ptr s1 + offset s1)).
  assert (D : d = pad al (ptr s1 + offset s1) \/ d = modulus - (ptr s1 + offset s1))
    by (unfold d, alignDist; lia).
  assert (D' : 0 <= d <= modulus - (ptr s1 + offset s1) /\ d <= pad al (ptr s1 + offset s1))
    by (unfold d, alignDist; lia).
  cbv zeta.
  destruct (Z.ltb_spec (size s1 - offset s1) (wrap (sz + d))) as [F | F];
    [discriminate |].
  unfold unsafeSlice_ok.
  destruct (Z.ltb_spec sz half_modulus) as [Hh1 | Hh1]; [| discriminate].
  destruct (Z.leb_spec sz (wrap (- wrap (ptr s1 + offset s1 + d)))) as [U | U];
    [| discriminate].
  simpl. rewrite O1, S1 in *.
  (* the address did not wrap *)
  assert (NW : ptr s1 + offset s + d < modulus).
  { destruct (Z_lt_ge_dec (ptr s1 + offset s + d) modulus) as [L | G]; [exact L |].
    exfalso.
    assert (E : ptr s1 + offset s + d = modulus) by lia.
    rewrite E in U. change (wrap (- wrap modulus)) with 0 in U.
    assert (sz = 0) by lia. subst sz.
    rewrite Z.add_0_l, wrap_small in F by lia. lia. }
  rewrite (wrap_small (ptr s1 + offset s + d)) in * by lia.
  destruct (wrap_neg (ptr s1 + offset s + d)) as [[C1 C2] | [C1 C2]]; [lia | lia |].
  rewrite C2 in U.
  rewrite (wrap_small (sz + d)) in * by lia.
  assert (Dp : d = pad al (ptr s1 + offset s)) by lia.
  rewrite wrap_small by lia.
  intros [= <- <- <-]. simpl.
  repeat split; try lia.
  - rewrite Dp. exact Ha.
  - intros a Ha'. apply memclr_inside. lia.
  - exact Hw.
  - exact Hr.
Qed.

(** A request that does not fit leaves the offset alone. *)
Lemma monotonicBuffer_alloc_None s sz al w s' w' :
  buffer_ok s -> host_ok w -> 0 < al ->
  monotonicBuffer_alloc s sz al w = Ret (s', w', None) ->
  offset s' = offset s /\ size s' = size s /\ buffer_ok s' /\ 0 < ptr s' /\
  host w' = host w /\ rtcap w' = rtcap w.
Proof.
  intros Hok Hh Hal. rewrite monotonicBuffer_alloc_unfold.
  destruct (materialize s w) as [[s1 w1] |] eqn:M; unfold_bind; [| discriminate].
  destruct (materialize_spec _ _ _ _ Hok Hh M)
    as (P1 & P2 & O1 & S1 & _ & _ & Hw & Hr).
  destruct Hok as (Hoff & Hs & _).
  assert (Q : 0 <= ptr s1 + offset s1 < modulus) by lia.
  rewrite (wrap_small _ Q), (alignPad_ret al _ Hal Q). cbv zeta.
  destruct (_ <? _).
  - intros [= <- <-]. unfold buffer_ok. repeat split; try lia; assumption.
  - destruct (unsafeSlice_ok _ _); discriminate.
Qed.

(* ===================================================================== *)
(** * The arena: Alloc *)
(* ===================================================================== *)

Lemma host_ok_ext w w' : host w' = host w -> host_ok w -> host_ok w'.
Proof. intros E H k n Hn. rewrite E. now apply H. Qed.

Lemma wrap_to_int x : 0 <= x < modulus -> wrap (to_int x) = x.
Proof.
  intros H. unfold to_int. destruct (Z.ltb_spec x half_modulus).
  - now apply wrap_small.
  - unfold wrap. symmetry. apply (Z.mod_unique (x - modulus) modulus (-1) x); lia.
Qed.

Lemma alloc_scan_spec bs : forall sz al w bs' w' r,
  Forall buffer_ok bs -> host_ok w -> 0 <= sz < modulus -> 0 < al ->
  alloc_scan bs sz al w = Ret (bs', w', r) ->
  host w' = host w /\ rtcap w' = rtcap w /\
  Forall buffer_ok bs' /\ length bs' = length bs /\
  match r with
  | Some p => good_pointer w' p sz al
  | None => map offset bs' = map offset bs
  end.
Proof.
  induction bs as [| s bs IH]; intros sz al w bs' w' r Hok Hh Hsz Hal; simpl.
  - intros [= <- <- <-]. repeat split; constructor.
  - inversion Hok as [| ? ? Hs Hbs]; subst.
    destruct (monotonicBuffer_alloc s sz al w) as [[[s1 w1] [p |]] |] eqn:A;
      unfold_bind; try discriminate.
    + intros [= <- <- <-].
      destruct (monotonicBuffer_alloc_Some _ _ _ _ _ _ _ Hs Hh Hsz Hal A)
        as (P1 & P2 & S1 & _ & Pp & O1 & O2 & Pa & Pz & Hw & Hr).
      pose proof (pad_range al (ptr s1 + offset s) Hal).
      destruct Hs as (Hoff & Hsize & _).
      repeat split; try assumption; try lia.
      constructor; [| assumption].
      unfold buffer_ok. repeat split; lia.
    + destruct (monotonicBuffer_alloc_None _ _ _ _ _ _ Hs Hh Hal A)
        as (O1 & S1 & Hs1 & _ & Hw & Hr).
      destruct (alloc_scan bs sz al w1) as [[[bs2 w2] r2] |] eqn:R; [| discriminate].
      intros [= <- <- <-].
      destruct (IH _ _ _ _ _ _ Hbs (host_ok_ext _ _ Hw Hh) Hsz Hal R)
        as (Hw2 & Hr2 & Hok2 & Hlen & Hres).
      repeat split; try congruence.
      * now constructor.
      * simpl. now rewrite Hlen.
      * destruct r2; [exact Hres |]. simpl. now rewrite O1, Hres.
Qed.

Lemma update_peak_buffers a : buffers (update_peak a) = buffers a.
Proof. unfold update_peak. now destruct (_ <? _). Qed.

Lemma update_peak_minBufferSize a : minBufferSize (update_peak a) = minBufferSize a.
Proof. unfold update_peak. now destruct (_ <? _). Qed.

Lemma update_peak_len a : monotonicArena_len (update_peak a) = monotonicArena_len a.
Proof. unfold monotonicArena_len. now rewrite update_peak_buffers. Qed.

Lemma update_peak_spec a :
  peak a <= peak (update_peak a) /\ monotonicArena_len a <= peak (update_peak a).
Proof.
  unfold update_peak.
  destruct (Z.ltb_spec (peak a) (monotonicArena_len a)); simpl; lia.
Qed.

Lemma sum_offsets_nonneg bs : forall acc,
  0 <= acc -> 0 <= fold_left (fun total s => wrap (total + offset s)) bs acc.
Proof.
  induction bs as [| s bs IH]; intros acc H; simpl; [exact H |].
  apply IH. apply wrap_range.
Qed.

Lemma len_nonneg a : 0 <= monotonicArena_len a.
Proof. apply sum_offsets_nonneg. lia. Qed.

Lemma len_range a : 0 <= monotonicArena_len a < modulus.
Proof.
  unfold monotonicArena_len.
  destruct (buffers a) as [| s bs] using rev_ind; simpl.
  - rewrite modulus_val. lia.
  - rewrite fold_left_app. simpl. apply wrap_range.
Qed.

(** Whenever [Alloc] returns, its pointer is non-nil, a multiple of the
    alignment, and the [sz] bytes at it read zero; the arena and the host
    stay as the allocator needs them. *)
Lemma Alloc_returns_aligned_zeroed a sz al w p a' w' :
  arena_ok a -> host_ok w -> 0 <= sz < modulus -> 0 < al ->
  monotonicArena_Alloc a sz al w = Ret (p, a', w') ->
  good_pointer w' p sz al /\ arena_ok a' /\ host_ok w'.
Proof.
  intros [Hbs Hmin] Hh Hsz Hal. unfold monotonicArena_Alloc.
  destruct (alloc_scan (buffers a) sz al w) as [[[bs w1] r] |] eqn:S;
    unfold_bind; [| discriminate].
  destruct (alloc_scan_spec _ _ _ _ _ _ _ Hbs Hh Hsz Hal S)
    as (Hw1 & _ & Hok1 & _ & Hres).
  pose proof (host_ok_ext _ _ Hw1 Hh) as Hh1.
  destruct r as [q |].
  - intros [= <- <- <-]. split; [exact Hres |]. split; [| exact Hh1].
    unfold arena_ok. now rewrite update_peak_buffers, update_peak_minBufferSize.
  - set (a1 := with_buffers a bs) in *.
    destruct (if 0 <? monotonicArena_len a1
              then alignPad al (monotonicArena_len a1) else Ret 0)
      as [alignOffset |] eqn:P; [| discriminate].
    cbv zeta.
    set (nbs := if wrap (sz + alignOffset) <? minBufferSize a1
                then minBufferSize a1 else wrap (sz + alignOffset)).
    assert (Hn : 0 <= nbs < modulus).
    { unfold nbs. destruct (wrap (sz + alignOffset) <? minBufferSize a1);
        [exact Hmin | apply wrap_range]. }
    assert (Hnb : buffer_ok (newMonotonicBuffer (to_int nbs))).
    { unfold newMonotonicBuffer, to_uintptr, buffer_ok. simpl.
      rewrite wrap_to_int by assumption. repeat split; lia. }
    destruct (monotonicBuffer_alloc (newMonotonicBuffer (to_int nbs)) sz al w1)
      as [[[nb w2] [q |]] |] eqn:A; try discriminate.
    intros [= <- <- <-].
    destruct (monotonicBuffer_alloc_Some _ _ _ _ _ _ _ Hnb Hh1 Hsz Hal A)
      as (P1 & P2 & S1 & _ & Pp & O1 & O2 & Pa & Pz & Hw & Hr).
    pose proof (pad_range al (ptr nb + offset (newMonotonicBuffer (to_int nbs))) Hal).
    simpl in *.
    split; [repeat split; try assumption; lia |].
    split; [| exact (host_ok_ext _ _ Hw Hh1)].
    unfold arena_ok. rewrite update_peak_buffers, update_peak_minBufferSize. simpl.
    split; [| exact Hmin].
    apply Forall_app. split; [exact Hok1 |].
    constructor; [| constructor].
    unfold buffer_ok. repeat split; lia.
Qed.

(* ===================================================================== *)
(** * The peak *)
(* ===================================================================== *)

Lemma options_keep_peak opts : forall a,
  peak (fold_left apply_option opts a) = peak a /\
  buffers (fold_left apply_option opts a) = buffers a.
Proof.
  induction opts as [| o opts IH]; intros a; simpl; [split; reflexivity |].
  destruct (IH (apply_option a o)) as [-> ->]. now destruct o.
Qed.

Lemma NewMonotonicArena_fresh opts :
  peak (NewMonotonicArena opts) = 0 /\ monotonicArena_len (NewMonotonicArena opts) = 0.
Proof.
  unfold NewMonotonicArena, monotonicArena_len. cbv zeta. simpl.
  destruct (options_keep_peak opts (mkArena [] 0 default_minBufferSize 1)) as [-> ->].
  split; [reflexivity |]. simpl.
  apply sum_offsets_zero. apply List.Forall_forall.
  intros s Hs. apply repeat_spec in Hs. now subst s.
Qed.

Lemma Alloc_peak a sz al w p a' w' :
  monotonicArena_Alloc a sz al w = Ret (p, a', w') ->
  peak a <= peak a' /\ monotonicArena_len a' <= peak a'.
Proof.
  unfold monotonicArena_Alloc.
  destruct (alloc_scan (buffers a) sz al w) as [[[bs w1] [q |]] |];
    unfold_bind; try discriminate.
  - intros [= <- <- <-]. rewrite update_peak_len.
    apply (update_peak_spec (with_buffers a bs)).
  - destruct (if 0 <? _ then _ else _) as [alignOffset |]; [| discriminate].
    cbv zeta.
    destruct (monotonicBuffer_alloc _ sz al w1) as [[[nb w2] [q |]] |];
      try discriminate.
    intros [= <- <- <-]. rewrite update_peak_len.
    apply (update_peak_spec (with_buffers (with_buffers a bs) (bs ++ [nb]))).
Qed.

(** The counter never falls behind the length, on every arena a program
    can hold. *)
Lemma reachable_len_le_peak a :
  reachable a -> 0 <= monotonicArena_len a <= peak a.
Proof.
  induction 1 as [opts | a op w a' w' Hr IH Hstep].
  - destruct (NewMonotonicArena_fresh opts) as [-> ->]. lia.
  - split; [apply len_nonneg |].
    destruct op; simpl in Hstep; unfold_bind.
    + destruct (monotonicArena_Alloc a sz alignment w) as [[[p a1] w1] |] eqn:A;
        [| discriminate].
      injection Hstep as <- <-. apply (Alloc_peak _ _ _ _ _ _ _ A).
    + injection Hstep as <- <-.
      pose proof (Reset_Len a) as L. unfold monotonicArena_Len in L.
      pose proof (len_range (monotonicArena_Reset a)) as R.
      unfold to_int in L. destruct (_ <? _) in L; simpl; lia.
    + injection Hstep as <- <-.
      pose proof (Release_Len a) as L. unfold monotonicArena_Len in L.
      pose proof (len_range (monotonicArena_Release a)) as R.
      unfold to_int in L. destruct (_ <? _) in L; simpl; lia.
    + injection Hstep as <- <-. lia.
    + injection Hstep as <- <-. lia.
    + injection Hstep as <- <-. lia.
Qed.

(** C4. On an arena made by [NewMonotonicArena] and used through the
    interface, no operation that returns decreases [Peak()], and after it
    [Peak() >= Len()], as long as the counter fits Go's [int]. *)
Theorem Peak_monotonic_and_bounds_Len a op w a' w' :
  reachable a ->
  arena_step op a w = Ret (a', w') ->
  peak a' < half_modulus ->
  monotonicArena_Peak a <= monotonicArena_Peak a' /\
  monotonicArena_Len a' <= monotonicArena_Peak a'.
Proof.
  intros Hr Hstep Hfit.
  pose proof (reachable_len_le_peak a Hr) as I.
  pose proof (reachable_len_le_peak a' (reachable_step _ _ _ _ _ Hr Hstep)) as I'.
  assert (M : peak a <= peak a').
  { destruct op; simpl in Hstep; unfold_bind;
      try (injection Hstep as <- <-; simpl; lia).
    destruct (monotonicArena_Alloc a sz alignment w) as [[[p a1] w1] |] eqn:A;
      [| discriminate].
    injection Hstep as <- <-. apply (Alloc_peak _ _ _ _ _ _ _ A). }
  unfold monotonicArena_Peak, monotonicArena_Len.
  split; apply to_int_mono; lia.
Qed.

Lemma Peak_monotonic_and_bounds_Len_witness :
  exists a' w',
    arena_step (OpAlloc 100 8) demo_arena demo_world = Ret (a', w') /\
    monotonicArena_Peak demo_arena <= monotonicArena_Peak a' /\
    monotonicArena_Len a' <= monotonicArena_Peak a'.
Proof.
  assert (P : match arena_step (OpAlloc 100 8) demo_arena demo_world with
              | Ret (a', _) => peak a'
              | Panic _ => -1
              end = 100) by (vm_compute; reflexivity).
  destruct (arena_step (OpAlloc 100 8) demo_arena demo_world)
    as [[a' w'] |] eqn:E; [| discriminate].
  exists a', w'. split; [reflexivity |].
  apply (Peak_monotonic_and_bounds_Len demo_arena (OpAlloc 100 8)
           demo_world a' w' (reachable_new [WithMinBufferSize 1024]) E).
  rewrite P. reflexivity.
Defined.

Lemma demo_world_ok : host_ok demo_world.
Proof.
  intros k n Hn. simpl. unfold demo_host.
  pose proof (Z.mod_pos_bound (Z.of_nat k) 0x10000 ltac:(lia)).
  rewrite half_modulus_val in Hn. rewrite modulus_val. lia.
Qed.

(* ===================================================================== *)
(** * The buffer made when no buffer fits *)
(* ===================================================================== *)

Lemma odd_world_ok : host_ok odd_world.
Proof.
  intros k n Hn. simpl. unfold odd_host.
  pose proof (Z.mod_pos_bound (Z.of_nat k) 0x100 ltac:(lia)).
  rewrite half_modulus_val in Hn. rewrite modulus_val. lia.
Qed.

(** C2, at a failing input.  An arena with no buffer and minimum size 0 is
    asked for 1 byte aligned to 8.  The length in use is 0, so the padding
    is taken to be 0 and the new buffer has 1 byte; its block starts at an
    address that is 1 modulo 8, the request needs 7 bytes of padding, and
    [Alloc] reaches its panic. *)
Theorem Alloc_new_buffer_too_small :
  arena_ok (NewMonotonicArena [WithInitialBufferCount 0; WithMinBufferSize 0]) /\
  host_ok odd_world /\
  monotonicArena_Alloc
    (NewMonotonicArena [WithInitialBufferCount 0; WithMinBufferSize 0]) 1 8 odd_world
  = Panic PanicNewBuffer.
Proof.
  split.
  - split.
    + constructor.
    + vm_compute. split; [discriminate | reflexivity].
  - split.
    + exact odd_world_ok.
    + vm_compute. reflexivity.
Qed.

(** C1, at a failing input.  An arena whose minimum buffer size is 0 gives
    5 bytes, and is then asked for 8 bytes aligned to 8: the padding is
    computed from the length 5 as 3, the new buffer has 11 bytes, its block
    starts at an address that is 1 modulo 8, and [Alloc] panics instead of
    returning a pointer. *)
Theorem Alloc_panics_after_unaligned_length :
  (exists a1, after_first_alloc (NewMonotonicArena [WithMinBufferSize 0]) 5 1 odd_world
              = Ret (a1, 5)) /\
  ('(_, a1, w1) ← monotonicArena_Alloc (NewMonotonicArena [WithMinBufferSize 0]) 5 1 odd_world;
   monotonicArena_Alloc a1 8 8 w1) = Panic PanicNewBuffer.
Proof.
  split; [eexists; vm_compute; reflexivity | vm_compute; reflexivity].
Qed.

(* ===================================================================== *)
(** * When Alloc returns *)
(* ===================================================================== *)

(** One buffer: the call returns, and it refuses the request exactly when
    the request and its padding exceed what is left. *)
Lemma monotonicBuffer_alloc_total s sz al w :
  buffer_ok s -> host_ok w ->
  0 <= sz < half_modulus -> 0 < al <= half_modulus -> size s < half_modulus ->
  exists s' w' r,
    monotonicBuffer_alloc s sz al w = Ret (s', w', r) /\
    ptr s' = (if ptr s =? 0 then host w (makes w) (size s) else ptr s) /\
    (r = None <-> size s - offset s < sz + pad al (ptr s' + offset s)).
Proof.
  intros Hok Hh Hsz Hal Hsmall. rewrite monotonicBuffer_alloc_unfold.
  assert (M : exists s1 w1, materialize s w = Ret (s1, w1)).
  { unfold materialize, hostMake. destruct (ptr s =? 0); [| eauto].
    destruct (Z.leb_spec half_modulus (size s)); [lia |]. unfold_bind.
    destruct (hostBlock w (size s)). eauto. }
  destruct M as (s1 & w1 & M). rewrite M. unfold_bind.
  destruct (materialize_spec _ _ _ _ Hok Hh M)
    as (P1 & P2 & O1 & S1 & Pn & Pz & Hw & Hr).
  destruct Hok as (Hoff & Hs & _).
  assert (Q : 0 <= ptr s1 + offset s1 < modulus) by lia.
  rewrite (wrap_small _ Q), (alignPad_ret al _ (proj1 Hal) Q).
  pose proof (pad_range al (ptr s1 + offset s1) ltac:(lia)) as Hp.
  unfold availableBytes. rewrite (wrap_small (size s1 - offset s1)) by lia.
  set (d := alignDist al (ptr s1 + offset s1)).
  assert (D : 0 <= d <= pad al (ptr s1 + offset s1) /\
              (d = pad al (ptr s1 + offset s1) \/ d = modulus - (ptr s1 + offset s1)))
    by (unfold d, alignDist; lia).
  assert (HM : modulus = 2 * half_modulus) by reflexivity.
  cbv zeta. rewrite (wrap_small (sz + d)) by lia.
  assert (Pe : ptr s1 = (if ptr s =? 0 then host w (makes w) (size s) else ptr s)).
  { destruct (Z.eqb_spec (ptr s) 0) as [E | N]; [apply Pz; exact E | apply Pn; exact N]. }
  rewrite O1, S1 in *.
  destruct (Z.ltb_spec (size s - offset s) (sz + d)) as [F | F].
  - do 3 eexists. split; [reflexivity |]. split; [exact Pe |].
    split; [intros _; simpl; lia | reflexivity].
  - rewrite (wrap_small (ptr s1 + offset s + d)) by lia.
    unfold unsafeSlice_ok.
    destruct (wrap_neg (ptr s1 + offset s + d)) as [[C1 C2] | [C1 C2]]; [lia | lia |].
    rewrite C2.
    destruct (Z.ltb_spec sz half_modulus); [| lia].
    destruct (Z.leb_spec sz (modulus - (ptr s1 + offset s + d))); [| lia].
    simpl. do 3 eexists. split; [reflexivity |]. split; [exact Pe |].
    split; [discriminate | simpl; lia].
Qed.

Lemma alloc_scan_total bs : forall sz al w,
  Forall buffer_ok bs -> Forall (fun s => size s < half_modulus) bs -> host_ok w ->
  0 <= sz < half_modulus -> 0 < al <= half_modulus ->
  exists bs' w' r, alloc_scan bs sz al w = Ret (bs', w', r).
Proof.
  induction bs as [| s bs IH]; intros sz al w Hok Hsm Hh Hsz Hal; simpl.
  - eauto.
  - inversion Hok as [| ? ? Hs Hbs]; inversion Hsm as [| ? ? Hs' Hbs']; subst.
    destruct (monotonicBuffer_alloc_total s sz al w Hs Hh Hsz Hal Hs')
      as (s1 & w1 & r & A & _ & _).
    rewrite A. unfold_bind. destruct r as [p |]; [eauto |].
    assert (Hsz' : 0 <= sz < modulus)
      by (change modulus with (2 * half_modulus); lia).
    destruct (monotonicBuffer_alloc_None _ _ _ _ _ _ Hs Hh (proj1 Hal) A)
      as (_ & _ & _ & _ & Hw & _).
    destruct (IH sz al w1 Hbs Hbs' (host_ok_ext _ _ Hw Hh) Hsz Hal)
      as (bs2 & w2 & r2 & R).
    rewrite R. eauto.
Qed.

(** The defect of the new buffer, in general.  When no buffer fits, the new
    buffer has [max(minBufferSize, sz + padL)] bytes, [padL] being the
    padding of the length in use; the call returns exactly when the request
    and the padding at the address of the new block fit in it, and panics
    otherwise. *)
Lemma Alloc_new_buffer_outcome a sz al w bs w1 :
  arena_ok a -> arena_small a -> host_ok w ->
  0 <= sz -> 0 < al -> sz + al <= half_modulus ->
  alloc_scan (buffers a) sz al w = Ret (bs, w1, None) ->
  let L := monotonicArena_len (with_buffers a bs) in
  let padL := if 0 <? L then alignDist al L else 0 in
  let nbs := Z.max (minBufferSize a) (sz + padL) in
  let b := host w1 (makes w1) nbs in
  if sz + pad al b <=? nbs
  then returns (monotonicArena_Alloc a sz al w)
  else monotonicArena_Alloc a sz al w = Panic PanicNewBuffer.
Proof.
  intros [Hbs Hmin] [Hsm Hmins] Hh Hsz Hal Hsum S L padL nbs b.
  assert (HM : modulus = 2 * half_modulus) by reflexivity.
  assert (Hsz' : 0 <= sz < modulus) by lia.
  destruct (alloc_scan_spec _ _ _ _ _ _ _ Hbs Hh Hsz' Hal S)
    as (Hw1 & _ & Hok1 & _ & _).
  pose proof (host_ok_ext _ _ Hw1 Hh) as Hh1.
  pose proof (len_range (with_buffers a bs)) as HL. fold L in HL.
  assert (HpL : 0 <= padL < al).
  { unfold padL. destruct (0 <? L); [apply alignDist_range; lia | lia]. }
  unfold monotonicArena_Alloc. rewrite S. unfold_bind. fold L.
  assert (E1 : (if 0 <? L then alignPad al L else Ret 0) = Ret padL).
  { unfold padL. destruct (0 <? L); [apply alignPad_ret; lia | reflexivity]. }
  rewrite E1. cbv zeta. rewrite (wrap_small (sz + padL)) by lia.
  change (minBufferSize (with_buffers a bs)) with (minBufferSize a).
  assert (E2 : (if sz + padL <? minBufferSize a then minBufferSize a else sz + padL) = nbs).
  { unfold nbs. destruct (Z.ltb_spec (sz + padL) (minBufferSize a)); lia. }
  rewrite E2.
  assert (Hn : 0 <= nbs < half_modulus) by (unfold nbs; lia).
  assert (Hnb : buffer_ok (newMonotonicBuffer (to_int nbs))).
  { unfold newMonotonicBuffer, to_uintptr, buffer_ok. simpl.
    rewrite wrap_to_int by lia. repeat split; lia. }
  assert (Hns : size (newMonotonicBuffer (to_int nbs)) = nbs).
  { unfold newMonotonicBuffer, to_uintptr. simpl. apply wrap_to_int. lia. }
  assert (Hsz2 : 0 <= sz < half_modulus) by lia.
  assert (Hal2 : 0 < al <= half_modulus) by lia.
  assert (Hns2 : size (newMonotonicBuffer (to_int nbs)) < half_modulus) by lia.
  destruct (monotonicBuffer_alloc_total (newMonotonicBuffer (to_int nbs)) sz al w1
              Hnb Hh1 Hsz2 Hal2 Hns2)
    as (nb & w2 & r & A & Pb & Pr).
  rewrite A. rewrite Hns in Pb, Pr. simpl in Pb, Pr. fold b in Pb.
  rewrite Pb, Z.add_0_r, Z.sub_0_r in Pr.
  destruct (Z.leb_spec (sz + pad al b) nbs) as [Fit | NoFit].
  - destruct r as [p |]; [eexists; reflexivity |].
    exfalso. destruct Pr as [Pr _]. specialize (Pr eq_refl). lia.
  - destruct r as [p |]; [| reflexivity].
    exfalso. destruct Pr as [_ Pr]. specialize (Pr NoFit). discriminate.
Qed.

(** With alignment 1 there is no padding, and [Alloc] returns. *)
Lemma Alloc_align1_returns a sz w :
  arena_ok a -> arena_small a -> host_ok w -> 0 <= sz < half_modulus ->
  returns (monotonicArena_Alloc a sz 1 w).
Proof.
  intros Hok Hsm Hh Hsz.
  assert (Hal : 0 < 1 <= half_modulus) by (rewrite half_modulus_val; lia).
  destruct (alloc_scan_total (buffers a) sz 1 w (proj1 Hok) (proj1 Hsm) Hh Hsz Hal)
    as (bs & w1 & r & S).
  destruct r as [p |].
  - unfold monotonicArena_Alloc. rewrite S. unfold_bind. eexists. reflexivity.
  - assert (H1 : sz + 1 <= half_modulus) by lia.
    pose proof (Alloc_new_buffer_outcome a sz 1 w bs w1 Hok Hsm Hh
                  (proj1 Hsz) (proj1 Hal) H1 S) as O.
    cbv zeta in O.
    replace (pad 1 _) with 0 in O by (unfold pad; now rewrite !Z.mod_1_r).
    match type of O with
    | if ?x <=? ?y then _ else _ =>
        destruct (Z.leb_spec x y) as [F | F]; [exact O | exfalso]
    end.
    pose proof (len_range (with_buffers a bs)) as HL.
    pose proof (alignDist_range 1 _ (proj1 Hal) HL).
    destruct (0 <? monotonicArena_len (with_buffers a bs)) in F; lia.
Qed.

(* ===================================================================== *)
(** * The Arena interface *)
(* ===================================================================== *)

Lemma ArenaImpl_induction (P : ArenaImpl -> Prop) :
  (forall m, P (MonotonicArena m)) ->
  P (ConcurrentArena None) ->
  (forall i, P i -> P (ConcurrentArena (Some i))) ->
  forall a, P a.
Proof.
  intros Hm Hn Hs. fix IH 1.
  intros [m | [i |]]; [apply Hm | apply Hs, IH | apply Hn].
Qed.

Lemma monotonicBuffer_alloc_host s sz al w s' w' r :
  monotonicBuffer_alloc s sz al w = Ret (s', w', r) -> host w' = host w.
Proof.
  rewrite monotonicBuffer_alloc_unfold. unfold materialize, hostMake, hostBlock.
  destruct (ptr s =? 0); [destruct (half_modulus <=? size s) |];
    unfold_bind; try discriminate;
    (destruct (alignPad _ _); [| discriminate]); cbv zeta;
    (destruct (_ <? _); [intros [= <- <- <-]; reflexivity |]);
    (destruct (unsafeSlice_ok _ _); [| discriminate]);
    intros [= <- <- <-]; reflexivity.
Qed.

Lemma alloc_scan_host bs : forall sz al w bs' w' r,
  alloc_scan bs sz al w = Ret (bs', w', r) -> host w' = host w.
Proof.
  induction bs as [| s bs IH]; intros sz al w bs' w' r; simpl.
  - now intros [= <- <- <-].
  - destruct (monotonicBuffer_alloc s sz al w) as [[[s1 w1] [p |]] |] eqn:A;
      unfold_bind; try discriminate.
    + intros [= <- <- <-]. exact (monotonicBuffer_alloc_host _ _ _ _ _ _ _ A).
    + destruct (alloc_scan bs sz al w1) as [[[bs2 w2] r2] |] eqn:R; [| discriminate].
      intros [= <- <- <-]. rewrite (IH _ _ _ _ _ _ R).
      exact (monotonicBuffer_alloc_host _ _ _ _ _ _ _ A).
Qed.

Lemma monotonicArena_Alloc_host a sz al w p a' w' :
  monotonicArena_Alloc a sz al w = Ret (p, a', w') -> host w' = host w.
Proof.
  unfold monotonicArena_Alloc.
  destruct (alloc_scan (buffers a) sz al w) as [[[bs w1] [q |]] |] eqn:S;
    unfold_bind; try discriminate.
  - intros [= <- <- <-]. exact (alloc_scan_host _ _ _ _ _ _ _ S).
  - destruct (if 0 <? _ then _ else _) as [alignOffset |]; [| discriminate].
    cbv zeta.
    destruct (monotonicBuffer_alloc _ sz al w1) as [[[nb w2] [q |]] |] eqn:A;
      try discriminate.
    intros [= <- <- <-]. rewrite (monotonicBuffer_alloc_host _ _ _ _ _ _ _ A).
    exact (alloc_scan_host _ _ _ _ _ _ _ S).
Qed.

Lemma Arena_Alloc_host a : forall sz al w p a' w',
  Arena_Alloc a sz al w = Ret (p, a', w') -> host w' = host w.
Proof.
  induction a as [m | | i IH] using ArenaImpl_induction; intros sz al w p a' w'; simpl.
  - destruct (monotonicArena_Alloc m sz al w) as [[[q m'] w1] |] eqn:A;
      unfold_bind; [| discriminate].
    intros [= <- <- <-]. exact (monotonicArena_Alloc_host _ _ _ _ _ _ _ A).
  - now intros [= <- <- <-].
  - destruct (Arena_Alloc i sz al w) as [[[q i'] w1] |] eqn:A;
      unfold_bind; [| discriminate].
    intros [= <- <- <-]. exact (IH _ _ _ _ _ _ A).
Qed.

(** A pointer from any arena of the package is nil or good. *)
Lemma Arena_Alloc_sound a : forall sz al w p a' w',
  impl_ok a -> host_ok w -> 0 <= sz < modulus -> 0 < al ->
  Arena_Alloc a sz al w = Ret (p, a', w') ->
  (p = 0 \/ good_pointer w' p sz al) /\ impl_ok a' /\ host_ok w'.
Proof.
  induction a as [m | | i IH] using ArenaImpl_induction;
    intros sz al w p a' w' Hok Hh Hsz Hal; simpl.
  - destruct (monotonicArena_Alloc m sz al w) as [[[q m'] w1] |] eqn:A;
      unfold_bind; [| discriminate].
    intros [= <- <- <-].
    destruct (Alloc_returns_aligned_zeroed _ _ _ _ _ _ _ Hok Hh Hsz Hal A)
      as (G & Ha & Hw).
    simpl. tauto.
  - intros [= <- <- <-]. simpl. tauto.
  - destruct (Arena_Alloc i sz al w) as [[[q i'] w1] |] eqn:A;
      unfold_bind; [| discriminate].
    intros [= <- <- <-]. exact (IH _ _ _ _ _ _ Hok Hh Hsz Hal A).
Qed.

(** With alignment 1 every arena of the package returns. *)
Lemma Arena_Alloc_align1_returns a : forall sz w,
  impl_ok a -> impl_small a -> host_ok w -> 0 <= sz < half_modulus ->
  returns (Arena_Alloc a sz 1 w).
Proof.
  induction a as [m | | i IH] using ArenaImpl_induction;
    intros sz w Hok Hsm Hh Hsz; simpl.
  - destruct (Alloc_align1_returns m sz w Hok Hsm Hh Hsz) as [[[q m'] w1] ->].
    eexists. reflexivity.
  - eexists. reflexivity.
  - destruct (IH sz w Hok Hsm Hh Hsz) as [[[q i'] w1] ->]. eexists. reflexivity.
Qed.

(* ===================================================================== *)
(** * Allocate and AllocateSlice *)
(* ===================================================================== *)

Lemma map_seq_const {A : Type} (f : nat -> A) (c : A) n : forall start,
  (forall i, (start <= i < start + n)%nat -> f i = c) ->
  map f (seq start n) = repeat c n.
Proof.
  induction n as [| n IH]; intros start H; simpl; [reflexivity |].
  rewrite H by lia. f_equal. apply IH. intros i Hi. apply H. lia.
Qed.

Lemma firstn_repeat_le {A : Type} (c : A) n : forall m,
  (n <= m)%nat -> firstn n (repeat c m) = repeat c n.
Proof.
  induction n as [| n IH]; intros [| m] H; simpl; try reflexivity; try lia.
  f_equal. apply IH. lia.
Qed.

Section TypedFacts.
Context {T : Type} `{GT : GoType T}.

(** A block fresh from the host holds the zero value. *)
Lemma loadT_hostBlock (w : World) :
  0 <= sizeofT ->
  loadT (snd (hostBlock w sizeofT)) (fst (hostBlock w sizeofT)) = zeroT.
Proof.
  intros Hs. unfold loadT, zeroT, hostBlock. simpl. f_equal.
  apply map_seq_const. intros i Hi. apply memclr_inside. lia.
Qed.

(** C10. When the arena is not nil and its [Alloc] returns the nil
    pointer, [Allocate] returns a non-nil pointer to a block of the host
    that holds the zero value of [T], and [AllocateSlice] returns a slice
    on a non-nil block of the host with the length and the capacity asked
    for, all elements zero. *)
Theorem typed_helpers_fall_back_on_nil_pointer
        (impl impl' : ArenaImpl) (w w' : World) :
  host_ok w -> 0 <= sizeofT ->
  (Arena_Alloc impl sizeofT alignofT w = Ret (0, impl', w') ->
   sizeofT < half_modulus ->
   exists q w'',
     Allocate (Some impl) w = Ret (q, Some impl', w'') /\
     q <> 0 /\ q = host w' (makes w') sizeofT /\ loadT w'' q = zeroT) /\
  (forall len cap,
     0 <= len <= cap -> sizeofT * cap < half_modulus ->
     Arena_Alloc impl (to_uintptr (wrap_int (to_int sizeofT * cap))) alignofT w
     = Ret (0, impl', w') ->
     exists s w'',
       AllocateSlice (Some impl) len cap w = Ret (s, Some impl', w'') /\
       sdata s <> 0 /\ sdata s = host w' (makes w') (sizeofT * cap) /\
       slen s = len /\ scap s = cap /\
       elems s = repeat zeroT (Z.to_nat len)).
Proof.
  intros Hh Hs. split.
  - intros A Hsmall. unfold Allocate. rewrite A. unfold_bind. simpl.
    pose proof (host_ok_ext _ _ (Arena_Alloc_host _ _ _ _ _ _ _ A) Hh) as Hh'.
    destruct (Hh' (makes w') sizeofT) as [Hq _]; [lia |].
    eexists _, _. split; [reflexivity |].
    split; [lia |]. split; [reflexivity |].
    apply (loadT_hostBlock w' Hs).
  - intros len cap Hlen Hcap A. unfold AllocateSlice. rewrite A. unfold_bind. simpl.
    pose proof (host_ok_ext _ _ (Arena_Alloc_host _ _ _ _ _ _ _ A) Hh) as Hh'.
    unfold go_make.
    destruct (Z.ltb_spec len 0); [lia |].
    destruct (Z.ltb_spec cap len); [lia |].
    destruct (Z.leb_spec half_modulus (sizeofT * cap)); [lia |].
    simpl.
    assert (Hc : 0 <= sizeofT * cap) by nia.
    destruct (Hh' (makes w') (sizeofT * cap)) as [Hq _]; [lia |].
    eexists _, _. split; [reflexivity |]. simpl.
    split; [lia |]. split; [reflexivity |]. split; [reflexivity |].
    unfold scap, elems. simpl. rewrite repeat_length.
    split; [lia |].
    apply firstn_repeat_le. lia.
Qed.
End TypedFacts.

Lemma typed_helpers_fall_back_on_nil_pointer_witness :
  exists q w'',
    @Allocate Z _ (Some (ConcurrentArena None)) demo_world
    = Ret (q, Some (ConcurrentArena None), w'') /\
    q <> 0 /\ q = host demo_world (makes demo_world) 1 /\ @loadT Z _ w'' q = 0.
Proof.
  apply (proj1 (@typed_helpers_fall_back_on_nil_pointer Z byte_GoType
                  (ConcurrentArena None) (ConcurrentArena None) demo_world demo_world
                  demo_world_ok Z.le_0_1)).
  - reflexivity.
  - reflexivity.
Defined.

(* ===================================================================== *)
(** * growSlice and SliceAppend *)
(* ===================================================================== *)

Lemma growCap_refines fuel : forall need cap,
  1 <= cap < half_modulus -> need < 2 * cap_bound ->
  (Z.to_nat (need - cap) <= fuel)%nat ->
  growCap fuel need cap = Some (spec_grow fuel need cap) /\
  need <= spec_grow fuel need cap /\ cap <= spec_grow fuel need cap /\
  (need <= cap -> spec_grow fuel need cap = cap) /\
  (cap < need -> cap < spec_grow fuel need cap) /\
  spec_grow fuel need cap < half_modulus.
Proof.
  assert (HB : cap_bound = 2305843009213693952) by reflexivity.
  pose proof half_modulus_val as HH.
  induction fuel as [| f IH]; intros need cap Hcap Hneed Hfuel.
  - simpl. destruct (Z.ltb_spec cap need); [lia |]. repeat split; lia.
  - simpl. destruct (Z.ltb_spec cap need) as [L | G].
    + set (cap' := if cap <? 256 then 2 * cap else cap + cap / 4).
      assert (Hc' : cap < cap' <= 2 * cap).
      { unfold cap'. destruct (Z.ltb_spec cap 256); [lia |].
        pose proof (Z.div_le_lower_bound cap 4 64 ltac:(lia) ltac:(lia)).
        pose proof (Z.div_le_upper_bound cap 4 cap ltac:(lia) ltac:(lia)). lia. }
      assert (E : (if cap <? growThreshold
                   then wrap_int (cap * 2)
                   else wrap_int (cap + Z.quot cap 4)) = cap').
      { unfold cap', growThreshold. destruct (Z.ltb_spec cap 256).
        - rewrite wrap_int_small by (rewrite half_modulus_val; lia). lia.
        - rewrite Z.quot_div_nonneg by lia.
          apply wrap_int_small. rewrite half_modulus_val. lia. }
      rewrite E.
      assert (Q1 : 1 <= cap' < half_modulus) by lia.
      assert (Q2 : (Z.to_nat (need - cap') <= f)%nat) by lia.
      destruct (IH need cap' Q1 Hneed Q2) as (I1 & I2 & I3 & I4 & I5 & I6).
      rewrite I1. repeat split; try lia.
    + repeat split; lia.
Qed.

Section SliceFacts.
Context {T : Type} `{GT : GoType T}.

Lemma view_length (w : World) p n : length (view (T:=T) w p n) = n.
Proof. unfold view. now rewrite length_map, length_seq. Qed.

Lemma elems_length (s : slice T) :
  0 <= slen s <= scap s -> length (elems s) = Z.to_nat (slen s).
Proof.
  intros H. unfold elems, scap in *. rewrite firstn_length_le; lia.
Qed.

(** [append] within the capacity writes in place. *)
Lemma go_append_in_place (s : slice T) (data : list T) (w : World) :
  0 <= slen s -> slen s + Z.of_nat (length data) <= scap s ->
  exists s',
    go_append s data w = (s', w) /\
    sdata s' = sdata s /\ scap s' = scap s /\
    slen s' = slen s + Z.of_nat (length data) /\
    elems s' = elems s ++ data /\
    sarr s' = firstn (Z.to_nat (slen s)) (sarr s) ++ data ++
              skipn (Z.to_nat (slen s) + length data) (sarr s).
Proof.
  intros H0 H. unfold go_append.
  destruct (Z.leb_spec (slen s + Z.of_nat (length data)) (scap s)); [| lia].
  eexists. split; [reflexivity |]. simpl. unfold scap, elems in *. simpl.
  assert (L1 : length (firstn (Z.to_nat (slen s)) (sarr s)) = Z.to_nat (slen s))
    by (rewrite firstn_length_le; lia).
  repeat split.
  - rewrite !length_app, L1, length_skipn. lia.
  - rewrite app_assoc, firstn_app.
    rewrite firstn_all2 by (rewrite length_app, L1; lia).
    replace (_ - _)%nat with 0%nat by (rewrite length_app, L1; lia).
    simpl. now rewrite app_nil_r.
Qed.

(** [AllocateSlice] on an arena that returns: a slice of the length and
    capacity asked for, on the arena's memory or, for a nil pointer, on a
    block of the host. *)
Lemma AllocateSlice_returns (impl : ArenaImpl) (len cap : Z) (w : World) :
  impl_ok impl -> host_ok w ->
  0 <= sizeofT < half_modulus -> 0 < alignofT ->
  0 <= len <= cap -> sizeofT * cap < half_modulus ->
  returns (Arena_Alloc impl (sizeofT * cap) alignofT w) ->
  exists s a' w',
    AllocateSlice (Some impl) len cap w = Ret (s, a', w') /\
    slen s = len /\ scap s = cap.
Proof.
  intros Hok Hh Hs Hal Hlen Hcap [[[p impl'] w'] A].
  assert (HM : modulus = 2 * half_modulus) by reflexivity.
  assert (Hc : 0 <= sizeofT * cap) by nia.
  unfold AllocateSlice.
  rewrite (to_int_small sizeofT) by lia.
  rewrite wrap_int_small by lia.
  unfold to_uintptr. rewrite wrap_small by lia.
  rewrite A. unfold_bind.
  assert (Hsz : 0 <= sizeofT * cap < modulus) by lia.
  destruct (Arena_Alloc_sound _ _ _ _ _ _ _ Hok Hh Hsz Hal A)
    as ([-> | (G1 & G2 & _)] & _ & _).
  - simpl. unfold go_make.
    destruct (Z.ltb_spec len 0); [lia |].
    destruct (Z.ltb_spec cap len); [lia |].
    destruct (Z.leb_spec half_modulus (sizeofT * cap)); [lia |].
    simpl. eexists _, _, _. split; [reflexivity |]. simpl.
    unfold scap. simpl. rewrite repeat_length. split; lia.
  - destruct (Z.eqb_spec p 0); [lia |].
    unfold unsafeSliceT_ok.
    destruct (wrap_neg p) as [[? ?] | [_ ->]]; [lia | lia |].
    destruct (Z.leb_spec 0 cap); [| lia].
    destruct (Z.ltb_spec (sizeofT * cap) modulus); [| lia].
    destruct (Z.leb_spec (sizeofT * cap) (modulus - p)); [| lia].
    destruct (Z.leb_spec 0 len); [| lia].
    destruct (Z.leb_spec len cap); [| lia].
    simpl. eexists _, _, _. split; [reflexivity |]. simpl.
    unfold scap. simpl. rewrite view_length. split; lia.
Qed.

(** [growSlice] on an arena that is not nil: the slice itself when the
    capacity of the rule is its capacity, and otherwise a slice of that
    capacity from the arena, holding the same elements. *)
Lemma growSlice_spec (impl : ArenaImpl) (s : slice T) (D : Z) (w : World) :
  let N := slen s in
  let K := scap s in
  let C := spec_newCap N K D in
  0 <= N <= K -> K < cap_bound -> 0 <= D < cap_bound ->
  0 <= sizeofT < half_modulus -> 0 < alignofT -> sizeofT * C < half_modulus ->
  impl_ok impl -> host_ok w ->
  (C <> K -> returns (Arena_Alloc impl (sizeofT * C) alignofT w)) ->
  exists s1 a1 w1,
    growSlice (Some impl) s D w = Ret (s1, a1, w1) /\
    slen s1 = N /\ elems s1 = elems s /\ scap s1 = C /\ N + D <= C /\
    (C = K -> s1 = s /\ a1 = Some impl /\ w1 = w).
Proof.
  intros N K C HN HK HD Hs Hal HC Hok Hh Hret.
  assert (HB : cap_bound = 2305843009213693952) by reflexivity.
  unfold growSlice. fold N K.
  rewrite (wrap_int_small (N + D)) by (rewrite half_modulus_val; lia).
  (* the capacity computed by the loop is the one of the rule *)
  assert (G : (if 0 <? K
               then match growCap (Z.to_nat (N + D)) (N + D) K with
                    | Some c => Ret c
                    | None => Panic PanicFuel
                    end
               else Ret D) = Ret C /\ N + D <= C).
  { unfold C, spec_newCap. destruct (Z.ltb_spec 0 K) as [P | Z0].
    - destruct (Z.eqb_spec K 0); [lia |].
      assert (R1 : 1 <= K < half_modulus) by (rewrite half_modulus_val; lia).
      assert (R2 : N + D < 2 * cap_bound) by lia.
      assert (R3 : (Z.to_nat (N + D - K) <= Z.to_nat (N + D))%nat) by lia.
      destruct (growCap_refines (Z.to_nat (N + D)) (N + D) K R1 R2 R3) as (-> & I & _).
      split; [reflexivity | exact I].
    - assert (K = 0) by (unfold K, scap in *; lia).
      destruct (Z.eqb_spec K 0); [| lia]. split; [reflexivity | lia]. }
  destruct G as [-> GC]. unfold_bind.
  destruct (Z.eqb_spec C K) as [E | NE].
  - exists s, (Some impl), w. repeat split; try reflexivity; try lia.
  - assert (HNC : 0 <= N <= C) by lia.
    destruct (AllocateSlice_returns impl N C w Hok Hh Hs Hal HNC HC (Hret NE))
      as (s2 & a' & w' & -> & L2 & C2).
    assert (EL : length (elems s) = Z.to_nat N) by (apply elems_length; fold N K; lia).
    assert (A3 : sarr (go_copy s2 (elems s)) = elems s ++ skipn (Z.to_nat N) (sarr s2)).
    { unfold go_copy. simpl. rewrite L2, EL, Nat.min_id.
      rewrite <- EL at 1. now rewrite firstn_all. }
    eexists _, a', w'. split; [reflexivity |].
    split; [exact L2 |]. split; [| split; [| split; [exact GC | intros; lia]]].
    + unfold elems at 1. change (slen (go_copy s2 (elems s))) with (slen s2).
      rewrite L2, A3, <- EL. apply take_app_length.
    + unfold scap in *. rewrite A3, length_app, EL, length_skipn. lia.
Qed.

(** C5. [SliceAppend] on an arena that is not nil: the result has length
    [N + D], holds the elements of [s] followed by [data], and its
    capacity is the one the rule gives; when that is the capacity [K] of
    [s], the storage of [s] is used in place, nothing is allocated, and
    only the [D] cells after the first [N] are written. *)
Theorem SliceAppend_appends_with_growth_rule
        (impl : ArenaImpl) (s : slice T) (data : list T) (w : World) :
  let N := slen s in
  let K := scap s in
  let D := Z.of_nat (length data) in
  let C := spec_newCap N K D in
  0 <= N <= K -> K < cap_bound -> D < cap_bound ->
  0 <= sizeofT < half_modulus -> 0 < alignofT -> sizeofT * C < half_modulus ->
  impl_ok impl -> host_ok w ->
  (C <> K -> returns (Arena_Alloc impl (sizeofT * C) alignofT w)) ->
  exists s' a' w',
    SliceAppend (Some impl) s data w = Ret (s', a', w') /\
    slen s' = N + D /\
    elems s' = elems s ++ data /\
    scap s' = C /\
    (C = K ->
     sdata s' = sdata s /\ a' = Some impl /\ w' = w /\
     sarr s' = firstn (Z.to_nat N) (sarr s) ++ data ++
               skipn (Z.to_nat N + length data) (sarr s)).
Proof.
  intros N K D C HN HK HD Hs Hal HC Hok Hh Hret.
  assert (HD0 : 0 <= D < cap_bound) by (unfold D in *; lia).
  destruct (growSlice_spec impl s D w HN HK HD0 Hs Hal HC Hok Hh Hret)
    as (s1 & a1 & w1 & G & L1 & E1 & C1 & Fit & Same).
  fold N K C in L1, C1, Fit, Same.
  unfold SliceAppend. fold D. rewrite G. unfold_bind.
  (* after growSlice the built-in append always has room *)
  assert (F0 : 0 <= slen s1) by lia.
  assert (F1 : slen s1 + Z.of_nat (length data) <= scap s1) by (fold D; lia).
  destruct (go_append_in_place s1 data w1 F0 F1)
    as (s' & -> & B1 & B2 & B3 & B4 & B5).
  exists s', a1, w1. split; [reflexivity |].
  fold D in B3. rewrite E1 in B4.
  split; [lia |]. split; [exact B4 |]. split; [lia |].
  intros E. destruct (Same E) as (-> & -> & ->).
  fold N in B5. repeat split; assumption.
Qed.
End SliceFacts.

Lemma returns_by_eval {A : Type} (m : result A) : is_ret m = true -> returns m.
Proof. destruct m as [a | e]; [intros _; now exists a | discriminate]. Qed.

Lemma demo_arena_ok : arena_ok demo_arena /\ arena_small demo_arena.
Proof.
  split; (split; [repeat constructor |]); vm_compute; intuition discriminate.
Qed.

Lemma SliceAppend_appends_with_growth_rule_witness :
  exists s' a' w',
    @SliceAppend Z _ (Some (MonotonicArena demo_arena)) (mkSlice 0x500 [1; 2; 3] 3)
                 [4; 5] demo_world = Ret (s', a', w') /\
    slen s' = 5 /\ elems s' = [1; 2; 3; 4; 5] /\ scap s' = 6 /\
    (6 = 3 ->
     sdata s' = 0x500 /\ a' = Some (MonotonicArena demo_arena) /\ w' = demo_world /\
     sarr s' = [1; 2; 3; 4; 5]).
Proof.
  apply (@SliceAppend_appends_with_growth_rule Z byte_GoType
           (MonotonicArena demo_arena) (mkSlice 0x500 [1; 2; 3] 3) [4; 5] demo_world).
  - vm_compute. split; discriminate.
  - reflexivity.
  - reflexivity.
  - vm_compute. split; [discriminate | reflexivity].
  - reflexivity.
  - reflexivity.
  - exact (proj1 demo_arena_ok).
  - exact demo_world_ok.
  - intros _. apply returns_by_eval. vm_compute. reflexivity.
Defined.

(* ===================================================================== *)
(** * The byte buffer *)
(* ===================================================================== *)

Lemma spec_newCap_bounds N K D :
  0 <= N <= K -> K < cap_bound -> 0 <= D < cap_bound ->
  N + D <= spec_newCap N K D < half_modulus.
Proof.
  intros HN HK HD. unfold spec_newCap.
  assert (HB : cap_bound = 2305843009213693952) by reflexivity.
  pose proof half_modulus_val as HH.
  destruct (Z.eqb_spec K 0) as [E | NE]; [lia |].
  assert (R1 : 1 <= K < half_modulus) by lia.
  assert (R2 : N + D < 2 * cap_bound) by lia.
  assert (R3 : (Z.to_nat (N + D - K) <= Z.to_nat (N + D))%nat) by lia.
  destruct (growCap_refines (Z.to_nat (N + D)) (N + D) K R1 R2 R3)
    as (_ & I & _ & _ & _ & U).
  lia.
Qed.

Section AppendFacts.
Context {T : Type} `{GT : GoType T}.

(** The built-in [append] in both of its cases. *)
Lemma go_append_spec (s : slice T) (data : list T) (w : World) :
  0 <= slen s <= scap s ->
  slen (fst (go_append s data w)) = slen s + Z.of_nat (length data) /\
  elems (fst (go_append s data w)) = elems s ++ data /\
  slen (fst (go_append s data w)) <= scap (fst (go_append s data w)) /\
  host (snd (go_append s data w)) = host w.
Proof.
  intros H.
  destruct (Z_le_gt_dec (slen s + Z.of_nat (length data)) (scap s)) as [F | F].
  - destruct (go_append_in_place s data w (proj1 H) F)
      as (s' & -> & _ & A2 & A3 & A4 & _).
    simpl. repeat split; try assumption. lia.
  - unfold go_append.
    destruct (Z.leb_spec (slen s + Z.of_nat (length data)) (scap s)); [lia |].
    unfold hostBlock. simpl. unfold elems, scap in *. simpl.
    assert (L1 : length (firstn (Z.to_nat (slen s)) (sarr s)) = Z.to_nat (slen s))
      by (rewrite firstn_length_le; lia).
    repeat split.
    + rewrite app_assoc, firstn_app.
      rewrite firstn_all2 by (rewrite length_app, L1; lia).
      replace (_ - _)%nat with 0%nat by (rewrite length_app, L1; lia).
      simpl. now rewrite app_nil_r.
    + rewrite !length_app, L1, repeat_length. lia.
Qed.
End AppendFacts.

(** [SliceAppend] on bytes returns for every arena a buffer may hold. *)
Lemma SliceAppend_bytes (a : Arena) (s : slice Z) (data : list Z) (w : World) :
  buffer_arena_ok a -> host_ok w ->
  0 <= slen s <= scap s -> scap s < cap_bound ->
  Z.of_nat (length data) < cap_bound ->
  exists s' a' w',
    SliceAppend a s data w = Ret (s', a', w') /\
    slen s' = slen s + Z.of_nat (length data) /\
    elems s' = elems s ++ data /\
    slen s' <= scap s'.
Proof.
  intros Ha Hh Hs Hk Hd.
  assert (HB : cap_bound = 2305843009213693952) by reflexivity.
  pose proof half_modulus_val as HH.
  destruct a as [impl |].
  - destruct Ha as [Hok Hsm].
    assert (Hd0 : 0 <= Z.of_nat (length data) < cap_bound) by lia.
    pose proof (spec_newCap_bounds (slen s) (scap s) (Z.of_nat (length data))
                  Hs Hk Hd0) as HC.
    assert (S1 : 0 <= sizeofT (T:=Z) < half_modulus) by (simpl; lia).
    assert (S2 : 0 < alignofT (T:=Z)) by (simpl; lia).
    assert (S3 : sizeofT (T:=Z) *
                 spec_newCap (slen s) (scap s) (Z.of_nat (length data)) < half_modulus)
      by (simpl sizeofT; lia).
    assert (R : spec_newCap (slen s) (scap s) (Z.of_nat (length data)) <> scap s ->
                returns (Arena_Alloc impl
                           (sizeofT (T:=Z) *
                            spec_newCap (slen s) (scap s) (Z.of_nat (length data)))
                           (alignofT (T:=Z)) w)).
    { intros _. simpl sizeofT. simpl alignofT.
      apply Arena_Alloc_align1_returns; try assumption. lia. }
    destruct (growSlice_spec impl s (Z.of_nat (length data)) w
                Hs Hk Hd0 S1 S2 S3 Hok Hh R)
      as (s1 & a1 & w1 & G & L1 & E1 & C1 & Fit & _).
    unfold SliceAppend. rewrite G. unfold_bind.
    assert (F0 : 0 <= slen s1) by lia.
    assert (F1 : slen s1 + Z.of_nat (length data) <= scap s1) by lia.
    destruct (go_append_in_place s1 data w1 F0 F1)
      as (s' & -> & B1 & B2 & B3 & B4 & B5).
    exists s', a1, w1. split; [reflexivity |].
    rewrite E1 in B4. repeat split; try assumption; lia.
  - unfold SliceAppend.
    destruct (go_append_spec s data w Hs) as (L & El & C & Hw).
    destruct (go_append s data w) as [s' w'] eqn:G. simpl in *.
    exists s', None, w'. repeat split; assumption.
Qed.

(** The unread window as [Bytes] shows it, on a buffer whose offset lies
    within the capacity. *)
Lemma Buffer_Bytes_window (b : Buffer) :
  0 <= off b <= scap (buf b) ->
  Buffer_Bytes b = Ret (firstn (Z.to_nat (off b)) (sarr (buf b))).
Proof.
  intros H. unfold Buffer_Bytes, subslice.
  destruct (Z.eqb_spec (off b) 0) as [E | N]; [now rewrite E |].
  destruct (Z.leb_spec 0 0); [| lia].
  destruct (Z.leb_spec 0 (off b)); [| lia].
  destruct (Z.leb_spec (off b) (scap (buf b))); [| lia].
  reflexivity.
Qed.

(** C7. [Truncate(n)] panics with its range error exactly when [n < 0] or
    [n > Len()]; otherwise it returns, the unread window becomes the first
    [n] bytes of the window before, and the storage, the capacity, the
    arena and the scratch slice are as before. *)
Theorem Truncate_panics_iff_out_of_range (b : Buffer) (n : Z) :
  (Buffer_Truncate b n = Panic PanicTruncate <-> n < 0 \/ Buffer_Len b < n) /\
  (0 <= n <= Buffer_Len b ->
   exists b',
     Buffer_Truncate b n = Ret b' /\
     Buffer_Len b' = n /\ buf b' = buf b /\ Buffer_Cap b' = Buffer_Cap b /\
     arena b' = arena b /\ readBuf b' = readBuf b /\
     (Buffer_Len b <= Buffer_Cap b ->
      exists win,
        Buffer_Bytes b = Ret win /\
        Buffer_Bytes b' = Ret (firstn (Z.to_nat n) win))).
Proof.
  unfold Buffer_Truncate, Buffer_Len, Buffer_Cap. split.
  - destruct (Z.ltb_spec n 0); destruct (Z.ltb_spec (off b) n); simpl;
      split; intros H'; try reflexivity; try discriminate; lia.
  - intros H.
    destruct (Z.ltb_spec n 0); [lia |].
    destruct (Z.ltb_spec (off b) n); [lia |]. simpl.
    eexists. split; [reflexivity |]. simpl. repeat split.
    intros Hc. eexists. split.
    + apply Buffer_Bytes_window. lia.
    + rewrite Buffer_Bytes_window by (simpl; lia). simpl.
      rewrite firstn_firstn. f_equal. f_equal. lia.
Qed.

(** C6, as the code has it.  On a buffer that holds no bytes (newly made,
    or after [Reset]), [Write(data)] followed by [Read(p)] with
    [len(p) = len(data)] leaves [data] in [p] and the buffer empty. *)
Theorem Write_then_Read_round_trip (b : Buffer) (data p : list Z) (w : World) :
  slen (buf b) = 0 -> off b = 0 ->
  scap (buf b) < cap_bound -> Z.of_nat (length data) < cap_bound ->
  length p = length data ->
  buffer_arena_ok (arena b) -> host_ok w ->
  exists b1 w1 e b2,
    Buffer_Write b data w = Ret (Z.of_nat (length data), no_error, b1, w1) /\
    Buffer_Read b1 p = Ret (Z.of_nat (length data), e, data, b2) /\
    Buffer_Len b2 = 0.
Proof.
  intros Hl Ho Hk Hd Hp Ha Hh. unfold Buffer_Write.
  destruct (Z.eqb_spec (Z.of_nat (length data)) 0) as [E | N].
  - assert (data = []) by (destruct data; [reflexivity | simpl in E; lia]).
    subst data. destruct p; [| discriminate].
    exists b, w, io_EOF, b. split; [reflexivity |].
    unfold Buffer_Read, Buffer_Len. rewrite Ho. simpl. split; reflexivity.
  - assert (Hs : 0 <= slen (buf b) <= scap (buf b)) by (unfold scap; lia).
    destruct (SliceAppend_bytes (arena b) (buf b) data w Ha Hh Hs Hk Hd)
      as (s' & a' & w' & -> & L & El & C).
    unfold_bind.
    assert (E0 : elems (buf b) = []) by (unfold elems; now rewrite Hl).
    rewrite E0 in El. simpl in El. rewrite Hl, Z.add_0_l in L.
    set (D := Z.of_nat (length data)) in *.
    assert (W : subslice s' 0 D = Ret data).
    { unfold subslice.
      destruct (Z.leb_spec 0 0); [| lia].
      destruct (Z.leb_spec 0 D); [| lia].
      destruct (Z.leb_spec D (scap s')); [| lia].
      simpl. unfold elems in El. now rewrite <- L, El. }
    assert (R : subslice s' D D = Ret []).
    { unfold subslice.
      destruct (Z.leb_spec 0 D); [| lia].
      destruct (Z.leb_spec D D); [| lia].
      destruct (Z.leb_spec D (scap s')); [| lia].
      simpl. f_equal. apply skipn_all2. rewrite length_firstn. lia. }
    eexists _, w', no_error, _. split; [reflexivity |].
    unfold Buffer_Read, Buffer_Len. simpl.
    destruct (Z.eqb_spec (slen s') 0); [lia |].
    rewrite L, W. unfold_bind. rewrite Hp, Nat.min_id. fold D. rewrite R.
    rewrite Nat.ltb_irrefl, firstn_all.
    rewrite <- Hp at 1. rewrite skipn_all, app_nil_r.
    simpl. rewrite Z.sub_diag. split; reflexivity.
Qed.

Lemma Write_then_Read_round_trip_witness :
  exists b1 w1 e b2,
    Buffer_Write (NewArenaBuffer (Some (MonotonicArena demo_arena))) [104; 105] demo_world
    = Ret (2, no_error, b1, w1) /\
    Buffer_Read b1 [0; 0] = Ret (2, e, [104; 105], b2) /\
    Buffer_Len b2 = 0.
Proof.
  apply (Write_then_Read_round_trip
           (NewArenaBuffer (Some (MonotonicArena demo_arena))) [104; 105] [0; 0]
           demo_world).
  - reflexivity.
  - reflexivity.
  - reflexivity.
  - reflexivity.
  - reflexivity.
  - exact demo_arena_ok.
  - exact demo_world_ok.
Defined.

(** C6 as stated fails on a buffer that already holds unread bytes: after
    [Write("a")], the calls [Write("b")] and [Read(p)] with [len(p) = 1]
    leave ["a"] in [p], not ["b"], and [Len()] is 1, not 0. *)
Lemma round_trip_fails_on_unread_bytes :
  ('(_, _, b0, w0) ← Buffer_Write (NewArenaBuffer None) [97] demo_world;
   '(_, _, b1, _) ← Buffer_Write b0 [98] w0;
   '(n, _, p, b2) ← Buffer_Read b1 [0];
   Ret (n, p, Buffer_Len b2))
  = Ret (1, [97], 1).
Proof. vm_compute. reflexivity. Qed.

(** [Read] shifts the unread bytes to the front of [buf] but leaves the
    length of [buf] alone, and [Write] sets the offset to that length: after
    [Write("ab")] and a [Read] of both bytes, [Len()] is 0, yet [Write("cd")]
    and [Read(p)] with [len(p) = 2] leave ["ab"] in [p] again, and [Len()]
    is 2. *)
Lemma Write_after_drain_revives_read_bytes :
  ('(_, _, b0, w0) ← Buffer_Write (NewArenaBuffer None) [97; 98] demo_world;
   '(_, _, _, b1) ← Buffer_Read b0 [0; 0];
   '(_, _, b2, _) ← Buffer_Write b1 [99; 100] w0;
   '(n, _, p, b3) ← Buffer_Read b2 [0; 0];
   Ret (Buffer_Len b1, n, p, Buffer_Len b3))
  = Ret (0, 2, [97; 98], 2).
Proof. vm_compute. reflexivity. Qed.

(* ===================================================================== *)
(** * The pool *)
(* ===================================================================== *)

Lemma wrap_int_id z : is_int z -> wrap_int z = z.
Proof.
  intros [L U]. pose proof half_modulus_val as HH. pose proof modulus_val as HM.
  destruct (Z_lt_ge_dec z 0) as [N | P].
  - unfold wrap_int.
    assert (W : wrap z = z + modulus).
    { unfold wrap. symmetry. apply (Z.mod_unique z modulus (-1) (z + modulus)); lia. }
    rewrite W. unfold to_int. destruct (Z.ltb_spec (z + modulus) half_modulus); lia.
  - apply wrap_int_small. lia.
Qed.

Lemma quot_is_int t c : is_int t -> 1 <= c -> is_int (Z.quot t c).
Proof.
  intros [L U] Hc. unfold is_int in *.
  destruct (Z_lt_ge_dec t 0) as [N | P].
  - assert (E : Z.quot t c = - Z.quot (- t) c) by (rewrite Z.quot_opp_l by lia; lia).
    rewrite E. rewrite Z.quot_div_nonneg by lia.
    pose proof (Z.div_pos (- t) c ltac:(lia) ltac:(lia)).
    pose proof (Z.div_le_upper_bound (- t) c (- t) ltac:(lia) ltac:(nia)). lia.
  - rewrite Z.quot_div_nonneg by lia.
    pose proof (Z.div_pos t c ltac:(lia) ltac:(lia)).
    pose proof (Z.div_le_upper_bound t c t ltac:(lia) ltac:(nia)). lia.
Qed.

(** C9. [ReleaseMany(items)] gives the pool, the statistics and the items
    (keys cleared, arenas reset) that calling [Release] on each item in
    order gives, and panics where that panics. *)
Theorem ReleaseMany_is_Release_each (items : list nat) :
  forall (p : Pool) (h : item_store),
    Pool_ReleaseMany p items h = release_each p items h.
Proof.
  induction items as [| item rest IH]; intros p h; simpl; [reflexivity |].
  unfold Pool_Release.
  destruct (h !! item) as [it |]; [| reflexivity].
  destruct (item_Arena it) as [a |]; [| reflexivity].
  unfold_bind. apply IH.
Qed.

(** C8. [Release] records the peak [pk] of the item's arena under the
    item's key: a key without statistic gets (1, pk); a statistic with a
    count below 50 gets its count incremented and [pk] added; a statistic
    with count 50 is first collapsed to count 1 and a 50th of its total, and
    then takes the sample, which gives (2, total / 50 + pk); other keys are
    left alone.  [getArenaSize] is the total divided by the count where a
    statistic exists, and 1 MiB otherwise.  Sums are taken to fit Go's
    [int]; [/] is Go's division, which truncates. *)
Theorem Release_records_peak_and_sizes
        (p : Pool) (item : nat) (h : item_store) (it : PoolItem) (a : ArenaImpl) :
  h !! item = Some it -> item_Arena it = Some a ->
  exists p' h',
    Pool_Release p item h = Ret (p', h') /\
    (sizes p !! item_Key it = None ->
     sizes p' !! item_Key it = Some (mkSize 1 (Arena_Peak a))) /\
    (forall st, sizes p !! item_Key it = Some st ->
                is_int (count st) -> count st < 50 ->
                is_int (totalBytes st + Arena_Peak a) ->
                sizes p' !! item_Key it =
                Some (mkSize (count st + 1) (totalBytes st + Arena_Peak a))) /\
    (forall st, sizes p !! item_Key it = Some st ->
                count st = 50 -> is_int (totalBytes st) ->
                is_int (Z.quot (totalBytes st) 50 + Arena_Peak a) ->
                sizes p' !! item_Key it =
                Some (mkSize 2 (Z.quot (totalBytes st) 50 + Arena_Peak a))) /\
    (forall k, k <> item_Key it -> sizes p' !! k = sizes p !! k) /\
    (forall id st, sizes p !! id = Some st -> 1 <= count st -> is_int (totalBytes st) ->
                   Pool_getArenaSize p id = Ret (Z.quot (totalBytes st) (count st))) /\
    (forall id, sizes p !! id = None -> Pool_getArenaSize p id = Ret 1048576).
Proof.
  intros Hi Ha. unfold Pool_Release. rewrite Hi, Ha.
  eexists _, _. split; [reflexivity |]. simpl.
  pose proof half_modulus_val as HH.
  repeat split.
  - intros E. rewrite E. apply lookup_insert_eq.
  - intros st E Hc Hlt Hsum. rewrite E.
    destruct (Z.eqb_spec (count st) 50); [lia |].
    rewrite lookup_insert_eq. do 2 f_equal; apply wrap_int_id;
      [unfold is_int in *; lia | exact Hsum].
  - intros st E Hc Ht Hsum. rewrite E.
    destruct (Z.eqb_spec (count st) 50); [| lia]. simpl.
    rewrite lookup_insert_eq.
    rewrite (wrap_int_id (Z.quot (totalBytes st) 50)) by (apply quot_is_int; [exact Ht | lia]).
    rewrite (wrap_int_id _ Hsum). reflexivity.
  - intros k Hk. destruct (sizes p !! item_Key it) as [st |];
      now rewrite lookup_insert_ne.
  - intros id st E Hc Ht. unfold Pool_getArenaSize. rewrite E.
    destruct (Z.eqb_spec (count st) 0); [lia |].
    now rewrite (wrap_int_id _ (quot_is_int _ _ Ht Hc)).
  - intros id E. unfold Pool_getArenaSize. now rewrite E.
Qed.

Lemma Release_records_peak_and_sizes_witness :
  exists p' h',
    Pool_Release NewArenaPool 0%nat {[ 0%nat := demo_item ]} = Ret (p', h') /\
    sizes p' !! 7 = Some (mkSize 1 0) /\
    Pool_getArenaSize NewArenaPool 7 = Ret 1048576.
Proof.
  destruct (Release_records_peak_and_sizes NewArenaPool 0%nat {[ 0%nat := demo_item ]}
              demo_item (MonotonicArena demo_arena)
              (lookup_singleton_eq 0%nat demo_item) eq_refl)
    as (p' & h' & E & N & _ & _ & _ & _ & G).
  exists p', h'. split; [exact E |]. split.
  - exact (N (lookup_empty 7)).
  - exact (G 7 (lookup_empty 7)).
Defined.

(* ===================================================================== *)
(** * More on the monotonic arena *)
(* ===================================================================== *)

Lemma kept_refl s : kept s s.
Proof. unfold kept. tauto. Qed.

Lemma Forall2_kept_refl bs : Forall2 kept bs bs.
Proof. induction bs; constructor; [apply kept_refl | assumption]. Qed.

Lemma alloc_scan_decompose bs : forall sz al w bs' w' r,
  Forall buffer_ok bs -> host_ok w -> 0 <= sz < modulus -> 0 < al ->
  alloc_scan bs sz al w = Ret (bs', w', r) ->
  match r with
  | Some p =>
      exists pre s post pre' s',
        bs = pre ++ s :: post /\ bs' = pre' ++ s' :: post /\
        Forall2 kept pre pre' /\ bumped s s' p sz al
  | None => Forall2 kept bs bs'
  end.
Proof.
  induction bs as [| s bs IH]; intros sz al w bs' w' r Hok Hh Hsz Hal; simpl.
  - intros [= <- <- <-]. constructor.
  - inversion Hok as [| ? ? Hs Hbs]; subst.
    destruct (monotonicBuffer_alloc s sz al w) as [[[s1 w1] [p |]] |] eqn:A;
      unfold_bind; try discriminate.
    + intros [= <- <- <-].
      destruct (monotonicBuffer_alloc_Some _ _ _ _ _ _ _ Hs Hh Hsz Hal A)
        as (P1 & P2 & S1 & Pk & Pp & O1 & O2 & _).
      exists [], s, bs, [], s1.
      split; [reflexivity |]. split; [reflexivity |]. split; [constructor |].
      unfold bumped. repeat split; assumption.
    + destruct (monotonicBuffer_alloc_None _ _ _ _ _ _ Hs Hh Hal A)
        as (O1 & S1 & Hs1 & P1 & Hw & _).
      assert (K : kept s s1).
      { unfold kept. repeat split; try assumption.
        intros N. rewrite monotonicBuffer_alloc_unfold in A.
        unfold materialize in A. destruct (Z.eqb_spec (ptr s) 0); [contradiction |].
        unfold_bind. destruct (alignPad _ _); [| discriminate]. cbv zeta in A.
        destruct (_ <? _); [now injection A as <- _ |].
        destruct (unsafeSlice_ok _ _); discriminate. }
      destruct (alloc_scan bs sz al w1) as [[[bs2 w2] r2] |] eqn:R; [| discriminate].
      intros [= <- <- <-].
      pose proof (IH _ _ _ _ _ _ Hbs (host_ok_ext _ _ Hw Hh) Hsz Hal R) as D.
      destruct r2 as [p |].
      * destruct D as (pre & s0 & post & pre' & s' & -> & -> & F & B).
        exists (s :: pre), s0, post, (s1 :: pre'), s'.
        split; [reflexivity |]. split; [reflexivity |].
        split; [now constructor | exact B].
      * now constructor.
Qed.

Lemma wrap_add_l x y : wrap (wrap x + y) = wrap (x + y).
Proof. unfold wrap. apply Zplus_mod_idemp_l. Qed.

Lemma wrap_fold_sum {A : Type} (f : A -> Z) (l : list A) : forall acc,
  fold_left (fun total s => wrap (total + f s)) l (wrap acc) = wrap (acc + zsum f l).
Proof.
  induction l as [| s l IH]; intros acc; simpl.
  - now rewrite Z.add_0_r.
  - rewrite wrap_add_l, IH. f_equal. lia.
Qed.

Lemma len_is_sum a : monotonicArena_len a = wrap (zsum offset (buffers a)).
Proof.
  unfold monotonicArena_len. rewrite <- wrap_0 at 1. now rewrite wrap_fold_sum.
Qed.

Lemma zsum_app {A : Type} (f : A -> Z) l1 l2 : zsum f (l1 ++ l2) = zsum f l1 + zsum f l2.
Proof. induction l1 as [| s l1 IH]; simpl; [reflexivity | rewrite IH; lia]. Qed.

Lemma zsum_offset_kept l1 l2 : Forall2 kept l1 l2 -> zsum offset l2 = zsum offset l1.
Proof.
  induction 1 as [| s0 s1 l1 l2 (O & _) _ IH]; simpl; [reflexivity |].
  rewrite O, IH. reflexivity.
Qed.

(** [Alloc], when it returns, changed one buffer: an old one, or the one it
    made and put last. *)
Lemma Alloc_decompose a sz al w p a' w' :
  arena_ok a -> host_ok w -> 0 <= sz < modulus -> 0 < al ->
  monotonicArena_Alloc a sz al w = Ret (p, a', w') ->
  exists pre s post pre' s',
    (buffers a = pre ++ s :: post \/
     (buffers a = pre /\ post = [] /\ ptr s = 0 /\ offset s = 0)) /\
    buffers a' = pre' ++ s' :: post /\
    Forall2 kept pre pre' /\ bumped s s' p sz al.
Proof.
  intros [Hbs Hmin] Hh Hsz Hal. unfold monotonicArena_Alloc.
  destruct (alloc_scan (buffers a) sz al w) as [[[bs w1] r] |] eqn:S;
    unfold_bind; [| discriminate].
  pose proof (alloc_scan_decompose _ _ _ _ _ _ _ Hbs Hh Hsz Hal S) as D.
  destruct (alloc_scan_spec _ _ _ _ _ _ _ Hbs Hh Hsz Hal S)
    as (Hw1 & _ & Hok1 & _ & _).
  pose proof (host_ok_ext _ _ Hw1 Hh) as Hh1.
  destruct r as [q |].
  - intros [= <- <- <-]. rewrite update_peak_buffers. simpl.
    destruct D as (pre & s & post & pre' & s' & E1 & E2 & F & B).
    exists pre, s, post, pre', s'.
    split; [now left |]. split; [exact E2 |]. split; [exact F | exact B].
  - set (a1 := with_buffers a bs) in *.
    destruct (if 0 <? monotonicArena_len a1
              then alignPad al (monotonicArena_len a1) else Ret 0)
      as [alignOffset |] eqn:P; [| discriminate].
    cbv zeta.
    set (nbs := if wrap (sz + alignOffset) <? minBufferSize a1
                then minBufferSize a1 else wrap (sz + alignOffset)).
    assert (Hn : 0 <= nbs < modulus).
    { unfold nbs. destruct (wrap (sz + alignOffset) <? minBufferSize a1);
        [exact Hmin | apply wrap_range]. }
    assert (Hnb : buffer_ok (newMonotonicBuffer (to_int nbs))).
    { unfold newMonotonicBuffer, to_uintptr, buffer_ok. simpl.
      rewrite wrap_to_int by assumption. repeat split; lia. }
    destruct (monotonicBuffer_alloc (newMonotonicBuffer (to_int nbs)) sz al w1)
      as [[[nb w2] [q |]] |] eqn:A; try discriminate.
    intros [= <- <- <-]. rewrite update_peak_buffers. simpl.
    destruct (monotonicBuffer_alloc_Some _ _ _ _ _ _ _ Hnb Hh1 Hsz Hal A)
      as (P1 & P2 & S1 & Pk & Pp & O1 & O2 & _).
    exists (buffers a), (newMonotonicBuffer (to_int nbs)), [], bs, nb.
    split; [right; repeat split; reflexivity |].
    split; [reflexivity |]. split; [exact D |].
    unfold bumped. repeat split; assumption.
Qed.

Lemma options_keep_min_in_range opts : forall a,
  0 <= minBufferSize a < modulus ->
  0 <= minBufferSize (fold_left apply_option opts a) < modulus.
Proof.
  induction opts as [| o opts IH]; intros a H; simpl; [exact H |].
  apply IH. destruct o; simpl; [apply wrap_range | exact H].
Qed.

Lemma NewMonotonicArena_buffers opts :
  buffers (NewMonotonicArena opts) =
  repeat (mkBuffer 0 0 (minBufferSize (NewMonotonicArena opts)))
         (Z.to_nat (initialBufferCount (NewMonotonicArena opts))) /\
  0 <= minBufferSize (NewMonotonicArena opts) < modulus.
Proof.
  unfold NewMonotonicArena. cbv zeta. simpl.
  set (a0 := mkArena [] 0 default_minBufferSize 1).
  destruct (options_keep_peak opts a0) as [_ ->].
  assert (R : 0 <= minBufferSize (fold_left apply_option opts a0) < modulus).
  { apply options_keep_min_in_range. simpl. rewrite modulus_val. unfold default_minBufferSize. lia. }
  split; [| exact R]. simpl.
  unfold newMonotonicBuffer, to_uintptr. now rewrite wrap_to_int.
Qed.

Lemma zsum_repeat {A : Type} (f : A -> Z) (x : A) n :
  zsum f (repeat x n) = Z.of_nat n * f x.
Proof. induction n as [| n IH]; simpl; [reflexivity | rewrite IH; lia]. Qed.

Lemma cap_is_sum a :
  monotonicArena_Cap a = to_int (wrap (zsum size (buffers a))).
Proof.
  unfold monotonicArena_Cap. rewrite <- wrap_0 at 1. now rewrite wrap_fold_sum.
Qed.

(** X1. A new arena: nothing in use, peak 0, as many buffers as the count
    asks for (none for a count of 0 or less), each of the minimum size and
    without a block yet; the capacity is their number times the size. *)
Theorem NewMonotonicArena_starts_empty (opts : list MonotonicArenaOption) :
  let a := NewMonotonicArena opts in
  monotonicArena_Len a = 0 /\ monotonicArena_Peak a = 0 /\
  length (buffers a) = Z.to_nat (initialBufferCount a) /\
  Forall (fun s => ptr s = 0 /\ offset s = 0 /\ size s = minBufferSize a) (buffers a) /\
  arena_ok a /\
  (Z.max 0 (initialBufferCount a) * minBufferSize a < half_modulus ->
   monotonicArena_Cap a = Z.max 0 (initialBufferCount a) * minBufferSize a).
Proof.
  intros a. destruct (NewMonotonicArena_fresh opts) as [Hp Hl].
  destruct (NewMonotonicArena_buffers opts) as [Hb Hm]. fold a in Hp, Hl, Hb, Hm.
  assert (F : Forall (fun s => ptr s = 0 /\ offset s = 0 /\ size s = minBufferSize a)
                     (buffers a)).
  { rewrite Hb. apply List.Forall_forall. intros s Hs.
    apply repeat_spec in Hs. subst s. simpl. tauto. }
  unfold monotonicArena_Len, monotonicArena_Peak. rewrite Hp, Hl.
  split; [reflexivity |]. split; [reflexivity |].
  split; [rewrite Hb; apply repeat_length |].
  split; [exact F |]. split.
  - split; [| exact Hm].
    eapply Forall_impl; [exact F |]. intros s (P & O & S).
    unfold buffer_ok. rewrite P, O, S. repeat split; lia.
  - intros Hc. rewrite cap_is_sum, Hb, zsum_repeat. cbn [size].
    assert (E : Z.of_nat (Z.to_nat (initialBufferCount a)) = Z.max 0 (initialBufferCount a))
      by lia.
    rewrite E.
    assert (0 <= Z.max 0 (initialBufferCount a) * minBufferSize a) by nia.
    rewrite wrap_small by (change modulus with (2 * half_modulus); lia).
    now apply to_int_small.
Qed.

(** X2. Whenever [Alloc] returns, the pointer is not nil and a multiple of
    the alignment, its [sz] bytes lie below the top of the address space and
    read zero, the arena has at most one buffer more, and the arena and the
    host are again as [Alloc] needs them. *)
Theorem Alloc_result_on_return (a : monotonicArena) (sz al : Z) (w : World)
        (p : Z) (a' : monotonicArena) (w' : World) :
  arena_ok a -> host_ok w -> 0 <= sz < modulus -> 0 < al ->
  monotonicArena_Alloc a sz al w = Ret (p, a', w') ->
  0 < p /\ p mod al = 0 /\ p + sz < modulus /\
  (forall x, p <= x < p + sz -> mem w' x = 0) /\
  arena_ok a' /\ host_ok w' /\
  (length (buffers a) <= length (buffers a') <= length (buffers a) + 1)%nat /\
  minBufferSize a' = minBufferSize a.
Proof.
  intros Hok Hh Hsz Hal A.
  destruct (Alloc_returns_aligned_zeroed _ _ _ _ _ _ _ Hok Hh Hsz Hal A)
    as ((G1 & G2 & G3 & G4) & Hok' & Hh').
  destruct (Alloc_decompose _ _ _ _ _ _ _ Hok Hh Hsz Hal A)
    as (pre & s & post & pre' & s' & D & E' & F & _).
  pose proof (Forall2_length _ _ _ F) as L.
  do 6 (split; [assumption |]). split.
  - destruct D as [-> | (-> & -> & _)]; rewrite E', !length_app; simpl; lia.
  - revert A. unfold monotonicArena_Alloc.
    destruct (alloc_scan _ _ _ _) as [[[bs w1] [q |]] |]; unfold_bind; try discriminate.
    + intros [= _ <- _]. now rewrite update_peak_minBufferSize.
    + destruct (if 0 <? _ then _ else _); [| discriminate]. cbv zeta.
      destruct (monotonicBuffer_alloc _ _ _ _) as [[[nb w2] [q |]] |]; try discriminate.
      intros [= _ <- _]. now rewrite update_peak_minBufferSize.
Qed.

Lemma Alloc_result_on_return_witness :
  exists p a' w',
    monotonicArena_Alloc demo_arena 100 8 demo_world = Ret (p, a', w') /\
    0 < p /\ p mod 8 = 0 /\ p + 100 < modulus /\
    (forall x, p <= x < p + 100 -> mem w' x = 0) /\
    arena_ok a' /\ host_ok w' /\
    (length (buffers demo_arena) <= length (buffers a')
     <= length (buffers demo_arena) + 1)%nat /\
    minBufferSize a' = minBufferSize demo_arena.
Proof.
  destruct (returns_by_eval (monotonicArena_Alloc demo_arena 100 8 demo_world)
              ltac:(vm_compute; reflexivity)) as [[[p a'] w'] E].
  exists p, a', w'. split; [exact E |].
  apply (Alloc_result_on_return demo_arena 100 8 demo_world p a' w'
           (proj1 demo_arena_ok) demo_world_ok).
  - rewrite modulus_val. lia.
  - lia.
  - exact E.
Defined.

(** X3. When no buffer has room, [Alloc] makes a buffer of
    [max(minBufferSize, sz + padL)] bytes, [padL] being the padding of the
    length in use.  It returns if and only if the request and the padding at
    the address [b] of the new block fit in that buffer, and otherwise
    panics with "failed to allocate on newly created buffer". *)
Theorem Alloc_new_buffer_panics_iff (a : monotonicArena) (sz al : Z) (w : World)
        (bs : list monotonicBuffer) (w1 : World) :
  arena_ok a -> arena_small a -> host_ok w ->
  0 <= sz -> 0 < al -> sz + al <= half_modulus ->
  alloc_scan (buffers a) sz al w = Ret (bs, w1, None) ->
  let L := monotonicArena_len (with_buffers a bs) in
  let padL := if 0 <? L then alignDist al L else 0 in
  let nbs := Z.max (minBufferSize a) (sz + padL) in
  let b := host w1 (makes w1) nbs in
  (returns (monotonicArena_Alloc a sz al w) <-> sz + pad al b <= nbs) /\
  (monotonicArena_Alloc a sz al w = Panic PanicNewBuffer <-> nbs < sz + pad al b).
Proof.
  intros Hok Hsm Hh Hsz Hal Hsum S L padL nbs b.
  pose proof (Alloc_new_buffer_outcome a sz al w bs w1 Hok Hsm Hh Hsz Hal Hsum S) as O.
  cbv zeta in O. fold L padL nbs b in O.
  destruct (Z.leb_spec (sz + pad al b) nbs) as [Fit | NoFit].
  - split; split; intros H; try assumption; try lia.
    destruct O as [x O]. rewrite O in H. discriminate.
  - split; split; intros H; try assumption; try lia.
    destruct H as [x H]. rewrite O in H. discriminate.
Qed.

Lemma Alloc_new_buffer_panics_iff_witness :
  (returns (monotonicArena_Alloc
              (NewMonotonicArena [WithInitialBufferCount 0; WithMinBufferSize 0])
              1 8 odd_world)
   <-> 1 + pad 8 (host odd_world (makes odd_world) 1) <= 1) /\
  (monotonicArena_Alloc
     (NewMonotonicArena [WithInitialBufferCount 0; WithMinBufferSize 0]) 1 8 odd_world
   = Panic PanicNewBuffer
   <-> 1 < 1 + pad 8 (host odd_world (makes odd_world) 1)).
Proof.
  apply (Alloc_new_buffer_panics_iff
           (NewMonotonicArena [WithInitialBufferCount 0; WithMinBufferSize 0])
           1 8 odd_world [] odd_world).
  - split; [constructor | vm_compute; split; [discriminate | reflexivity]].
  - split; [constructor | reflexivity].
  - exact odd_world_ok.
  - lia.
  - lia.
  - rewrite half_modulus_val. lia.
  - reflexivity.
Defined.

(** X6. When [Alloc] returns, the length in use has grown by the size of
    the request and a padding smaller than the alignment (modulo [2^64], as
    the length is a [uintptr]). *)
Theorem Alloc_len_grows_by_size_and_pad (a : monotonicArena) (sz al : Z) (w : World)
        (p : Z) (a' : monotonicArena) (w' : World) :
  arena_ok a -> host_ok w -> 0 <= sz < modulus -> 0 < al ->
  monotonicArena_Alloc a sz al w = Ret (p, a', w') ->
  exists pd, 0 <= pd < al /\
             monotonicArena_len a' = wrap (monotonicArena_len a + sz + pd).
Proof.
  intros Hok Hh Hsz Hal A.
  destruct (Alloc_decompose _ _ _ _ _ _ _ Hok Hh Hsz Hal A)
    as (pre & s & post & pre' & s' & D & E' & F & (_ & _ & _ & _ & O & _)).
  exists (pad al (ptr s' + offset s)). split; [apply pad_range; exact Hal |].
  rewrite !len_is_sum, <- Z.add_assoc, wrap_add_l, E', zsum_app. simpl.
  rewrite (zsum_offset_kept _ _ F), O. f_equal.
  destruct D as [-> | (-> & -> & _ & Z0)].
  - rewrite zsum_app. simpl. lia.
  - rewrite Z0. simpl. lia.
Qed.

Lemma Alloc_len_grows_by_size_and_pad_witness :
  exists p a' w' pd,
    monotonicArena_Alloc demo_arena 100 8 demo_world = Ret (p, a', w') /\
    0 <= pd < 8 /\
    monotonicArena_len a' = wrap (monotonicArena_len demo_arena + 100 + pd).
Proof.
  destruct (returns_by_eval (monotonicArena_Alloc demo_arena 100 8 demo_world)
              ltac:(vm_compute; reflexivity)) as [[[p a'] w'] E].
  assert (R : 0 <= 100 < modulus) by (rewrite modulus_val; lia).
  destruct (Alloc_len_grows_by_size_and_pad demo_arena 100 8 demo_world p a' w'
              (proj1 demo_arena_ok) demo_world_ok R ltac:(lia) E) as (pd & Hpd & HL).
  exists p, a', w', pd. split; [exact E |]. split; assumption.
Defined.



Lemma monotonicBuffer_alloc_makes s sz al w s' w' r :
  monotonicBuffer_alloc s sz al w = Ret (s', w', r) ->
  makes w' = (if ptr s =? 0 then S (makes w) else makes w) /\
  (ptr s = 0 -> size s < half_modulus).
Proof.
  rewrite monotonicBuffer_alloc_unfold. unfold materialize, hostMake, hostBlock.
  destruct (Z.eqb_spec (ptr s) 0) as [E | N];
    [destruct (Z.leb_spec half_modulus (size s)) |];
    unfold_bind; try discriminate;
    (destruct (alignPad _ _); [| discriminate]); cbv zeta;
    (destruct (_ <? _); [intros [= <- <- <-]; simpl; split; [reflexivity | intros; lia] |]);
    (destruct (unsafeSlice_ok _ _); [| discriminate]);
    intros [= <- <- <-]; simpl; split; try reflexivity; intros; lia.
Qed.


Lemma Reset_keeps_ok a : arena_ok a -> arena_ok (monotonicArena_Reset a).
Proof.
  intros [Hb Hm]. split; [| exact Hm]. simpl.
  apply List.Forall_forall. intros s Hs. apply in_map_iff in Hs.
  destruct Hs as (s0 & <- & Hin).
  rewrite List.Forall_forall in Hb. destruct (Hb s0 Hin) as (O & S & P & B).
  unfold buffer_ok. rewrite reset_offset, reset_size, reset_ptr.
  repeat split; try assumption; lia.
Qed.




(** X9. [Reset] keeps the blocks: when the first buffer has its block and
    the request with its padding fits the buffer, [Alloc] after [Reset]
    returns the first aligned address of that block, zeroed again, and takes
    nothing from the host. *)
Theorem Alloc_after_Reset_reuses_first_block
        (a : monotonicArena) (s : monotonicBuffer) (rest : list monotonicBuffer)
        (sz al : Z) (w : World) :
  buffers a = s :: rest -> buffer_ok s -> ptr s <> 0 ->
  0 <= sz < half_modulus -> 0 < al ->
  sz + pad al (ptr s) <= size s ->
  exists a' w',
    monotonicArena_Alloc (monotonicArena_Reset a) sz al w
    = Ret (ptr s + pad al (ptr s), a', w') /\
    makes w' = makes w /\
    (forall x, ptr s + pad al (ptr s) <= x < ptr s + pad al (ptr s) + sz ->
               mem w' x = 0) /\
    (forall x, x < ptr s + pad al (ptr s) \/ ptr s + pad al (ptr s) + sz <= x ->
               mem w' x = mem w x) /\
    map ptr (buffers a') = map ptr (buffers a).
Proof.
  intros B (Hoff & Hs & Hp & Hblk) Hn Hsz Hal Hfit.
  specialize (Hblk Hn).
  pose proof (pad_range al (ptr s) Hal) as Hpad.
  assert (HM : modulus = 2 * half_modulus) by reflexivity.
  unfold monotonicArena_Alloc, monotonicArena_Reset. simpl. rewrite B. simpl.
  rewrite monotonicBuffer_alloc_unfold. unfold materialize.
  rewrite reset_ptr, reset_offset, reset_size.
  destruct (Z.eqb_spec (ptr s) 0); [contradiction |]. unfold_bind.
  rewrite reset_ptr, reset_offset, reset_size, Z.add_0_r.
  rewrite (wrap_small (ptr s)) by lia.
  rewrite (alignPad_ret al (ptr s) Hal) by lia.
  assert (D : alignDist al (ptr s) = pad al (ptr s)) by (unfold alignDist; lia).
  rewrite D. cbv zeta.
  unfold availableBytes. rewrite reset_offset, reset_size, Z.sub_0_r.
  rewrite (wrap_small (size s)) by lia.
  rewrite (wrap_small (sz + pad al (ptr s))) by lia.
  destruct (Z.ltb_spec (size s) (sz + pad al (ptr s))); [lia |].
  rewrite (wrap_small (ptr s + pad al (ptr s))) by lia.
  unfold unsafeSlice_ok.
  destruct (wrap_neg (ptr s + pad al (ptr s))) as [[? ?] | [_ ->]]; [lia | lia |].
  destruct (Z.ltb_spec sz half_modulus); [| lia].
  destruct (Z.leb_spec sz (modulus - (ptr s + pad al (ptr s)))); [| lia].
  simpl. eexists _, _. split; [reflexivity |]. simpl.
  split; [reflexivity |].
  split; [intros x Hx; apply memclr_inside; lia |].
  split; [intros x Hx; apply memclr_outside; lia |].
  rewrite update_peak_buffers. simpl. f_equal.
  rewrite map_map. apply map_ext. exact reset_ptr.
Qed.

Lemma Alloc_after_Reset_reuses_first_block_witness :
  exists a' w',
    monotonicArena_Alloc
      (monotonicArena_Reset (mkArena [mkBuffer 0xc000010000 700 1024] 700 1024 1))
      100 8 demo_world
    = Ret (0xc000010000 + pad 8 0xc000010000, a', w') /\
    makes w' = makes demo_world.
Proof.
  destruct (Alloc_after_Reset_reuses_first_block
              (mkArena [mkBuffer 0xc000010000 700 1024] 700 1024 1)
              (mkBuffer 0xc000010000 700 1024) [] 100 8 demo_world)
    as (a' & w' & E & M & _).
  - reflexivity.
  - vm_compute. intuition discriminate.
  - discriminate.
  - rewrite half_modulus_val. lia.
  - lia.
  - vm_compute. discriminate.
  - exists a', w'. split; [exact E | exact M].
Defined.

(** X8. The length never exceeds the capacity: on an arena whose buffers
    are as [Alloc] keeps them and whose sizes add up to less than [2^63],
    [0 <= Len() <= Cap()]. *)
Theorem Len_at_most_Cap (a : monotonicArena) :
  arena_ok a -> zsum size (buffers a) < half_modulus ->
  0 <= monotonicArena_Len a <= monotonicArena_Cap a.
Proof.
  intros [Hb _] Hc.
  assert (S : 0 <= zsum offset (buffers a) <= zsum size (buffers a)).
  { clear Hc. induction Hb as [| s bs (O & _) _ IH]; simpl; lia. }
  assert (HM : modulus = 2 * half_modulus) by reflexivity.
  unfold monotonicArena_Len. rewrite len_is_sum, cap_is_sum.
  rewrite !wrap_small by lia. rewrite !to_int_small by lia. lia.
Qed.

Lemma Len_at_most_Cap_witness :
  0 <= monotonicArena_Len demo_arena <= monotonicArena_Cap demo_arena.
Proof.
  apply (Len_at_most_Cap demo_arena (proj1 demo_arena_ok)). reflexivity.
Defined.

Lemma monotonicBuffer_alloc_size s sz al w s' w' r :
  monotonicBuffer_alloc s sz al w = Ret (s', w', r) -> size s' = size s.
Proof.
  rewrite monotonicBuffer_alloc_unfold. unfold materialize, hostMake, hostBlock.
  destruct (ptr s =? 0); [destruct (half_modulus <=? size s) |];
    unfold_bind; try discriminate;
    (destruct (alignPad _ _); [| discriminate]); cbv zeta;
    (destruct (_ <? _); [intros [= <- <- <-]; reflexivity |]);
    (destruct (unsafeSlice_ok _ _); [| discriminate]);
    intros [= <- <- <-]; reflexivity.
Qed.

Lemma alloc_scan_sizes bs : forall sz al w bs' w' r,
  alloc_scan bs sz al w = Ret (bs', w', r) -> map size bs' = map size bs.
Proof.
  induction bs as [| s bs IH]; intros sz al w bs' w' r; simpl.
  - now intros [= <- <- <-].
  - destruct (monotonicBuffer_alloc s sz al w) as [[[s1 w1] [p |]] |] eqn:A;
      unfold_bind; try discriminate.
    + intros [= <- <- <-]. simpl.
      now rewrite (monotonicBuffer_alloc_size _ _ _ _ _ _ _ A).
    + destruct (alloc_scan bs sz al w1) as [[[bs2 w2] r2] |] eqn:R; [| discriminate].
      intros [= <- <- <-]. simpl.
      now rewrite (monotonicBuffer_alloc_size _ _ _ _ _ _ _ A), (IH _ _ _ _ _ _ R).
Qed.

Lemma Forall_small_map bs bs' :
  map size bs' = map size bs ->
  Forall (fun s => size s < half_modulus) bs ->
  Forall (fun s => size s < half_modulus) bs'.
Proof.
  revert bs'. induction bs as [| s bs IH]; intros [| s' bs'] E F;
    try discriminate; constructor; inversion F; subst; injection E as E1 E2.
  - congruence.
  - now apply IH.
Qed.

(** Sizes that [make] accepts stay so: a buffer that [Alloc] adds has got
    its block from [make]. *)
Lemma Alloc_keeps_small a sz al w p a' w' :
  arena_small a ->
  monotonicArena_Alloc a sz al w = Ret (p, a', w') -> arena_small a'.
Proof.
  intros [Hs Hm]. unfold monotonicArena_Alloc.
  destruct (alloc_scan (buffers a) sz al w) as [[[bs w1] [q |]] |] eqn:S;
    unfold_bind; try discriminate.
  - intros [= _ <- _]. split; rewrite ?update_peak_buffers, ?update_peak_minBufferSize.
    + exact (Forall_small_map _ _ (alloc_scan_sizes _ _ _ _ _ _ _ S) Hs).
    + exact Hm.
  - destruct (if 0 <? _ then _ else _); [| discriminate]. cbv zeta.
    destruct (monotonicBuffer_alloc _ sz al w1) as [[[nb w2] [q |]] |] eqn:N;
      try discriminate.
    intros [= _ <- _]. split; rewrite ?update_peak_buffers, ?update_peak_minBufferSize.
    + simpl. apply Forall_app. split.
      * exact (Forall_small_map _ _ (alloc_scan_sizes _ _ _ _ _ _ _ S) Hs).
      * constructor; [| constructor].
        rewrite (monotonicBuffer_alloc_size _ _ _ _ _ _ _ N).
        exact (proj2 (monotonicBuffer_alloc_makes _ _ _ _ _ _ _ N) eq_refl).
    + exact Hm.
Qed.

Lemma Arena_Alloc_keeps_small a : forall sz al w p a' w',
  impl_small a -> Arena_Alloc a sz al w = Ret (p, a', w') -> impl_small a'.
Proof.
  induction a as [m | | i IH] using ArenaImpl_induction;
    intros sz al w p a' w' Hsm; simpl.
  - destruct (monotonicArena_Alloc m sz al w) as [[[q m'] w1] |] eqn:A;
      unfold_bind; [| discriminate].
    intros [= <- <- <-]. exact (Alloc_keeps_small _ _ _ _ _ _ _ Hsm A).
  - now intros [= <- <- <-].
  - destruct (Arena_Alloc i sz al w) as [[[q i'] w1] |] eqn:A;
      unfold_bind; [| discriminate].
    intros [= <- <- <-]. exact (IH _ _ _ _ _ _ Hsm A).
Qed.

(** X4. A request with alignment 1 needs no padding: [Alloc] always
    returns, the length in use grows by exactly the size, and the arena and
    the host stay as the next such call needs them. *)
Theorem Alloc_alignment_1_always_returns (a : monotonicArena) (sz : Z) (w : World) :
  arena_ok a -> arena_small a -> host_ok w -> 0 <= sz < half_modulus ->
  exists p a' w',
    monotonicArena_Alloc a sz 1 w = Ret (p, a', w') /\
    0 < p /\ (forall x, p <= x < p + sz -> mem w' x = 0) /\
    monotonicArena_len a' = wrap (monotonicArena_len a + sz) /\
    arena_ok a' /\ arena_small a' /\ host_ok w'.
Proof.
  intros Hok Hsm Hh Hsz.
  destruct (Alloc_align1_returns a sz w Hok Hsm Hh Hsz) as [[[p a'] w'] A].
  assert (Hsz' : 0 <= sz < modulus) by (change modulus with (2 * half_modulus); lia).
  assert (Hal : 0 < 1) by lia.
  destruct (Alloc_returns_aligned_zeroed _ _ _ _ _ _ _ Hok Hh Hsz' Hal A)
    as ((G1 & _ & _ & G4) & Hok' & Hh').
  exists p, a', w'. split; [exact A |].
  split; [exact G1 |]. split; [exact G4 |].
  split; [| split; [exact Hok' | split; [exact (Alloc_keeps_small _ _ _ _ _ _ _ Hsm A) | exact Hh']]].
  destruct (Alloc_decompose _ _ _ _ _ _ _ Hok Hh Hsz' Hal A)
    as (pre & s & post & pre' & s' & D & E' & F & (_ & _ & _ & _ & O & _)).
  assert (P0 : pad 1 (ptr s' + offset s) = 0) by (unfold pad; now rewrite !Z.mod_1_r).
  rewrite !len_is_sum, wrap_add_l, E', zsum_app. simpl.
  rewrite (zsum_offset_kept _ _ F), O, P0. f_equal.
  destruct D as [-> | (-> & -> & _ & Z0)].
  - rewrite zsum_app. simpl. lia.
  - rewrite Z0. simpl. lia.
Qed.

Lemma Alloc_alignment_1_always_returns_witness :
  exists p a' w',
    monotonicArena_Alloc demo_arena 2000 1 demo_world = Ret (p, a', w') /\
    0 < p /\ (forall x, p <= x < p + 2000 -> mem w' x = 0) /\
    monotonicArena_len a' = wrap (monotonicArena_len demo_arena + 2000) /\
    arena_ok a' /\ arena_small a' /\ host_ok w'.
Proof.
  apply (Alloc_alignment_1_always_returns demo_arena 2000 demo_world
           (proj1 demo_arena_ok) (proj2 demo_arena_ok) demo_world_ok).
  rewrite half_modulus_val. lia.
Defined.

(* ===================================================================== *)
(** * More on the typed helpers *)
(* ===================================================================== *)

Lemma spec_grow_at_most_doubles fuel : forall need cap,
  1 <= cap -> cap < need -> (Z.to_nat (need - cap) <= fuel)%nat ->
  need <= spec_grow fuel need cap < 2 * need.
Proof.
  induction fuel as [| f IH]; intros need cap Hc Hn Hf; [lia |].
  simpl. destruct (Z.ltb_spec cap need); [| lia].
  set (cap' := if cap <? 256 then 2 * cap else cap + cap / 4).
  assert (Hc' : cap < cap' <= 2 * cap).
  { unfold cap'. destruct (Z.ltb_spec cap 256); [lia |].
    pose proof (Z.div_le_lower_bound cap 4 64 ltac:(lia) ltac:(lia)).
    pose proof (Z.div_le_upper_bound cap 4 cap ltac:(lia) ltac:(lia)). lia. }
  destruct (Z_lt_ge_dec cap' need) as [L | G].
  - apply IH; lia.
  - destruct f; simpl; [lia |]. destruct (Z.ltb_spec cap' need); lia.
Qed.

Section MoreSliceFacts.
Context {T : Type} `{GT : GoType T}.

(** Cells that read zero hold the zero value. *)
Lemma view_zero (w : World) (p : Z) (n : nat) :
  0 <= sizeofT ->
  (forall x, p <= x < p + sizeofT * Z.of_nat n -> mem w x = 0) ->
  view (T:=T) w p n = repeat zeroT n.
Proof.
  intros Hs Hz. unfold view. apply map_seq_const. intros i Hi.
  unfold loadT, zeroT. f_equal. apply map_seq_const. intros j Hj.
  apply Hz. nia.
Qed.

(** X10. [AllocateSlice] on an arena whose [Alloc] returns, and on the nil
    arena: the slice has the length and the capacity asked for, its storage
    is not nil, and every cell up to the capacity holds the zero value. *)
Theorem AllocateSlice_gives_zeroed_slice (a : Arena) (len cap : Z) (w : World) :
  host_ok w -> 0 <= sizeofT < half_modulus -> 0 < alignofT ->
  0 <= len <= cap -> sizeofT * cap < half_modulus ->
  match a with
  | None => True
  | Some impl => impl_ok impl /\
                 returns (Arena_Alloc impl (sizeofT * cap) alignofT w)
  end ->
  exists s a' w',
    AllocateSlice a len cap w = Ret (s, a', w') /\
    slen s = len /\ scap s = cap /\ sdata s <> 0 /\
    sarr s = repeat zeroT (Z.to_nat cap) /\
    elems s = repeat zeroT (Z.to_nat len).
Proof.
  intros Hh Hs Hal Hlen Hcap Ha.
  assert (HM : modulus = 2 * half_modulus) by reflexivity.
  assert (Hc : 0 <= sizeofT * cap) by nia.
  assert (Make : forall (w0 : World) (a0 : Arena), host_ok w0 ->
            exists (s : slice T) a' w',
              ('(s, w'') ← go_make len cap w0; Ret (s, a0, w''))
              = Ret (s, a', w') /\
              slen s = len /\ scap s = cap /\ sdata s <> 0 /\
              sarr s = repeat zeroT (Z.to_nat cap) /\
              elems s = repeat zeroT (Z.to_nat len)).
  { intros w0 a0 Hh0. unfold go_make.
    destruct (Z.ltb_spec len 0); [lia |].
    destruct (Z.ltb_spec cap len); [lia |].
    destruct (Z.leb_spec half_modulus (sizeofT * cap)); [lia |].
    simpl. unfold_bind. simpl.
    destruct (Hh0 (makes w0) (sizeofT * cap)) as [Hq _]; [lia |].
    eexists _, _, _. split; [reflexivity |]. unfold scap, elems. simpl.
    rewrite repeat_length. repeat split; try lia.
    apply firstn_repeat_le. lia. }
  destruct a as [impl |]; [| exact (Make w None Hh)].
  destruct Ha as [Hok [[[p impl'] w'] A]].
  unfold AllocateSlice.
  rewrite (to_int_small sizeofT) by lia.
  rewrite wrap_int_small by lia.
  unfold to_uintptr. rewrite wrap_small by lia.
  rewrite A. unfold_bind.
  assert (Hsz : 0 <= sizeofT * cap < modulus) by lia.
  destruct (Arena_Alloc_sound _ _ _ _ _ _ _ Hok Hh Hsz Hal A)
    as ([-> | (G1 & G2 & _ & G4)] & _ & Hh').
  - simpl. exact (Make w' (Some impl') Hh').
  - destruct (Z.eqb_spec p 0); [lia |].
    unfold unsafeSliceT_ok.
    destruct (wrap_neg p) as [[? ?] | [_ ->]]; [lia | lia |].
    destruct (Z.leb_spec 0 cap); [| lia].
    destruct (Z.ltb_spec (sizeofT * cap) modulus); [| lia].
    destruct (Z.leb_spec (sizeofT * cap) (modulus - p)); [| lia].
    destruct (Z.leb_spec 0 len); [| lia].
    destruct (Z.leb_spec len cap); [| lia].
    simpl. eexists _, _, _. split; [reflexivity |].
    assert (V : view (T:=T) w' p (Z.to_nat cap) = repeat zeroT (Z.to_nat cap)).
    { apply view_zero; [lia |]. intros x Hx. apply G4.
      rewrite Z2Nat.id in Hx by lia. exact Hx. }
    unfold scap, elems. simpl. rewrite V, repeat_length.
    repeat split; try lia.
    apply firstn_repeat_le. lia.
Qed.

(** X11. [Allocate] on an arena whose [Alloc] returns, and on the nil
    arena: the pointer is not nil and the value it points to is the zero
    value of [T]. *)
Theorem Allocate_gives_zero_value (a : Arena) (w : World) :
  host_ok w -> 0 <= sizeofT < half_modulus -> 0 < alignofT ->
  match a with
  | None => True
  | Some impl => impl_ok impl /\ returns (Arena_Alloc impl sizeofT alignofT w)
  end ->
  exists q a' w',
    Allocate a w = Ret (q, a', w') /\ q <> 0 /\ loadT w' q = zeroT.
Proof.
  intros Hh Hs Hal Ha.
  assert (HM : modulus = 2 * half_modulus) by reflexivity.
  assert (New : forall (w0 : World) (a0 : Arena), host_ok w0 ->
            exists q a' w',
              (let '(q, w'') := go_new w0 in Ret (q, a0, w'') : result (Z * Arena * World))
              = Ret (q, a', w') /\ q <> 0 /\ loadT w' q = zeroT).
  { intros w0 a0 Hh0. unfold go_new.
    pose proof (loadT_hostBlock w0 (proj1 Hs)) as Z0.
    destruct (hostBlock w0 sizeofT) as [q w''] eqn:B.
    exists q, a0, w''. split; [reflexivity |]. split; [| exact Z0].
    unfold hostBlock in B. injection B as <- _.
    destruct (Hh0 (makes w0) sizeofT) as [Hq _]; lia. }
  destruct a as [impl |]; [| exact (New w None Hh)].
  destruct Ha as [Hok [[[p impl'] w'] A]].
  unfold Allocate. rewrite A. unfold_bind.
  assert (Hsz : 0 <= sizeofT < modulus) by lia.
  destruct (Arena_Alloc_sound _ _ _ _ _ _ _ Hok Hh Hsz Hal A)
    as ([-> | (G1 & G2 & _ & G4)] & _ & Hh').
  - simpl. exact (New w' (Some impl') Hh').
  - destruct (Z.eqb_spec p 0); [lia |].
    exists p, (Some impl'), w'. split; [reflexivity |]. split; [lia |].
    unfold loadT, zeroT. f_equal. apply map_seq_const. intros i Hi.
    apply G4. lia.
Qed.
End MoreSliceFacts.

Lemma AllocateSlice_gives_zeroed_slice_witness :
  exists s a' w',
    @AllocateSlice Z _ (Some (MonotonicArena demo_arena)) 2 4 demo_world
    = Ret (s, a', w') /\
    slen s = 2 /\ scap s = 4 /\ sdata s <> 0 /\
    sarr s = repeat 0 4 /\ elems s = repeat 0 2.
Proof.
  apply (@AllocateSlice_gives_zeroed_slice Z byte_GoType
           (Some (MonotonicArena demo_arena)) 2 4 demo_world demo_world_ok).
  - vm_compute. split; [discriminate | reflexivity].
  - reflexivity.
  - lia.
  - reflexivity.
  - split; [exact (proj1 demo_arena_ok) |].
    apply returns_by_eval. vm_compute. reflexivity.
Defined.

Lemma Allocate_gives_zero_value_witness :
  exists q a' w',
    @Allocate Z _ (Some (MonotonicArena demo_arena)) demo_world = Ret (q, a', w') /\
    q <> 0 /\ @loadT Z _ w' q = 0.
Proof.
  apply (@Allocate_gives_zero_value Z byte_GoType
           (Some (MonotonicArena demo_arena)) demo_world demo_world_ok).
  - vm_compute. split; [discriminate | reflexivity].
  - reflexivity.
  - split; [exact (proj1 demo_arena_ok) |].
    apply returns_by_eval. vm_compute. reflexivity.
Defined.

Lemma spec_newCap_facts N K D :
  0 <= N <= K -> K < cap_bound -> 0 <= D < cap_bound ->
  K <= spec_newCap N K D /\
  (N + D <= K -> spec_newCap N K D = K) /\
  (0 < K < N + D -> spec_newCap N K D < 2 * (N + D)) /\
  (K = 0 -> spec_newCap N K D = D).
Proof.
  intros HN HK HD. unfold spec_newCap.
  assert (HB : cap_bound = 2305843009213693952) by reflexivity.
  pose proof half_modulus_val as HH.
  destruct (Z.eqb_spec K 0) as [E | NE].
  - repeat split; lia.
  - assert (R1 : 1 <= K < half_modulus) by lia.
    assert (R2 : N + D < 2 * cap_bound) by lia.
    assert (R3 : (Z.to_nat (N + D - K) <= Z.to_nat (N + D))%nat) by lia.
    destruct (growCap_refines (Z.to_nat (N + D)) (N + D) K R1 R2 R3)
      as (_ & _ & I3 & I4 & _).
    repeat split; try assumption; try lia.
    intros HK2.
    assert (Q1 : 1 <= K) by lia.
    exact (proj2 (spec_grow_at_most_doubles (Z.to_nat (N + D)) (N + D) K Q1
                    (proj2 HK2) R3)).
Qed.

Section CapacityFacts.
Context {T : Type} `{GT : GoType T}.

(** X12. The capacity after [SliceAppend] on an arena that is not nil is
    never below the capacity before nor below the new length; it is the old
    capacity, on the old storage, when the new length fits it; it stays
    below twice the new length when a slice of capacity above 0 has to grow;
    and it is the number of new elements when the capacity was 0. *)
Theorem SliceAppend_capacity_bounds
        (impl : ArenaImpl) (s : slice T) (data : list T) (w : World) :
  let N := slen s in
  let K := scap s in
  let D := Z.of_nat (length data) in
  0 <= N <= K -> K < cap_bound -> D < cap_bound ->
  0 <= sizeofT < half_modulus -> 0 < alignofT ->
  sizeofT * spec_newCap N K D < half_modulus ->
  impl_ok impl -> host_ok w ->
  (spec_newCap N K D <> K ->
   returns (Arena_Alloc impl (sizeofT * spec_newCap N K D) alignofT w)) ->
  exists s' a' w',
    SliceAppend (Some impl) s data w = Ret (s', a', w') /\
    K <= scap s' /\ slen s' <= scap s' /\
    (N + D <= K -> scap s' = K /\ sdata s' = sdata s) /\
    (0 < K < N + D -> scap s' < 2 * (N + D)) /\
    (K = 0 -> scap s' = D).
Proof.
  intros N K D HN HK HD Hs Hal HC Hok Hh Hret.
  assert (HD0 : 0 <= D < cap_bound) by (unfold D in *; lia).
  destruct (spec_newCap_facts N K D HN HK HD0) as (F1 & F2 & F3 & F4).
  destruct (growSlice_spec impl s D w HN HK HD0 Hs Hal HC Hok Hh Hret)
    as (s1 & a1 & w1 & G & L1 & E1 & C1 & Fit & Same).
  fold N K in L1, C1, Fit, Same.
  unfold SliceAppend. fold D. rewrite G. unfold_bind.
  assert (F0 : 0 <= slen s1) by lia.
  assert (Fi : slen s1 + Z.of_nat (length data) <= scap s1) by (fold D; lia).
  destruct (go_append_in_place s1 data w1 F0 Fi)
    as (s' & -> & B1 & B2 & B3 & _).
  exists s', a1, w1. split; [reflexivity |]. fold D in B3.
  split; [lia |]. split; [lia |]. split; [| split; [intros; lia | intros; lia]].
  intros Hfit. split; [rewrite B2, C1; exact (F2 Hfit) |].
  destruct (Same (F2 Hfit)) as (-> & _). exact B1.
Qed.
End CapacityFacts.

Lemma SliceAppend_capacity_bounds_witness :
  exists s' a' w',
    @SliceAppend Z _ (Some (MonotonicArena demo_arena)) (mkSlice 0x500 [1; 2; 3] 3)
                 [4; 5] demo_world = Ret (s', a', w') /\
    3 <= scap s' /\ slen s' <= scap s' /\
    (3 + 2 <= 3 -> scap s' = 3 /\ sdata s' = 0x500) /\
    (0 < 3 < 3 + 2 -> scap s' < 2 * (3 + 2)) /\
    (3 = 0 -> scap s' = 2).
Proof.
  apply (@SliceAppend_capacity_bounds Z byte_GoType
           (MonotonicArena demo_arena) (mkSlice 0x500 [1; 2; 3] 3) [4; 5] demo_world).
  - vm_compute. split; discriminate.
  - reflexivity.
  - reflexivity.
  - vm_compute. split; [discriminate | reflexivity].
  - reflexivity.
  - reflexivity.
  - exact (proj1 demo_arena_ok).
  - exact demo_world_ok.
  - intros _. apply returns_by_eval. vm_compute. reflexivity.
Defined.

(* ===================================================================== *)
(** * More on the byte buffer *)
(* ===================================================================== *)

Section ShapeFacts.
Context {T : Type} `{GT : GoType T}.

Lemma AllocateSlice_shape (a : Arena) (len cap : Z) (w : World) s a' w' :
  AllocateSlice a len cap w = Ret (s, a', w') ->
  slen s = len /\ scap s = cap /\ 0 <= len <= cap.
Proof.
  assert (Make : forall (w0 : World) (a0 : Arena),
            ('(s, w'') ← go_make len cap w0; Ret (s, a0, w'')) = Ret (s, a', w') ->
            slen s = len /\ scap s = cap /\ 0 <= len <= cap).
  { intros w0 a0. unfold go_make.
    destruct (Z.ltb_spec len 0); [discriminate |].
    destruct (Z.ltb_spec cap len); [discriminate |].
    destruct (_ <=? _); [discriminate |]. simpl. unfold_bind.
    intros [= <- _ _]. unfold scap. simpl. rewrite repeat_length. lia. }
  unfold AllocateSlice. destruct a as [impl |]; [| apply Make].
  destruct (Arena_Alloc _ _ _ _) as [[[p impl'] w1] |]; unfold_bind; [| discriminate].
  destruct (p =? 0); [apply Make |].
  unfold unsafeSliceT_ok.
  destruct (Z.leb_spec 0 cap); [| discriminate].
  destruct (_ <? _); [| discriminate]. destruct (_ <=? _); [| discriminate].
  destruct (Z.leb_spec 0 len); [| discriminate].
  destruct (Z.leb_spec len cap); [| discriminate]. simpl.
  intros [= <- _ _]. unfold scap. simpl. rewrite view_length. lia.
Qed.

Lemma go_copy_shape (dst : slice T) (src : list T) :
  0 <= slen dst <= scap dst ->
  slen (go_copy dst src) = slen dst /\ scap (go_copy dst src) = scap dst /\
  sdata (go_copy dst src) = sdata dst.
Proof.
  intros H. unfold go_copy, scap in *. simpl. repeat split.
  rewrite length_app, length_firstn, length_skipn. lia.
Qed.

Lemma go_copy_head (dst : slice T) (src : list T) :
  (length src <= Z.to_nat (slen dst))%nat ->
  sarr (go_copy dst src) = src ++ skipn (length src) (sarr dst).
Proof.
  intros H. unfold go_copy. simpl. rewrite Nat.min_r by exact H.
  now rewrite firstn_all.
Qed.

(** Whatever the arena, a slice that [SliceAppend] returns holds the old
    elements followed by the new ones, within its capacity. *)
Lemma SliceAppend_shape (a : Arena) (s : slice T) (data : list T) (w : World) s' a' w' :
  0 <= slen s <= scap s ->
  SliceAppend a s data w = Ret (s', a', w') ->
  slen s' = slen s + Z.of_nat (length data) /\
  slen s' <= scap s' /\ elems s' = elems s ++ data.
Proof.
  intros Hs. unfold SliceAppend.
  assert (App : forall (s1 : slice T) (w1 : World),
            0 <= slen s1 <= scap s1 -> slen s1 = slen s -> elems s1 = elems s ->
            forall a1, (let '(s2, w2) := go_append s1 data w1 in
                        Ret (s2, a1, w2) : result (slice T * Arena * World))
                       = Ret (s', a', w') ->
            slen s' = slen s + Z.of_nat (length data) /\
            slen s' <= scap s' /\ elems s' = elems s ++ data).
  { intros s1 w1 H1 L1 E1 a1.
    destruct (go_append_spec s1 data w1 H1) as (L & El & C & _).
    destruct (go_append s1 data w1) as [s2 w2]. simpl in *.
    intros [= <- _ _]. rewrite <- L1, <- E1. repeat split; assumption. }
  destruct a as [impl |]; [| exact (App s w Hs eq_refl eq_refl None)].
  unfold growSlice.
  destruct (if 0 <? scap s then _ else _) as [newCap |]; unfold_bind; [| discriminate].
  destruct (newCap =? scap s); [exact (App s w Hs eq_refl eq_refl (Some impl)) |].
  destruct (AllocateSlice (Some impl) (slen s) newCap w) as [[[s2 a2] w2] |] eqn:A;
    [| discriminate].
  destruct (AllocateSlice_shape _ _ _ _ _ _ _ A) as (L2 & C2 & R2).
  assert (H2 : 0 <= slen s2 <= scap s2) by lia.
  destruct (go_copy_shape s2 (elems s) H2) as (L3 & C3 & _).
  assert (EL : length (elems s) = Z.to_nat (slen s)) by (apply elems_length; exact Hs).
  apply App; try lia.
  unfold elems at 1. rewrite L3, L2, go_copy_head by lia.
  rewrite <- EL. apply take_app_length.
Qed.
End ShapeFacts.

Lemma subslice_ret {T : Type} (s : slice T) lo hi :
  0 <= lo <= hi -> hi <= scap s ->
  subslice s lo hi = Ret (skipn (Z.to_nat lo) (firstn (Z.to_nat hi) (sarr s))).
Proof.
  intros H1 H2. unfold subslice.
  destruct (Z.leb_spec 0 lo); [| lia].
  destruct (Z.leb_spec lo hi); [| lia].
  destruct (Z.leb_spec hi (scap s)); [| lia]. reflexivity.
Qed.

Lemma unread_length b : buf_inv b -> length (unread b) = Z.to_nat (off b).
Proof.
  intros [H1 H2]. unfold unread, scap in *. rewrite length_firstn. lia.
Qed.

(** Dropping [n] bytes from the head of the window, as [Read], [ReadByte],
    [Next] and [WriteTo] do it: the rest is copied to the front. *)
Lemma shift_window b n :
  buf_inv b -> 0 <= n <= off b ->
  let rest := skipn (Z.to_nat n) (unread b) in
  let b' := mkBuf (arena b) (go_copy (buf b) rest) (off b - n) (readBuf b) in
  subslice (buf b) n (off b) = Ret rest /\
  unread b' = rest /\ buf_inv b' /\
  Buffer_Cap b' = Buffer_Cap b /\ slen (buf b') = slen (buf b).
Proof.
  intros Hi Hn rest b'. pose proof Hi as [H1 H2].
  assert (Hs : 0 <= slen (buf b) <= scap (buf b)) by lia.
  destruct (go_copy_shape (buf b) rest Hs) as (L & C & _).
  assert (LR : length rest = Z.to_nat (off b - n)).
  { unfold rest. rewrite length_skipn, unread_length by exact Hi. lia. }
  split; [apply subslice_ret; lia |].
  split; [| split; [| split]].
  - unfold unread, b'. cbn [buf off]. rewrite go_copy_head by lia.
    rewrite <- LR. apply take_app_length.
  - unfold buf_inv, b'. cbn [buf off]. rewrite L, C. lia.
  - unfold Buffer_Cap, b'. cbn [buf]. exact C.
  - unfold b'. cbn [buf]. exact L.
Qed.

Section KeepFacts.
Context {T : Type} `{GT : GoType T}.

Lemma go_make_host len cap w (s : slice T) w' :
  go_make len cap w = Ret (s, w') -> host w' = host w.
Proof.
  unfold go_make. destruct (_ || _); [discriminate |].
  unfold hostBlock. simpl. now intros [= _ <-].
Qed.

Lemma go_append_host (s : slice T) data w : host (snd (go_append s data w)) = host w.
Proof. unfold go_append. destruct (_ <=? _); reflexivity. Qed.

(** The arena and the host stay as the next call needs them. *)
Lemma AllocateSlice_keeps (a : Arena) len cap w (s : slice T) a' w' :
  buffer_arena_ok a -> host_ok w -> 0 < alignofT ->
  AllocateSlice a len cap w = Ret (s, a', w') ->
  buffer_arena_ok a' /\ host_ok w'.
Proof.
  intros Ha Hh Hal.
  assert (Make : forall (w0 : World) (a0 : Arena),
            buffer_arena_ok a0 -> host_ok w0 ->
            ('(s, w'') ← go_make len cap w0; Ret (s, a0, w'')) = Ret (s, a', w') ->
            buffer_arena_ok a' /\ host_ok w').
  { intros w0 a0 Ha0 Hh0.
    destruct (go_make len cap w0) as [[s0 w1] |] eqn:M; unfold_bind; [| discriminate].
    intros [= _ <- <-]. split; [exact Ha0 |].
    exact (host_ok_ext _ _ (go_make_host _ _ _ _ _ M) Hh0). }
  unfold AllocateSlice. destruct a as [impl |]; [| exact (Make w None I Hh)].
  destruct Ha as [Hok Hsm].
  destruct (Arena_Alloc impl _ _ w) as [[[p impl'] w1] |] eqn:A; unfold_bind;
    [| discriminate].
  destruct (Arena_Alloc_sound _ _ _ _ _ _ _ Hok Hh (wrap_range _) Hal A)
    as (_ & Hok' & Hh').
  pose proof (Arena_Alloc_keeps_small _ _ _ _ _ _ _ Hsm A) as Hsm'.
  assert (Ha' : buffer_arena_ok (Some impl')) by (split; assumption).
  destruct (p =? 0); [exact (Make w1 (Some impl') Ha' Hh') |].
  destruct (unsafeSliceT_ok p cap); [| discriminate].
  destruct (_ && _); [| discriminate].
  intros [= _ <- <-]. split; assumption.
Qed.

Lemma SliceAppend_keeps (a : Arena) (s : slice T) data w s' a' w' :
  buffer_arena_ok a -> host_ok w -> 0 < alignofT ->
  SliceAppend a s data w = Ret (s', a', w') ->
  buffer_arena_ok a' /\ host_ok w'.
Proof.
  intros Ha Hh Hal. unfold SliceAppend.
  assert (App : forall (s1 : slice T) (w1 : World) (a1 : Arena),
            buffer_arena_ok a1 -> host_ok w1 ->
            (let '(s2, w2) := go_append s1 data w1 in
             Ret (s2, a1, w2) : result (slice T * Arena * World))
            = Ret (s', a', w') ->
            buffer_arena_ok a' /\ host_ok w').
  { intros s1 w1 a1 Ha1 Hh1. pose proof (go_append_host s1 data w1) as Hw.
    destruct (go_append s1 data w1) as [s2 w2]. simpl in Hw.
    intros [= _ <- <-]. split; [exact Ha1 | exact (host_ok_ext _ _ Hw Hh1)]. }
  destruct a as [impl |]; [| exact (App s w None I Hh)].
  unfold growSlice.
  destruct (if 0 <? scap s then _ else _) as [newCap |]; unfold_bind; [| discriminate].
  destruct (newCap =? scap s); [exact (App s w (Some impl) Ha Hh) |].
  destruct (AllocateSlice (Some impl) (slen s) newCap w) as [[[s2 a2] w2] |] eqn:A;
    [| discriminate].
  destruct (AllocateSlice_keeps _ _ _ _ _ _ _ Ha Hh Hal A) as [Ha2 Hh2].
  exact (App _ w2 a2 Ha2 Hh2).
Qed.
End KeepFacts.

Section KindFacts.
Context {T : Type} `{GT : GoType T}.

(** [SliceAppend] hands the arena back: nil stays nil, an arena stays one. *)
Lemma SliceAppend_arena_kind (a : Arena) (s : slice T) data w s' a' w' :
  SliceAppend a s data w = Ret (s', a', w') -> (a = None <-> a' = None).
Proof.
  unfold SliceAppend.
  destruct a as [impl |].
  - destruct (growSlice (Some impl) s _ w) as [[[s1 a1] w1] |] eqn:G; unfold_bind;
      [| discriminate].
    assert (K : a1 <> None).
    { revert G. unfold growSlice.
      destruct (if 0 <? scap s then _ else _) as [newCap |]; unfold_bind;
        [| discriminate].
      destruct (newCap =? scap s); [now intros [= _ <- _] |].
      unfold AllocateSlice.
      destruct (Arena_Alloc impl _ _ w) as [[[p impl'] w2] |]; unfold_bind;
        [| discriminate].
      destruct (p =? 0).
      - destruct (go_make _ _ _) as [[s3 w3] |]; [| discriminate].
        now intros [= _ <- _].
      - destruct (unsafeSliceT_ok p newCap); [| discriminate].
        destruct (_ && _); [| discriminate]. now intros [= _ <- _]. }
    destruct (go_append s1 data w1) as [s2 w2]. intros [= _ <- _].
    split; [discriminate | intros E; now contradiction K].
  - destruct (go_append s data w) as [s2 w2]. intros [= _ <- _]. tauto.
Qed.

(** The built-in [append] never shrinks the capacity. *)
Lemma go_append_cap (s : slice T) data w :
  0 <= slen s <= scap s -> scap s <= scap (fst (go_append s data w)).
Proof.
  intros H.
  destruct (Z_le_gt_dec (slen s + Z.of_nat (length data)) (scap s)) as [F | F].
  - destruct (go_append_in_place s data w (proj1 H) F) as (s' & -> & _ & A2 & _).
    simpl. lia.
  - destruct (go_append_spec s data w H) as (L & _ & C & _). lia.
Qed.
End KindFacts.

(** [SliceAppend] on bytes, for a nil arena without bounds and for an arena
    of the package with lengths that [make] accepts: it returns, and what
    it returns is fit for the next call. *)
Lemma SliceAppend_bytes_total (a : Arena) (s : slice Z) (data : list Z) (w : World) :
  buffer_arena_ok a -> host_ok w -> 0 <= slen s <= scap s ->
  (a <> None -> scap s < cap_bound /\ Z.of_nat (length data) < cap_bound) ->
  exists s' a' w',
    SliceAppend a s data w = Ret (s', a', w') /\
    slen s' = slen s + Z.of_nat (length data) /\
    elems s' = elems s ++ data /\
    slen s' <= scap s' /\ scap s <= scap s' /\
    (a <> None ->
     scap s' <= Z.max (scap s) (2 * (slen s + Z.of_nat (length data)))) /\
    (a = None <-> a' = None) /\
    buffer_arena_ok a' /\ host_ok w'.
Proof.
  intros Ha Hh Hs Hb.
  assert (Main : exists s' a' w',
             SliceAppend a s data w = Ret (s', a', w') /\
             scap s <= scap s' /\
             (a <> None ->
              scap s' <= Z.max (scap s) (2 * (slen s + Z.of_nat (length data))))).
  { destruct a as [impl |].
    - destruct Hb as [Hk Hd]; [discriminate |]. destruct Ha as [Hok Hsm].
      assert (HB : cap_bound = 2305843009213693952) by reflexivity.
      pose proof half_modulus_val as HH.
      assert (Hd0 : 0 <= Z.of_nat (length data) < cap_bound) by lia.
      pose proof (spec_newCap_bounds _ _ _ Hs Hk Hd0) as HC.
      destruct (spec_newCap_facts _ _ _ Hs Hk Hd0) as (F1 & F2 & F3 & F4).
      assert (S1 : 0 <= sizeofT (T:=Z) < half_modulus) by (simpl; lia).
      assert (S2 : 0 < alignofT (T:=Z)) by (simpl; lia).
      assert (S3 : sizeofT (T:=Z) *
                   spec_newCap (slen s) (scap s) (Z.of_nat (length data)) < half_modulus)
        by (simpl sizeofT; lia).
      assert (R : spec_newCap (slen s) (scap s) (Z.of_nat (length data)) <> scap s ->
                  returns (Arena_Alloc impl
                             (sizeofT (T:=Z) *
                              spec_newCap (slen s) (scap s) (Z.of_nat (length data)))
                             (alignofT (T:=Z)) w)).
      { intros _. simpl sizeofT. simpl alignofT.
        apply Arena_Alloc_align1_returns; try assumption. lia. }
      destruct (growSlice_spec impl s (Z.of_nat (length data)) w
                  Hs Hk Hd0 S1 S2 S3 Hok Hh R)
        as (s1 & a1 & w1 & G & L1 & E1 & C1 & Fit & _).
      unfold SliceAppend. rewrite G. unfold_bind.
      assert (F0 : 0 <= slen s1) by lia.
      assert (Fi : slen s1 + Z.of_nat (length data) <= scap s1) by lia.
      destruct (go_append_in_place s1 data w1 F0 Fi) as (s' & -> & _ & B2 & _).
      exists s', a1, w1. split; [reflexivity |]. rewrite B2, C1.
      split; [exact F1 |]. intros _.
      destruct (Z_le_gt_dec (slen s + Z.of_nat (length data)) (scap s)) as [Q | Q].
      + rewrite (F2 Q). lia.
      + destruct (Z.eq_dec (scap s) 0) as [Z0 | NZ].
        * rewrite (F4 Z0). lia.
        * assert (Q' : 0 < scap s < slen s + Z.of_nat (length data)) by lia.
          pose proof (F3 Q'). lia.
    - unfold SliceAppend. pose proof (go_append_cap s data w Hs) as C.
      destruct (go_append s data w) as [s' w']. simpl in C.
      exists s', None, w'. split; [reflexivity |]. split; [exact C |].
      intros N. now contradiction N. }
  destruct Main as (s' & a' & w' & S & C1 & C2).
  destruct (SliceAppend_shape _ _ _ _ _ _ _ Hs S) as (L & Lc & El).
  assert (Al : 0 < alignofT (T:=Z)) by reflexivity.
  destruct (SliceAppend_keeps _ _ _ _ _ _ _ Ha Hh Al S) as [Ha' Hh'].
  pose proof (SliceAppend_arena_kind _ _ _ _ _ _ _ S) as Kd.
  exists s', a', w'.
  split; [exact S |]. split; [exact L |]. split; [exact El |].
  split; [exact Lc |]. split; [exact C1 |]. split; [exact C2 |].
  split; [exact Kd |]. split; [exact Ha' | exact Hh'].
Qed.

Lemma unread_elems b :
  buf_inv b -> unread b = firstn (Z.to_nat (off b)) (elems (buf b)).
Proof.
  intros [H1 H2]. unfold unread, elems. rewrite firstn_firstn.
  f_equal. lia.
Qed.

Lemma Buffer_Bytes_unread b : buf_inv b -> Buffer_Bytes b = Ret (unread b).
Proof. intros [H1 H2]. apply Buffer_Bytes_window. lia. Qed.

(** What [Write], [WriteByte] and [WriteString] have in common. *)
Lemma write_step (b : Buffer) (p : list Z) (w : World) :
  buf_inv b -> buffer_arena_ok (arena b) -> host_ok w ->
  (arena b <> None ->
   scap (buf b) < cap_bound /\ Z.of_nat (length p) < cap_bound) ->
  exists s a w1,
    SliceAppend (arena b) (buf b) p w = Ret (s, a, w1) /\
    let b1 := mkBuf a s (slen s) (readBuf b) in
    buf_inv b1 /\ buffer_arena_ok (arena b1) /\ host_ok w1 /\
    (arena b = None <-> arena b1 = None) /\
    elems (buf b1) = elems (buf b) ++ p /\
    unread b1 = elems (buf b) ++ p /\
    Buffer_Bytes b1 = Ret (elems (buf b) ++ p) /\
    Buffer_Len b1 = slen (buf b) + Z.of_nat (length p) /\
    Buffer_Cap b <= Buffer_Cap b1 /\
    (arena b <> None ->
     Buffer_Cap b1 <= Z.max (Buffer_Cap b) (2 * Buffer_Len b1)).
Proof.
  intros Hi Ha Hh Hb. pose proof Hi as [H1 H2].
  assert (Hs : 0 <= slen (buf b) <= scap (buf b)) by lia.
  destruct (SliceAppend_bytes_total (arena b) (buf b) p w Ha Hh Hs Hb)
    as (s' & a' & w' & S & L & El & C & C1 & C2 & Kd & Ha' & Hh').
  exists s', a', w'. split; [exact S |]. cbv zeta.
  assert (Hi' : buf_inv (mkBuf a' s' (slen s') (readBuf b)))
    by (unfold buf_inv; simpl; lia).
  assert (U : unread (mkBuf a' s' (slen s') (readBuf b)) = elems (buf b) ++ p)
    by (unfold unread; simpl; exact El).
  split; [exact Hi' |]. split; [exact Ha' |]. split; [exact Hh' |].
  split; [exact Kd |]. split; [exact El |]. split; [exact U |].
  split; [rewrite (Buffer_Bytes_unread _ Hi'); now rewrite U |].
  split; [exact L |]. split; [exact C1 |].
  unfold Buffer_Cap, Buffer_Len. simpl. rewrite L. exact C2.
Qed.

(** X13. [Write(p)] on a buffer in its normal state, with an arena of the
    package or none: it returns [len(p)] and no error; for [p] not empty the
    bytes held become the bytes of [buf] followed by [p], all of them
    unread, and the capacity does not shrink; for an empty [p] nothing
    changes; and the buffer, the arena and the host are fit for the next
    call. *)
Theorem Write_appends_to_the_bytes_held (b : Buffer) (p : list Z) (w : World) :
  buf_inv b -> buffer_arena_ok (arena b) -> host_ok w ->
  (arena b <> None ->
   scap (buf b) < cap_bound /\ Z.of_nat (length p) < cap_bound) ->
  exists b1 w1,
    Buffer_Write b p w = Ret (Z.of_nat (length p), no_error, b1, w1) /\
    buf_inv b1 /\ buffer_arena_ok (arena b1) /\ host_ok w1 /\
    readBuf b1 = readBuf b /\
    (p <> [] ->
     Buffer_Bytes b1 = Ret (elems (buf b) ++ p) /\
     Buffer_Len b1 = slen (buf b) + Z.of_nat (length p) /\
     Buffer_Cap b <= Buffer_Cap b1) /\
    (p = [] -> b1 = b /\ w1 = w).
Proof.
  intros Hi Ha Hh Hb. unfold Buffer_Write.
  destruct (Z.eqb_spec (Z.of_nat (length p)) 0) as [E | N].
  - assert (p = []) by (destruct p; [reflexivity | simpl in E; lia]). subst p.
    exists b, w. split; [reflexivity |]. split; [exact Hi |].
    split; [exact Ha |]. split; [exact Hh |]. split; [reflexivity |].
    split; [intros C; now contradiction C | intros _; split; reflexivity].
  - destruct (write_step b p w Hi Ha Hh Hb)
      as (s & a & w1 & S & Hi' & Ha' & Hh' & _ & _ & _ & By & L & C & _).
    rewrite S. unfold_bind. eexists _, _. split; [reflexivity |].
    split; [exact Hi' |]. split; [exact Ha' |]. split; [exact Hh' |].
    split; [reflexivity |].
    split; [intros _; split; [exact By | split; [exact L | exact C]] |].
    intros ->. now contradiction N.
Qed.

Lemma Write_appends_to_the_bytes_held_witness :
  exists b1 w1,
    Buffer_Write (NewArenaBuffer (Some (MonotonicArena demo_arena))) [104; 105] demo_world
    = Ret (2, no_error, b1, w1) /\
    buf_inv b1 /\ buffer_arena_ok (arena b1) /\ host_ok w1 /\
    readBuf b1 = nil_slice /\
    ([104; 105] <> [] ->
     Buffer_Bytes b1 = Ret ([] ++ [104; 105]) /\
     Buffer_Len b1 = 0 + 2 /\
     0 <= Buffer_Cap b1) /\
    ([104; 105] = [] ->
     b1 = NewArenaBuffer (Some (MonotonicArena demo_arena)) /\ w1 = demo_world).
Proof.
  apply (Write_appends_to_the_bytes_held
           (NewArenaBuffer (Some (MonotonicArena demo_arena))) [104; 105] demo_world).
  - vm_compute. repeat split; discriminate.
  - exact demo_arena_ok.
  - exact demo_world_ok.
  - intros _. split; reflexivity.
Defined.

(** X14. [Read(p)] on a buffer in its normal state never panics: it moves
    the first [n = min(len(p), Len())] unread bytes to the head of [p], the
    unread bytes that remain are the others in their order, the capacity is
    as before, and the error is [io.EOF] exactly when the buffer was empty
    or [p] was not filled. *)
Theorem Read_takes_the_head_of_the_unread_bytes (b : Buffer) (p : list Z) :
  buf_inv b ->
  let n := Nat.min (length p) (Z.to_nat (off b)) in
  exists e b',
    Buffer_Read b p = Ret (Z.of_nat n, e, firstn n (unread b) ++ skipn n p, b') /\
    (e = io_EOF <-> off b = 0 \/ (n < length p)%nat) /\
    unread b' = skipn n (unread b) /\
    Buffer_Len b' = Buffer_Len b - Z.of_nat n /\
    Buffer_Cap b' = Buffer_Cap b /\
    arena b' = arena b /\ buf_inv b'.
Proof.
  intros Hi n. pose proof Hi as [H1 H2]. unfold Buffer_Read.
  destruct (Z.eqb_spec (off b) 0) as [E | N].
  - assert (n = 0%nat) by (unfold n; rewrite E; simpl; lia).
    exists io_EOF, b. rewrite H. simpl.
    split; [reflexivity |]. split; [tauto |].
    split; [reflexivity |]. split; [lia |]. split; [reflexivity |].
    split; [reflexivity | exact Hi].
  - assert (W : subslice (buf b) 0 (off b) = Ret (unread b))
      by (rewrite subslice_ret by lia; reflexivity).
    rewrite W. unfold_bind. cbv zeta.
    rewrite (unread_length b Hi). fold n.
    assert (Rn : 0 <= Z.of_nat n <= off b) by (unfold n; lia).
    destruct (shift_window b (Z.of_nat n) Hi Rn) as (Wn & U & Hi' & C & _).
    rewrite Nat2Z.id in Wn, U, Hi', C. rewrite Wn.
    eexists _, _. split; [reflexivity |].
    split.
    { destruct (Nat.ltb_spec n (length p)); split; intros Q;
        try reflexivity; try discriminate; try tauto.
      destruct Q; lia. }
    split; [exact U |]. split; [reflexivity |]. split; [exact C |].
    split; [reflexivity | exact Hi'].
Qed.

Lemma Read_takes_the_head_of_the_unread_bytes_witness :
  exists e b',
    Buffer_Read (mkBuf None (mkSlice 0x500 [1; 2; 3; 4] 3) 3 nil_slice) [0; 0]
    = Ret (2, e, [1; 2], b') /\
    (e = io_EOF <-> 3 = 0 \/ (2 < 2)%nat) /\
    unread b' = [3] /\
    Buffer_Len b' = 3 - 2 /\ Buffer_Cap b' = 4 /\
    arena b' = None /\ buf_inv b'.
Proof.
  apply (Read_takes_the_head_of_the_unread_bytes
           (mkBuf None (mkSlice 0x500 [1; 2; 3; 4] 3) 3 nil_slice) [0; 0]).
  vm_compute. repeat split; discriminate.
Defined.

(** X15. [ReadByte] on a buffer in its normal state: [io.EOF] and no change
    when no byte is unread; otherwise the first unread byte, and the unread
    bytes that remain are the others. *)
Theorem ReadByte_takes_the_first_unread_byte (b : Buffer) :
  buf_inv b ->
  (off b = 0 -> Buffer_ReadByte b = Ret (0, io_EOF, b)) /\
  (off b <> 0 ->
   exists c rest b',
     unread b = c :: rest /\
     Buffer_ReadByte b = Ret (c, no_error, b') /\
     unread b' = rest /\ Buffer_Len b' = Buffer_Len b - 1 /\
     Buffer_Cap b' = Buffer_Cap b /\ buf_inv b').
Proof.
  intros Hi. pose proof Hi as [H1 H2]. unfold Buffer_ReadByte. split.
  - intros ->. reflexivity.
  - intros N. destruct (Z.eqb_spec (off b) 0) as [E | _]; [now contradiction N |].
    pose proof (unread_length b Hi) as UL.
    pose proof (unread_elems b Hi) as UE.
    assert (R1 : 0 <= 1 <= off b) by lia.
    destruct (shift_window b 1 Hi R1) as (W & U1 & Hi' & C & _).
    change (Z.to_nat 1) with 1%nat in W, U1, Hi', C.
    destruct (unread b) as [| c rest]; [simpl in UL; lia |].
    cbn [skipn] in W, U1, Hi', C.
    destruct (elems (buf b)) as [| c' es] eqn:El.
    { rewrite firstn_nil in UE. discriminate. }
    assert (c' = c).
    { destruct (Z.to_nat (off b)) eqn:K; [lia |]. simpl in UE. congruence. }
    subst c'. rewrite W. unfold_bind.
    exists c, rest, (mkBuf (arena b) (go_copy (buf b) rest) (off b - 1) (readBuf b)).
    split; [reflexivity |]. split; [reflexivity |].
    split; [exact U1 |]. split; [reflexivity |]. split; [exact C | exact Hi'].
Qed.

Lemma ReadByte_takes_the_first_unread_byte_witness :
  (3 = 0 ->
   Buffer_ReadByte (mkBuf None (mkSlice 0x500 [1; 2; 3; 4] 3) 3 nil_slice)
   = Ret (0, io_EOF, mkBuf None (mkSlice 0x500 [1; 2; 3; 4] 3) 3 nil_slice)) /\
  (3 <> 0 ->
   exists c rest b',
     [1; 2; 3] = c :: rest /\
     Buffer_ReadByte (mkBuf None (mkSlice 0x500 [1; 2; 3; 4] 3) 3 nil_slice)
     = Ret (c, no_error, b') /\
     unread b' = rest /\ Buffer_Len b' = 3 - 1 /\
     Buffer_Cap b' = 4 /\ buf_inv b').
Proof.
  apply (ReadByte_takes_the_first_unread_byte
           (mkBuf None (mkSlice 0x500 [1; 2; 3; 4] 3) 3 nil_slice)).
  vm_compute. repeat split; discriminate.
Defined.

(** X16. [Next(n)] on a buffer in its normal state whose length [make]
    accepts: it returns a copy of the first [min(n, Len())] unread bytes
    (none for [n <= 0]) and leaves the others unread, with the capacity and
    the host's layout as before. *)
Theorem Next_returns_the_next_unread_bytes (b : Buffer) (n : Z) (w : World) :
  buf_inv b -> off b < half_modulus ->
  let k := Z.to_nat (Z.min n (off b)) in
  exists b' w',
    Buffer_Next b n w = Ret (firstn k (unread b), b', w') /\
    unread b' = skipn k (unread b) /\
    Buffer_Len b' = Buffer_Len b - Z.of_nat k /\
    Buffer_Cap b' = Buffer_Cap b /\ buf_inv b' /\ host w' = host w /\
    (k = 0%nat -> b' = b /\ w' = w).
Proof.
  intros Hi Hm k. pose proof Hi as [H1 H2]. unfold Buffer_Next.
  assert (Same : exists b' w',
             Ret ([], b, w) = Ret (firstn 0 (unread b), b', w') /\
             unread b' = skipn 0 (unread b) /\
             Buffer_Len b' = Buffer_Len b - Z.of_nat 0 /\
             Buffer_Cap b' = Buffer_Cap b /\ buf_inv b' /\ host w' = host w /\
             (0%nat = 0%nat -> b' = b /\ w' = w)).
  { exists b, w. simpl. split; [reflexivity |]. split; [reflexivity |].
    split; [lia |]. split; [reflexivity |]. split; [exact Hi |].
    split; [reflexivity | intros _; split; reflexivity]. }
  destruct (Z.leb_spec n 0) as [Le | Gt].
  { assert (K : k = 0%nat) by (unfold k; lia). rewrite K. exact Same. }
  cbv zeta.
  assert (M : (if off b <? n then off b else n) = Z.min n (off b))
    by (destruct (Z.ltb_spec (off b) n); lia).
  rewrite M.
  destruct (Z.eqb_spec (Z.min n (off b)) 0) as [E | N].
  { assert (K : k = 0%nat) by (unfold k; lia). rewrite K. exact Same. }
  set (m := Z.min n (off b)) in *.
  assert (Rm : 0 <= m <= off b) by (unfold m; lia).
  assert (Hk : k = Z.to_nat m) by reflexivity.
  clearbody k m.
  unfold go_make. simpl sizeofT.
  destruct (Z.ltb_spec m 0); [lia |].
  destruct (Z.ltb_spec m m); [lia |].
  destruct (Z.leb_spec half_modulus (1 * m)); [lia |].
  simpl orb. cbv iota. unfold hostBlock. unfold_bind.
  assert (Hd : subslice (buf b) 0 m = Ret (firstn k (unread b))).
  { rewrite subslice_ret by lia. change (Z.to_nat 0) with 0%nat.
    rewrite drop_0. unfold unread.
    rewrite firstn_firstn. f_equal. f_equal. lia. }
  rewrite Hd.
  destruct (shift_window b m Hi Rm) as (W & U & Hi' & C & _).
  rewrite <- Hk in W, U, Hi', C. rewrite W.
  eexists _, _. split.
  - f_equal. f_equal. f_equal.
    assert (LK : length (firstn k (unread b)) = k).
    { rewrite length_firstn, (unread_length b Hi). lia. }
    unfold elems. cbn [slen go_copy sarr zeroT byte_GoType].
    rewrite <- Hk. set (h := firstn k (unread b)) in *.
    rewrite LK, Nat.min_id, (firstn_all2 h) by lia.
    rewrite firstn_app, LK, Nat.sub_diag, (firstn_all2 h) by lia.
    change (firstn 0 (skipn k (repeat 0 k))) with (@nil Z).
    apply app_nil_r.
  - split; [exact U |]. split; [unfold Buffer_Len; simpl; lia |].
    split; [exact C |]. split; [exact Hi' |]. split; [reflexivity |].
    intros K. lia.
Qed.

Lemma Next_returns_the_next_unread_bytes_witness :
  exists b' w',
    Buffer_Next (mkBuf None (mkSlice 0x500 [1; 2; 3; 4] 3) 3 nil_slice) 2 demo_world
    = Ret ([1; 2], b', w') /\
    unread b' = [3] /\
    Buffer_Len b' = 3 - 2 /\ Buffer_Cap b' = 4 /\ buf_inv b' /\
    host w' = host demo_world /\
    (2%nat = 0%nat ->
     b' = mkBuf None (mkSlice 0x500 [1; 2; 3; 4] 3) 3 nil_slice /\ w' = demo_world).
Proof.
  apply (Next_returns_the_next_unread_bytes
           (mkBuf None (mkSlice 0x500 [1; 2; 3; 4] 3) 3 nil_slice) 2 demo_world).
  - vm_compute. repeat split; discriminate.
  - reflexivity.
Defined.

(** X17. [WriteTo(w)] on a buffer in its normal state: with no unread byte
    the writer is not called; otherwise the writer is given the unread
    bytes, and for its count [m]: none is dropped for [m <= 0], the first
    [m] are dropped for [m <= Len()], and a count above [Len()] panics with
    the range error of the slice expression.  The writer's error is handed
    on as it is. *)
Theorem WriteTo_drops_what_the_writer_took
        {E : Type} (b : Buffer) (wr : list Z -> Z * option E) :
  buf_inv b ->
  (off b = 0 -> Buffer_WriteTo b wr = Ret (0, None, b)) /\
  (off b <> 0 ->
   let m := fst (wr (unread b)) in
   let err := snd (wr (unread b)) in
   (m <= 0 -> Buffer_WriteTo b wr = Ret (0, err, b)) /\
   (0 < m <= off b ->
    exists b',
      Buffer_WriteTo b wr = Ret (m, err, b') /\
      unread b' = skipn (Z.to_nat m) (unread b) /\
      Buffer_Len b' = Buffer_Len b - m /\
      Buffer_Cap b' = Buffer_Cap b /\ buf_inv b') /\
   (off b < m -> Buffer_WriteTo b wr = Panic PanicSliceBounds)).
Proof.
  intros Hi. pose proof Hi as [H1 H2]. unfold Buffer_WriteTo. split.
  - intros ->. reflexivity.
  - intros N.
    destruct (Z.eqb_spec (off b) 0) as [E0 | _]; [now contradiction N |].
    assert (W : subslice (buf b) 0 (off b) = Ret (unread b))
      by (rewrite subslice_ret by lia; reflexivity).
    rewrite W. unfold_bind.
    destruct (wr (unread b)) as [m0 e0]. cbn [fst snd].
    split; [| split].
    + intros Le. destruct (Z.ltb_spec 0 m0); [lia | reflexivity].
    + intros R. destruct (Z.ltb_spec 0 m0); [| lia].
      assert (Rm : 0 <= m0 <= off b) by lia.
      destruct (shift_window b m0 Hi Rm) as (Wm & U & Hi' & C & _).
      rewrite Wm. eexists. split; [reflexivity |].
      split; [exact U |]. split; [reflexivity |]. split; [exact C | exact Hi'].
    + intros Gt. destruct (Z.ltb_spec 0 m0); [| lia].
      unfold subslice.
      destruct (Z.leb_spec 0 m0); [| lia].
      destruct (Z.leb_spec m0 (off b)); [lia |]. reflexivity.
Qed.

Lemma WriteTo_drops_what_the_writer_took_witness :
  let b := mkBuf None (mkSlice 0x500 [1; 2; 3; 4] 3) 3 nil_slice in
  let wr := fun bs : list Z => (Z.of_nat (length bs) - 1, @None unit) in
  (3 = 0 -> Buffer_WriteTo b wr = Ret (0, None, b)) /\
  (3 <> 0 ->
   (2 <= 0 -> Buffer_WriteTo b wr = Ret (0, None, b)) /\
   (0 < 2 <= 3 ->
    exists b',
      Buffer_WriteTo b wr = Ret (2, None, b') /\
      unread b' = [3] /\
      Buffer_Len b' = 3 - 2 /\ Buffer_Cap b' = 4 /\ buf_inv b') /\
   (3 < 2 -> Buffer_WriteTo b wr = Panic PanicSliceBounds)).
Proof.
  intros b wr.
  apply (WriteTo_drops_what_the_writer_took b wr).
  vm_compute. repeat split; discriminate.
Defined.

(** X18. [Reset] keeps the storage and the arena and empties the buffer:
    the length is 0, the capacity as before, and a second [Reset] changes
    nothing.  On a buffer whose [buf], when nil, has length 0, a [Write(p)]
    after [Reset] leaves exactly [p] as the unread bytes: [Reset] also
    drops the bytes that were read before. *)
Theorem Reset_then_Write_holds_only_the_new_bytes
        (b : Buffer) (p : list Z) (w : World) :
  (sdata (buf b) = 0 -> slen (buf b) = 0) ->
  buffer_arena_ok (arena b) -> host_ok w ->
  (arena b <> None ->
   scap (buf b) < cap_bound /\ Z.of_nat (length p) < cap_bound) ->
  Buffer_Len (Buffer_Reset b) = 0 /\
  Buffer_Cap (Buffer_Reset b) = Buffer_Cap b /\
  Buffer_Bytes (Buffer_Reset b) = Ret [] /\
  arena (Buffer_Reset b) = arena b /\
  Buffer_Reset (Buffer_Reset b) = Buffer_Reset b /\
  exists b1 w1,
    Buffer_Write (Buffer_Reset b) p w = Ret (Z.of_nat (length p), no_error, b1, w1) /\
    Buffer_Bytes b1 = Ret p /\ Buffer_Len b1 = Z.of_nat (length p) /\
    Buffer_Cap b <= Buffer_Cap b1 /\ buf_inv b1.
Proof.
  intros Hnil Ha Hh Hb.
  assert (C : Buffer_Cap (Buffer_Reset b) = Buffer_Cap b).
  { unfold Buffer_Cap, Buffer_Reset. simpl. now destruct (sdata (buf b) =? 0). }
  assert (L0 : slen (buf (Buffer_Reset b)) = 0).
  { unfold Buffer_Reset. simpl.
    destruct (Z.eqb_spec (sdata (buf b)) 0) as [E | N]; [exact (Hnil E) | reflexivity]. }
  assert (Hi : buf_inv (Buffer_Reset b)).
  { unfold buf_inv. rewrite L0. unfold Buffer_Reset at 1 2. cbn [off].
    unfold scap. lia. }
  split; [reflexivity |]. split; [exact C |]. split; [reflexivity |].
  split; [reflexivity |]. split.
  { unfold Buffer_Reset. simpl.
    destruct (Z.eqb_spec (sdata (buf b)) 0) as [E | N]; [now rewrite E |].
    simpl. destruct (Z.eqb_spec (sdata (buf b)) 0); [lia | reflexivity]. }
  unfold Buffer_Write.
  destruct (Z.eqb_spec (Z.of_nat (length p)) 0) as [E | N].
  - assert (p = []) by (destruct p; [reflexivity | simpl in E; lia]). subst p.
    exists (Buffer_Reset b), w. split; [reflexivity |]. split; [reflexivity |].
    split; [reflexivity |]. split; [rewrite C; lia | exact Hi].
  - assert (Hb' : arena (Buffer_Reset b) <> None ->
                  scap (buf (Buffer_Reset b)) < cap_bound /\
                  Z.of_nat (length p) < cap_bound).
    { intros Q. fold (Buffer_Cap (Buffer_Reset b)). rewrite C. exact (Hb Q). }
    destruct (write_step (Buffer_Reset b) p w Hi Ha Hh Hb')
      as (s & a & w1 & S & Hi' & _ & _ & _ & _ & _ & By & L & Cp & _).
    assert (E0 : elems (buf (Buffer_Reset b)) = [])
      by (unfold elems; now rewrite L0).
    rewrite E0 in By. rewrite L0 in L. rewrite C in Cp.
    rewrite S. unfold_bind. eexists _, _. split; [reflexivity |].
    split; [exact By |]. split; [exact L |]. split; [exact Cp | exact Hi'].
Qed.

Lemma Reset_then_Write_holds_only_the_new_bytes_witness :
  let b := mkBuf (Some (MonotonicArena demo_arena)) (mkSlice 0x500 [1; 2; 3; 4] 3) 1
                 nil_slice in
  Buffer_Len (Buffer_Reset b) = 0 /\
  Buffer_Cap (Buffer_Reset b) = 4 /\
  Buffer_Bytes (Buffer_Reset b) = Ret [] /\
  arena (Buffer_Reset b) = Some (MonotonicArena demo_arena) /\
  Buffer_Reset (Buffer_Reset b) = Buffer_Reset b /\
  exists b1 w1,
    Buffer_Write (Buffer_Reset b) [7; 8] demo_world = Ret (2, no_error, b1, w1) /\
    Buffer_Bytes b1 = Ret [7; 8] /\ Buffer_Len b1 = 2 /\
    4 <= Buffer_Cap b1 /\ buf_inv b1.
Proof.
  intros b.
  apply (Reset_then_Write_holds_only_the_new_bytes b [7; 8] demo_world).
  - intros Q. vm_compute in Q. discriminate.
  - exact demo_arena_ok.
  - exact demo_world_ok.
  - intros _. split; reflexivity.
Defined.

(** X19. [WriteByte(c)] is [Write] of the one byte: no error, the bytes
    held become the bytes of [buf] followed by [c], all of them unread; and
    [WriteString] does what [Write] does on the bytes of the string. *)
Theorem WriteByte_appends_one_byte (b : Buffer) (c : Z) (w : World) :
  buf_inv b -> buffer_arena_ok (arena b) -> host_ok w ->
  (arena b <> None -> scap (buf b) < cap_bound) ->
  exists b1 w1,
    Buffer_WriteByte b c w = Ret (no_error, b1, w1) /\
    Buffer_Write b [c] w = Ret (1, no_error, b1, w1) /\
    Buffer_WriteString b [c] w = Ret (1, no_error, b1, w1) /\
    Buffer_Bytes b1 = Ret (elems (buf b) ++ [c]) /\
    Buffer_Len b1 = slen (buf b) + 1 /\
    buf_inv b1 /\ buffer_arena_ok (arena b1) /\ host_ok w1.
Proof.
  intros Hi Ha Hh Hb.
  assert (Hb' : arena b <> None ->
                scap (buf b) < cap_bound /\ Z.of_nat (length [c]) < cap_bound).
  { intros Q. split; [exact (Hb Q) | reflexivity]. }
  destruct (write_step b [c] w Hi Ha Hh Hb')
    as (s & a & w1 & S & Hi' & Ha' & Hh' & _ & _ & _ & By & L & _).
  unfold Buffer_WriteByte, Buffer_Write, Buffer_WriteString.
  change (Z.of_nat (length [c]) =? 0) with false. cbv iota.
  rewrite S. unfold_bind. eexists _, _.
  split; [reflexivity |]. split; [reflexivity |]. split; [reflexivity |].
  split; [exact By |]. split; [exact L |].
  split; [exact Hi' |]. split; [exact Ha' | exact Hh'].
Qed.

Lemma WriteByte_appends_one_byte_witness :
  exists b1 w1,
    Buffer_WriteByte (NewArenaBuffer (Some (MonotonicArena demo_arena))) 104 demo_world
    = Ret (no_error, b1, w1) /\
    Buffer_Write (NewArenaBuffer (Some (MonotonicArena demo_arena))) [104] demo_world
    = Ret (1, no_error, b1, w1) /\
    Buffer_WriteString (NewArenaBuffer (Some (MonotonicArena demo_arena))) [104] demo_world
    = Ret (1, no_error, b1, w1) /\
    Buffer_Bytes b1 = Ret ([] ++ [104]) /\
    Buffer_Len b1 = 0 + 1 /\
    buf_inv b1 /\ buffer_arena_ok (arena b1) /\ host_ok w1.
Proof.
  apply (WriteByte_appends_one_byte
           (NewArenaBuffer (Some (MonotonicArena demo_arena))) 104 demo_world).
  - vm_compute. repeat split; discriminate.
  - exact demo_arena_ok.
  - exact demo_world_ok.
  - intros _. reflexivity.
Defined.

(* ===================================================================== *)
(** * ReadFrom *)
(* ===================================================================== *)

Lemma ReadFrom_loop_cons {E : Type} (answers : list (list Z * read_status E))
      chunk er b n w :
  ReadFrom_loop ((chunk, er) :: answers) b n w =
  ('(b1, n1, w1) ← ReadFrom_round b chunk n w;
   match er with
   | read_more => ReadFrom_loop answers b1 n1 w1
   | read_EOF => Ret (n1, None, b1, w1)
   | read_error e => Ret (n1, Some e, b1, w1)
   end).
Proof. reflexivity. Qed.

Lemma ReadFrom_round_spec b chunk n w more :
  loop_inv b w n (Z.of_nat (length chunk) + more) -> 0 <= more ->
  Z.of_nat (length chunk) <= slen (readBuf b) ->
  exists b1 w1,
    ReadFrom_round b chunk n w = Ret (b1, n + Z.of_nat (length chunk), w1) /\
    loop_inv b1 w1 (n + Z.of_nat (length chunk)) more /\
    elems (buf b1) = elems (buf b) ++ chunk /\
    slen (readBuf b1) = slen (readBuf b) /\
    (arena b = None <-> arena b1 = None) /\
    (chunk <> [] -> off b1 = slen (buf b1)) /\
    (chunk = [] -> off b1 = off b /\ buf b1 = buf b).
Proof.
  intros (Hi & Ha & Hh & Hr & Hn & Hm & Hc) Hmore Hlen.
  pose proof half_modulus_val as HH.
  assert (HB : cap_bound = 2305843009213693952) by reflexivity.
  destruct (go_copy_shape (readBuf b) chunk Hr) as (RL & RC & _).
  unfold ReadFrom_round. cbv zeta.
  destruct (Z.ltb_spec 0 (Z.of_nat (length chunk))) as [P | Z0].
  - cbn [readBuf].
    assert (D : subslice (go_copy (readBuf b) chunk) 0 (Z.of_nat (length chunk))
                = Ret chunk).
    { rewrite subslice_ret by lia. change (Z.to_nat 0) with 0%nat.
      rewrite drop_0, go_copy_head by lia. rewrite Nat2Z.id.
      f_equal. apply take_app_length. }
    rewrite D. unfold_bind.
    set (b0 := mkBuf (arena b) (buf b) (off b) (go_copy (readBuf b) chunk)).
    assert (Hi0 : buf_inv b0) by exact Hi.
    assert (Hb0 : arena b0 <> None ->
                  scap (buf b0) < cap_bound /\ Z.of_nat (length chunk) < cap_bound).
    { intros Q. specialize (Hc Q). destruct Hi as [Q1 Q2]. simpl. lia. }
    destruct (write_step b0 chunk w Hi0 Ha Hh Hb0)
      as (s & a & w1 & S & Hi' & Ha' & Hh' & Kd & El & _ & _ & L & C1 & C2).
    unfold Buffer_Write.
    destruct (Z.eqb_spec (Z.of_nat (length chunk)) 0); [lia |].
    rewrite S. unfold_bind. subst b0.
    rewrite wrap_int_small by lia.
    eexists _, _. split; [reflexivity |].
    unfold Buffer_Len, Buffer_Cap in *. cbn [arena buf off readBuf] in *.
    split; [| split; [exact El | split; [exact RL | split; [exact Kd |]]]].
    + unfold loop_inv. cbn [arena buf off readBuf].
      split; [exact Hi' |]. split; [exact Ha' |]. split; [exact Hh' |].
      split; [lia |]. split; [lia |]. split; [lia |].
      intros Q. assert (Q0 : arena b <> None) by tauto.
      specialize (Hc Q0). specialize (C2 Q0). lia.
    + split; [intros _; reflexivity |].
      intros ->. simpl in P. lia.
  - assert (chunk = []) by (destruct chunk; [reflexivity | simpl in Z0; lia]).
    subst chunk. simpl length. simpl Z.of_nat.
    rewrite Z.add_0_r. simpl length in *. simpl Z.of_nat in *.
    eexists _, _. split; [reflexivity |].
    cbn [arena buf off readBuf].
    split; [| split; [now rewrite app_nil_r | split; [exact RL | split; [tauto |]]]].
    + unfold loop_inv. cbn [arena buf off readBuf].
      split; [exact Hi |]. split; [exact Ha |]. split; [exact Hh |].
      split; [lia |]. split; [lia |]. split; [lia |]. exact Hc.
    + split; [intros Q; now contradiction Q | intros _; split; reflexivity].
Qed.

Lemma ReadFrom_loop_spec {E : Type} (fin : option E) (last : list Z) chunks :
  forall b n w,
  let total := concat chunks ++ last in
  loop_inv b w n (Z.of_nat (length total)) ->
  Forall (fun c => Z.of_nat (length c) <= slen (readBuf b)) (chunks ++ [last]) ->
  exists b' w',
    ReadFrom_loop (answers_of chunks last fin) b n w
    = Ret (n + Z.of_nat (length total), fin, b', w') /\
    loop_inv b' w' (n + Z.of_nat (length total)) 0 /\
    elems (buf b') = elems (buf b) ++ total /\
    (total <> [] -> off b' = slen (buf b')) /\
    (total = [] -> off b' = off b /\ buf b' = buf b).
Proof.
  induction chunks as [| c chunks IH]; intros b n w total Inv Hl.
  - unfold total in *. cbn [concat app] in *. inversion Hl as [| ? ? Hlast _]; subst.
    rewrite <- (Z.add_0_r (Z.of_nat (length last))) in Inv.
    destruct (ReadFrom_round_spec b last n w 0 Inv (Z.le_refl 0) Hlast)
      as (b1 & w1 & R & Inv1 & El & _ & _ & O1 & O2).
    unfold answers_of. cbn [map app]. rewrite ReadFrom_loop_cons, R. unfold_bind.
    exists b1, w1. split; [now destruct fin |].
    split; [exact Inv1 |]. split; [exact El |]. split; [exact O1 | exact O2].
  - unfold total in *. cbn [app] in Hl. inversion Hl as [| ? ? Hc Hrest]; subst.
    cbn [concat] in *. rewrite <- app_assoc in *.
    rewrite length_app, Nat2Z.inj_add in Inv.
    assert (M0 : 0 <= Z.of_nat (length (concat chunks ++ last))) by lia.
    destruct (ReadFrom_round_spec b c n w _ Inv M0 Hc)
      as (b1 & w1 & R & Inv1 & El & RL & _ & O1 & O2).
    rewrite <- RL in Hrest.
    destruct (IH b1 _ w1 Inv1 Hrest) as (b' & w' & L & Inv' & El' & P1 & P2).
    unfold answers_of in *. cbn [map app].
    rewrite ReadFrom_loop_cons, R. unfold_bind.
    exists b', w'. rewrite length_app, Nat2Z.inj_add, Z.add_assoc.
    split; [exact L |]. split; [exact Inv' |].
    split; [rewrite El', El; now rewrite <- app_assoc |].
    split.
    + intros NE. destruct (concat chunks ++ last) as [| x xs] eqn:Q.
      * destruct (P2 eq_refl) as [P3 P4]. rewrite P3, P4. apply O1.
        intros ->. now contradiction NE.
      * apply P1. discriminate.
    + intros Q. apply app_eq_nil in Q. destruct Q as [-> Q].
      destruct (P2 Q) as [P3 P4]. destruct (O2 eq_refl) as [O3 O4].
      split; congruence.
Qed.

(** X20. [ReadFrom(r)] for a reader that delivers the chunks one per call
    of [Read], none longer than the scratch slice (4096 bytes when
    [ReadFrom] has to make it), and then ends with [io.EOF] or with an
    error: [ReadFrom] returns the number of bytes delivered and nil for
    [io.EOF], the reader's error otherwise; the bytes of [buf] are followed
    by all the bytes delivered, in order, and they are the unread bytes
    whenever a byte was delivered. *)
Theorem ReadFrom_appends_all_the_reader_delivers
        {E : Type} (b : Buffer) (chunks : list (list Z)) (last : list Z)
        (fin : option E) (w : World) :
  let total := concat chunks ++ last in
  let scratch := if sdata (readBuf b) =? 0 then readBufferSize
                 else slen (readBuf b) in
  buf_inv b -> buffer_arena_ok (arena b) -> host_ok w ->
  0 <= slen (readBuf b) <= scap (readBuf b) ->
  Forall (fun c => Z.of_nat (length c) <= scratch) (chunks ++ [last]) ->
  Z.of_nat (length total) < half_modulus ->
  (arena b <> None ->
   Z.max (scap (buf b)) (2 * (slen (buf b) + Z.of_nat (length total))) < cap_bound) ->
  exists b' w',
    Buffer_ReadFrom b (answers_of chunks last fin) w
    = Ret (Z.of_nat (length total), fin, b', w') /\
    elems (buf b') = elems (buf b) ++ total /\
    (total <> [] -> Buffer_Bytes b' = Ret (elems (buf b) ++ total)) /\
    (total = [] -> Buffer_Bytes b' = Buffer_Bytes b) /\
    buf_inv b' /\ buffer_arena_ok (arena b') /\ host_ok w'.
Proof.
  intros total scratch Hi Ha Hh Hr Hl Ht Hc.
  pose proof half_modulus_val as HH.
  assert (Start : exists b0 w0,
             (if sdata (readBuf b) =? 0
              then Buffer_allocateReadBuffer b w
              else Ret (b, w)) = Ret (b0, w0) /\
             loop_inv b0 w0 0 (Z.of_nat (length total)) /\
             slen (readBuf b0) = scratch /\ buf b0 = buf b /\ off b0 = off b).
  { unfold scratch. destruct (Z.eqb_spec (sdata (readBuf b)) 0) as [E0 | N0].
    - unfold Buffer_allocateReadBuffer.
      assert (Al : 0 < alignofT (T:=Z)) by reflexivity.
      assert (A : exists s a w',
                 AllocateSlice (arena b) readBufferSize readBufferSize w
                 = Ret (s, a, w')).
      { destruct (arena b) as [impl |] eqn:Ar.
        - destruct Ha as [Hok Hsm].
          assert (S1 : 0 <= sizeofT (T:=Z) < half_modulus) by (simpl; lia).
          assert (R1 : 0 <= readBufferSize <= readBufferSize) by (vm_compute; split; discriminate).
          assert (R2 : sizeofT (T:=Z) * readBufferSize < half_modulus) by reflexivity.
          assert (R3 : returns (Arena_Alloc impl (sizeofT (T:=Z) * readBufferSize)
                                            (alignofT (T:=Z)) w)).
          { simpl sizeofT. simpl alignofT.
            apply Arena_Alloc_align1_returns; try assumption;
              try (vm_compute; split; [discriminate | reflexivity]). }
          destruct (AllocateSlice_returns impl _ _ w Hok Hh S1 Al R1 R2 R3)
            as (s & a & w' & A & _). now exists s, a, w'.
        - unfold AllocateSlice, go_make.
          destruct (Z.ltb_spec readBufferSize 0) as [Q | _];
            [vm_compute in Q; discriminate |].
          destruct (Z.ltb_spec readBufferSize readBufferSize) as [Q | _]; [lia |].
          destruct (Z.leb_spec half_modulus (sizeofT (T:=Z) * readBufferSize))
            as [Q | _]; [vm_compute in Q; now contradiction Q |].
          cbn [orb]. destruct (hostBlock w _) as [p0 w0]. unfold_bind.
          eexists _, _, _. reflexivity. }
      destruct A as (s & a & w' & A). rewrite A. unfold_bind.
      destruct (AllocateSlice_shape _ _ _ _ _ _ _ A) as (L & C & _).
      destruct (AllocateSlice_keeps _ _ _ _ _ _ _ Ha Hh Al A) as [Ha' Hh'].
      exists (mkBuf a (buf b) (off b) s), w'. split; [reflexivity |].
      split; [| split; [exact L | split; reflexivity]].
      unfold loop_inv. cbn [arena buf off readBuf].
      split; [exact Hi |]. split; [exact Ha' |]. split; [exact Hh' |].
      split; [rewrite L, C; vm_compute; split; discriminate |].
      split; [lia |]. split; [lia |].
      intros Q. apply Hc. intros Q'. apply Q.
      revert A. unfold AllocateSlice. rewrite Q'.
      destruct (go_make _ _ _) as [[s0 w0] |]; unfold_bind; [| discriminate].
      now intros [= _ <- _].
    - exists b, w. split; [reflexivity |]. split; [| repeat split].
      unfold loop_inv. split; [exact Hi |]. split; [exact Ha |].
      split; [exact Hh |]. split; [exact Hr |]. split; [lia |].
      split; [lia | exact Hc]. }
  destruct Start as (b0 & w0 & S & Inv & RL & B0 & O0).
  unfold Buffer_ReadFrom. rewrite S. unfold_bind.
  rewrite <- RL in Hl.
  destruct (ReadFrom_loop_spec fin last chunks b0 0 w0 Inv Hl)
    as (b' & w' & L & (Hi' & Ha' & Hh' & _) & El & P1 & P2).
  fold total in L, El, P1, P2. rewrite Z.add_0_l in L. rewrite B0 in El.
  exists b', w'. split; [exact L |]. split; [exact El |].
  split; [| split; [| split; [exact Hi' | split; [exact Ha' | exact Hh']]]].
  - intros NE. rewrite (Buffer_Bytes_unread _ Hi'). unfold unread.
    rewrite (P1 NE). fold (elems (buf b')). now rewrite El.
  - intros Q. destruct (P2 Q) as [P3 P4].
    unfold Buffer_Bytes. now rewrite P3, P4, O0, B0.
Qed.

Lemma ReadFrom_appends_all_the_reader_delivers_witness :
  exists b' w',
    Buffer_ReadFrom (NewArenaBuffer None) (@answers_of unit [[104; 105]] [33] None)
                    demo_world
    = Ret (3, None, b', w') /\
    elems (buf b') = [104; 105; 33] /\
    ([104; 105; 33] <> [] -> Buffer_Bytes b' = Ret [104; 105; 33]) /\
    ([104; 105; 33] = [] -> Buffer_Bytes b' = Ret []) /\
    buf_inv b' /\ buffer_arena_ok (arena b') /\ host_ok w'.
Proof.
  apply (@ReadFrom_appends_all_the_reader_delivers unit
           (NewArenaBuffer None) [[104; 105]] [33] None demo_world).
  - vm_compute. repeat split; discriminate.
  - exact I.
  - exact demo_world_ok.
  - vm_compute. split; discriminate.
  - repeat constructor; vm_compute; discriminate.
  - reflexivity.
  - intros Q. now contradiction Q.
Defined.

(* ===================================================================== *)
(** * More on the arenas behind the interface *)
(* ===================================================================== *)

Lemma Arena_Reset_Len a : Arena_Len (Arena_Reset a) = 0.
Proof.
  induction a as [m | | i IH] using ArenaImpl_induction; simpl;
    [apply Reset_Len | reflexivity | exact IH].
Qed.

Lemma Arena_Reset_Peak a : Arena_Peak (Arena_Reset a) = Arena_Peak a.
Proof.
  induction a as [m | | i IH] using ArenaImpl_induction; simpl;
    [reflexivity | reflexivity | exact IH].
Qed.

Lemma reset_reset s : monotonicBuffer_reset (monotonicBuffer_reset s) = monotonicBuffer_reset s.
Proof.
  unfold monotonicBuffer_reset.
  destruct (Z.eqb_spec (offset s) 0) as [E | N].
  - destruct (Z.eqb_spec (offset s) 0); [reflexivity | contradiction].
  - reflexivity.
Qed.

(** X21. [Reset] and [Release] through any stack of concurrent arenas, and
    on one without an inner arena: the length is 0 afterwards, the capacity
    and the peak are as before, and a second [Reset] changes nothing. *)
Theorem Reset_and_Release_through_concurrent_arenas (a : ArenaImpl) :
  Arena_Len (Arena_Reset a) = 0 /\
  Arena_Cap (Arena_Reset a) = Arena_Cap a /\
  Arena_Peak (Arena_Reset a) = Arena_Peak a /\
  Arena_Reset (Arena_Reset a) = Arena_Reset a /\
  Arena_Len (Arena_Release a) = 0 /\
  Arena_Cap (Arena_Release a) = Arena_Cap a /\
  Arena_Peak (Arena_Release a) = Arena_Peak a /\
  Arena_Reset (Arena_Release a) = Arena_Release a.
Proof.
  induction a as [m | | i IH] using ArenaImpl_induction; simpl.
  - split; [apply Reset_Len |].
    split; [unfold monotonicArena_Cap, monotonicArena_Reset; simpl;
            now rewrite (sum_sizes_ext _ _ _ reset_size) |].
    split; [reflexivity |].
    split.
    { unfold monotonicArena_Reset, with_buffers. simpl. do 2 f_equal.
      rewrite map_map. apply map_ext. exact reset_reset. }
    split; [apply Release_Len |].
    split.
    { unfold monotonicArena_Cap, monotonicArena_Release. simpl.
      now rewrite (sum_sizes_ext monotonicBuffer_release _ _ (fun s => eq_refl)). }
    split; [reflexivity |].
    unfold monotonicArena_Reset, monotonicArena_Release, with_buffers. simpl.
    do 2 f_equal. rewrite map_map. apply map_ext. reflexivity.
  - repeat split.
  - destruct IH as (I1 & I2 & I3 & I4 & I5 & I6 & I7 & I8).
    rewrite I4, I8. repeat split; assumption.
Qed.

(* ===================================================================== *)
(** * More on the pool *)
(* ===================================================================== *)

Lemma Pool_Release_eq p item h it a :
  h !! item = Some it -> item_Arena it = Some a ->
  Pool_Release p item h =
  Ret (mkPool (pool p ++ [item]) (recorded (sizes p) (item_Key it) (Arena_Peak a)),
       <[item := mkItem (Some (Arena_Reset a)) 0]> h).
Proof. intros Hi Ha. unfold Pool_Release, recorded. now rewrite Hi, Ha. Qed.

Lemma Pool_ReleaseMany_cons p item rest h :
  Pool_ReleaseMany p (item :: rest) h =
  ('(p', h') ← Pool_Release p item h; Pool_ReleaseMany p' rest h').
Proof.
  simpl. unfold Pool_Release.
  destruct (h !! item) as [it |]; [| reflexivity].
  destruct (item_Arena it) as [a |]; reflexivity.
Qed.

Lemma recorded_ok m key peak : sizes_ok m -> sizes_ok (recorded m key peak).
Proof.
  intros H k st. unfold recorded.
  pose proof half_modulus_val as HH.
  destruct (m !! key) as [st0 |] eqn:E.
  - destruct (Z.eq_dec k key) as [-> | N].
    + rewrite lookup_insert_eq. intros [= <-]. simpl.
      specialize (H _ _ E).
      destruct (Z.eqb_spec (count st0) 50) as [E50 | N50]; simpl.
      * rewrite wrap_int_small by lia. lia.
      * rewrite wrap_int_small by lia. lia.
    + rewrite lookup_insert_ne by congruence. apply H.
  - destruct (Z.eq_dec k key) as [-> | N].
    + rewrite lookup_insert_eq. intros [= <-]. simpl. lia.
    + rewrite lookup_insert_ne by congruence. apply H.
Qed.

Lemma getArenaSize_returns p id :
  sizes_ok (sizes p) -> returns (Pool_getArenaSize p id).
Proof.
  intros H. unfold Pool_getArenaSize.
  destruct (sizes p !! id) as [st |] eqn:E; [| eexists; reflexivity].
  specialize (H _ _ E).
  destruct (Z.eqb_spec (count st) 0); [lia | eexists; reflexivity].
Qed.

(** X22. The counts of the statistics stay between 1 and 50 through
    [ReleaseMany], so that [getArenaSize] never divides by zero afterwards;
    the items are appended to the pool in order, each left with key 0 and
    an arena of length 0; and the only panic is the one for a nil item or a
    nil arena. *)
Theorem ReleaseMany_keeps_the_counts_in_range (items : list nat) :
  forall (p : Pool) (h : item_store),
    sizes_ok (sizes p) ->
    match Pool_ReleaseMany p items h with
    | Ret (p', h') =>
        sizes_ok (sizes p') /\ pool p' = pool p ++ items /\
        (forall id, returns (Pool_getArenaSize p' id)) /\
        (forall item, In item items ->
                      exists a, h' !! item = Some (mkItem (Some a) 0) /\ Arena_Len a = 0)
    | Panic e => e = PanicNilDeref
    end.
Proof.
  induction items as [| item rest IH]; intros p h Hok.
  - simpl. split; [exact Hok |]. split; [now rewrite app_nil_r |].
    split; [intros id; now apply getArenaSize_returns |].
    intros item [].
  - rewrite Pool_ReleaseMany_cons.
    destruct (h !! item) as [it |] eqn:Hi;
      [| unfold Pool_Release; now rewrite Hi].
    destruct (item_Arena it) as [a |] eqn:Ha;
      [| unfold Pool_Release; now rewrite Hi, Ha].
    rewrite (Pool_Release_eq p item h it a Hi Ha). unfold_bind.
    set (p1 := mkPool _ _). set (h1 := <[item := _]> h).
    assert (Hok1 : sizes_ok (sizes p1)) by (apply recorded_ok; exact Hok).
    specialize (IH p1 h1 Hok1).
    destruct (Pool_ReleaseMany p1 rest h1) as [[p' h'] | e] eqn:R; [| exact IH].
    destruct IH as (I1 & I2 & I3 & I4).
    split; [exact I1 |].
    split; [rewrite I2; unfold p1; simpl; now rewrite <- app_assoc |].
    split; [exact I3 |].
    intros j [<- | Hj]; [| exact (I4 j Hj)].
    destruct (in_dec Nat.eq_dec item rest) as [Hin | Hout]; [exact (I4 item Hin) |].
    exists (Arena_Reset a). split; [| apply Arena_Reset_Len].
    (* an item not named again is left as the first release made it *)
    assert (Frame : forall items0 p0 h0 p2 h2,
               ~ In item items0 ->
               Pool_ReleaseMany p0 items0 h0 = Ret (p2, h2) ->
               h2 !! item = h0 !! item).
    { clear. induction items0 as [| j items0 IH0]; intros p0 h0 p2 h2 Hn.
      - simpl. now intros [= _ <-].
      - rewrite Pool_ReleaseMany_cons. unfold Pool_Release.
        destruct (h0 !! j) as [it0 |]; [| discriminate].
        destruct (item_Arena it0) as [a0 |]; [| discriminate]. unfold_bind.
        intros R0. rewrite (IH0 _ _ _ _ (fun Q => Hn (or_intror Q)) R0).
        apply lookup_insert_ne. intros ->. apply Hn. now left. }
    rewrite (Frame _ _ _ _ _ Hout R). unfold h1. apply lookup_insert_eq.
Qed.

Lemma ReleaseMany_keeps_the_counts_in_range_witness :
  match Pool_ReleaseMany NewArenaPool [0%nat] {[ 0%nat := demo_item ]} with
  | Ret (p', h') =>
      sizes_ok (sizes p') /\ pool p' = [] ++ [0%nat] /\
      (forall id, returns (Pool_getArenaSize p' id)) /\
      (forall item, In item [0%nat] ->
                    exists a, h' !! item = Some (mkItem (Some a) 0) /\ Arena_Len a = 0)
  | Panic e => e = PanicNilDeref
  end.
Proof.
  apply (ReleaseMany_keeps_the_counts_in_range [0%nat] NewArenaPool
           {[ 0%nat := demo_item ]}).
  intros k st Q. change ((∅ : gmap Z arenaPoolItemSize) !! k = Some st) in Q.
  rewrite lookup_empty in Q. discriminate.
Defined.

(** X23. [Acquire] after [Release]: while the item is still alive, the pool
    hands back the very item that was released last, with its arena reset
    (length 0, peak as before) and the new key, and lists the items it
    listed before the [Release]; the other items are left alone. *)
Theorem Acquire_after_Release_returns_the_item
        (p : Pool) (item : nat) (h : item_store) (it : PoolItem) (a : ArenaImpl)
        (key : Z) (live : nat -> bool) (fresh : nat) :
  h !! item = Some it -> item_Arena it = Some a -> live item = true ->
  exists p1 h1 p2 h2,
    Pool_Release p item h = Ret (p1, h1) /\
    Pool_Acquire p1 key h1 live fresh = Ret (item, p2, h2) /\
    pool p2 = pool p /\ sizes p2 = sizes p1 /\
    h2 !! item = Some (mkItem (Some (Arena_Reset a)) key) /\
    Arena_Len (Arena_Reset a) = 0 /\
    Arena_Peak (Arena_Reset a) = Arena_Peak a /\
    (forall j, j <> item -> h2 !! j = h !! j).
Proof.
  intros Hi Ha Hl. rewrite (Pool_Release_eq p item h it a Hi Ha).
  eexists _, _, _, _. split; [reflexivity |].
  unfold Pool_Acquire. cbn [pool sizes].
  rewrite rev_app_distr. cbn [rev app Pool_acquire_loop]. rewrite Hl.
  rewrite lookup_insert_eq. cbn [item_Arena]. split; [reflexivity |].
  cbn [pool sizes]. split; [apply rev_involutive |]. split; [reflexivity |].
  split; [apply lookup_insert_eq |].
  split; [apply Arena_Reset_Len |]. split; [apply Arena_Reset_Peak |].
  intros j Hj. now rewrite !lookup_insert_ne by congruence.
Qed.

Lemma Acquire_after_Release_returns_the_item_witness :
  exists p1 h1 p2 h2,
    Pool_Release NewArenaPool 0%nat {[ 0%nat := demo_item ]} = Ret (p1, h1) /\
    Pool_Acquire p1 9 h1 (fun _ => true) 1%nat = Ret (0%nat, p2, h2) /\
    pool p2 = [] /\ sizes p2 = sizes p1 /\
    h2 !! 0%nat = Some (mkItem (Some (Arena_Reset (MonotonicArena demo_arena))) 9) /\
    Arena_Len (Arena_Reset (MonotonicArena demo_arena)) = 0 /\
    Arena_Peak (Arena_Reset (MonotonicArena demo_arena)) =
    Arena_Peak (MonotonicArena demo_arena) /\
    (forall j, j <> 0%nat ->
               h2 !! j = ({[ 0%nat := demo_item ]} : item_store) !! j).
Proof.
  apply (Acquire_after_Release_returns_the_item NewArenaPool 0%nat
           {[ 0%nat := demo_item ]} demo_item (MonotonicArena demo_arena)
           9 (fun _ => true) 1%nat).
  - apply lookup_singleton_eq.
  - reflexivity.
  - reflexivity.
Defined.

Lemma acquire_loop_none l live :
  Forall (fun i => live i = false) l -> Pool_acquire_loop l live = (None, []).
Proof.
  induction 1 as [| i l Hi _ IH]; simpl; [reflexivity |]. now rewrite Hi.
Qed.

(** X24. [Acquire] on a pool without a live item (an empty pool among
    them): the dead weak pointers are dropped, and the item is a new one,
    under the key, whose arena is a monotonic arena made with the size that
    [getArenaSize] gives for the key as its minimum buffer size: 1 MiB for a
    key without statistic.  For a size that the arena can take, the arena
    has that capacity, and nothing in use. *)
Theorem Acquire_without_live_item_makes_an_arena
        (p : Pool) (key : Z) (h : item_store) (live : nat -> bool) (fresh : nat) :
  sizes_ok (sizes p) -> Forall (fun i => live i = false) (pool p) ->
  exists sz p' h',
    Pool_getArenaSize p key = Ret sz /\
    (sizes p !! key = None -> sz = 1024 * 1024) /\
    Pool_Acquire p key h live fresh = Ret (fresh, p', h') /\
    pool p' = [] /\ sizes p' = sizes p /\
    h' !! fresh =
    Some (mkItem (Some (MonotonicArena (NewMonotonicArena [WithMinBufferSize sz]))) key) /\
    (forall j, j <> fresh -> h' !! j = h !! j) /\
    monotonicArena_Len (NewMonotonicArena [WithMinBufferSize sz]) = 0 /\
    (0 <= sz < half_modulus ->
     monotonicArena_Cap (NewMonotonicArena [WithMinBufferSize sz]) = sz).
Proof.
  intros Hok Hdead.
  destruct (getArenaSize_returns p key Hok) as [sz G].
  exists sz. unfold Pool_Acquire.
  rewrite (acquire_loop_none (rev (pool p)) live)
    by (apply Forall_rev; exact Hdead).
  rewrite G. unfold_bind. eexists _, _.
  split; [reflexivity |]. split.
  { intros E. unfold Pool_getArenaSize in G. rewrite E in G. now injection G as <-. }
  split; [reflexivity |]. split; [reflexivity |]. split; [reflexivity |].
  split; [apply lookup_insert_eq |].
  split; [intros j Hj; now rewrite lookup_insert_ne by congruence |].
  destruct (NewMonotonicArena_fresh [WithMinBufferSize sz]) as [_ L].
  split; [unfold monotonicArena_Len; now rewrite L |].
  intros R. pose proof half_modulus_val as HH. pose proof modulus_val as HM.
  rewrite cap_is_sum.
  destruct (NewMonotonicArena_buffers [WithMinBufferSize sz]) as [-> _].
  rewrite zsum_repeat. cbn [size].
  change (initialBufferCount (NewMonotonicArena [WithMinBufferSize sz])) with 1.
  change (minBufferSize (NewMonotonicArena [WithMinBufferSize sz])) with (to_uintptr sz).
  unfold to_uintptr. rewrite (wrap_small sz) by lia.
  change (Z.of_nat (Z.to_nat 1)) with 1. rewrite Z.mul_1_l.
  rewrite wrap_small by lia. apply to_int_small. lia.
Qed.

Lemma Acquire_without_live_item_makes_an_arena_witness :
  exists sz p' h',
    Pool_getArenaSize (mkPool [3%nat] ∅) 7 = Ret sz /\
    ((∅ : gmap Z arenaPoolItemSize) !! 7 = None -> sz = 1024 * 1024) /\
    Pool_Acquire (mkPool [3%nat] ∅) 7 ∅ (fun _ => false) 0%nat = Ret (0%nat, p', h') /\
    pool p' = [] /\ sizes p' = ∅ /\
    h' !! 0%nat =
    Some (mkItem (Some (MonotonicArena (NewMonotonicArena [WithMinBufferSize sz]))) 7) /\
    (forall j, j <> 0%nat -> h' !! j = (∅ : item_store) !! j) /\
    monotonicArena_Len (NewMonotonicArena [WithMinBufferSize sz]) = 0 /\
    (0 <= sz < half_modulus ->
     monotonicArena_Cap (NewMonotonicArena [WithMinBufferSize sz]) = sz).
Proof.
  apply (Acquire_without_live_item_makes_an_arena (mkPool [3%nat] ∅) 7 ∅
           (fun _ => false) 0%nat).
  - intros k st Q. change ((∅ : gmap Z arenaPoolItemSize) !! k = Some st) in Q.
    rewrite lookup_empty in Q. discriminate.
  - repeat constructor.
Defined.

Lemma average_between c t pk :
  1 <= c -> 0 <= t -> 0 <= pk ->
  Z.min (t / c) pk <= (t + pk) / (c + 1) <= Z.max (t / c) pk.
Proof.
  intros Hc Ht Hp.
  assert (L : c * (t / c) <= t) by (apply Z.mul_div_le; lia).
  assert (U : t < c * Z.succ (t / c)) by (apply Z.mul_succ_div_gt; lia).
  assert (Q0 : 0 <= t / c) by (apply Z.div_pos; lia).
  split.
  - apply Z.div_le_lower_bound; [lia |].
    destruct (Z_le_gt_dec (t / c) pk) as [A | A].
    + rewrite Z.min_l by lia. lia.
    + rewrite Z.min_r by lia. nia.
  - apply Z.lt_succ_r. apply Z.div_lt_upper_bound; [lia |].
    destruct (Z_le_gt_dec (t / c) pk) as [A | A].
    + rewrite Z.max_r by lia. nia.
    + rewrite Z.max_l by lia. nia.
Qed.

(** X25. The size estimate is a running average: when [Release] records a
    peak under a key that has a statistic (count between 1 and 50, totals
    that fit Go's [int]), the estimate [getArenaSize] gives for the key
    afterwards lies between the estimate before and the peak. *)
Theorem Release_moves_the_estimate_towards_the_peak
        (p : Pool) (item : nat) (h : item_store) (it : PoolItem) (a : ArenaImpl)
        (st : arenaPoolItemSize) :
  h !! item = Some it -> item_Arena it = Some a ->
  sizes p !! item_Key it = Some st ->
  1 <= count st <= 50 -> 0 <= totalBytes st -> 0 <= Arena_Peak a ->
  totalBytes st + Arena_Peak a < half_modulus ->
  exists p' h' before after,
    Pool_Release p item h = Ret (p', h') /\
    Pool_getArenaSize p (item_Key it) = Ret before /\
    Pool_getArenaSize p' (item_Key it) = Ret after /\
    before = totalBytes st / count st /\
    Z.min before (Arena_Peak a) <= after <= Z.max before (Arena_Peak a).
Proof.
  intros Hi Ha Hs Hc Ht Hp Hsum.
  pose proof half_modulus_val as HH.
  rewrite (Pool_Release_eq p item h it a Hi Ha).
  set (pk := Arena_Peak a) in *. set (t := totalBytes st) in *.
  set (c := count st) in *.
  assert (Q0 : 0 <= t / c) by (apply Z.div_pos; lia).
  assert (Q1 : t / c <= t).
  { apply Z.div_le_upper_bound; [lia |]. nia. }
  assert (B : Pool_getArenaSize p (item_Key it) = Ret (t / c)).
  { unfold Pool_getArenaSize. rewrite Hs. fold c t.
    destruct (Z.eqb_spec c 0); [lia |].
    rewrite Z.quot_div_nonneg by lia. now rewrite wrap_int_small by lia. }
  destruct (Z.eqb_spec c 50) as [E50 | N50].
  - eexists _, _, (t / c), ((t / 50 + pk) / 2).
    split; [reflexivity |]. split; [exact B |].
    unfold Pool_getArenaSize, recorded. cbn [sizes]. rewrite Hs. fold c t.
    destruct (Z.eqb_spec c 50); [| lia].
    cbn [count totalBytes]. rewrite lookup_insert_eq. cbn [count totalBytes].
    change (wrap_int (1 + 1)) with 2. change (2 =? 0) with false. cbv iota.
    rewrite E50 in *.
    rewrite (Z.quot_div_nonneg t 50) by lia.
    rewrite (wrap_int_small (t / 50)) by lia.
    rewrite (wrap_int_small (t / 50 + pk)) by lia.
    rewrite Z.quot_div_nonneg by lia.
    assert (Q2 : 0 <= (t / 50 + pk) / 2 <= t / 50 + pk).
    { split; [apply Z.div_pos; lia |].
      apply Z.div_le_upper_bound; lia. }
    rewrite wrap_int_small by lia.
    split; [reflexivity |]. split; [reflexivity |].
    assert (One : 1 <= 1) by lia.
    pose proof (average_between 1 (t / 50) pk One Q0 Hp) as A.
    rewrite Z.div_1_r in A. exact A.
  - eexists _, _, (t / c), ((t + pk) / (c + 1)).
    split; [reflexivity |]. split; [exact B |].
    unfold Pool_getArenaSize, recorded. cbn [sizes]. rewrite Hs. fold c t.
    destruct (Z.eqb_spec c 50); [lia |].
    rewrite lookup_insert_eq. cbn [count totalBytes]. fold c t.
    rewrite (wrap_int_small (c + 1)) by lia.
    rewrite (wrap_int_small (t + pk)) by lia.
    destruct (Z.eqb_spec (c + 1) 0); [lia |].
    rewrite Z.quot_div_nonneg by lia.
    assert (Q2 : 0 <= (t + pk) / (c + 1) <= t + pk).
    { split; [apply Z.div_pos; lia |].
      apply Z.div_le_upper_bound; [lia |]. nia. }
    rewrite wrap_int_small by lia.
    split; [reflexivity |]. split; [reflexivity |].
    apply average_between; lia.
Qed.

Lemma Release_moves_the_estimate_towards_the_peak_witness :
  exists p' h' before after,
    Pool_Release (mkPool [] {[ 7 := mkSize 2 300 ]}) 0%nat {[ 0%nat := demo_item ]}
    = Ret (p', h') /\
    Pool_getArenaSize (mkPool [] {[ 7 := mkSize 2 300 ]}) 7 = Ret before /\
    Pool_getArenaSize p' 7 = Ret after /\
    before = 300 / 2 /\
    Z.min before 0 <= after <= Z.max before 0.
Proof.
  apply (Release_moves_the_estimate_towards_the_peak
           (mkPool [] {[ 7 := mkSize 2 300 ]}) 0%nat {[ 0%nat := demo_item ]}
           demo_item (MonotonicArena demo_arena) (mkSize 2 300)).
  - apply lookup_singleton_eq.
  - reflexivity.
  - apply lookup_singleton_eq.
  - vm_compute. split; discriminate.
  - vm_compute. discriminate.
  - vm_compute. discriminate.
  - reflexivity.
Defined.

(** X26. The pool does not notice an item that is released twice: after
    [ReleaseMany] of the same item twice, the pool lists it twice, its peak
    is recorded twice, and two calls of [Acquire] both return that one
    item, the key of the second call replacing the key of the first. *)
Theorem Item_released_twice_is_handed_out_twice
        (p : Pool) (item : nat) (h : item_store) (it : PoolItem) (a : ArenaImpl)
        (k1 k2 : Z) (live : nat -> bool) (f1 f2 : nat) :
  h !! item = Some it -> item_Arena it = Some a -> live item = true ->
  exists p1 h1 p2 h2 p3 h3,
    Pool_ReleaseMany p [item; item] h = Ret (p1, h1) /\
    pool p1 = pool p ++ [item; item] /\
    sizes p1 = recorded (recorded (sizes p) (item_Key it) (Arena_Peak a)) 0 (Arena_Peak a) /\
    Pool_Acquire p1 k1 h1 live f1 = Ret (item, p2, h2) /\
    h2 !! item = Some (mkItem (Some (Arena_Reset a)) k1) /\
    Pool_Acquire p2 k2 h2 live f2 = Ret (item, p3, h3) /\
    h3 !! item = Some (mkItem (Some (Arena_Reset a)) k2) /\
    pool p3 = pool p.
Proof.
  intros Hi Ha Hl.
  assert (RR : forall x, Arena_Reset (Arena_Reset x) = Arena_Reset x).
  { induction x as [m | | i IH] using ArenaImpl_induction; simpl.
    - unfold monotonicArena_Reset, with_buffers. simpl. do 2 f_equal.
      rewrite map_map. apply map_ext. exact reset_reset.
    - reflexivity.
    - now rewrite IH. }
  rewrite Pool_ReleaseMany_cons.
  rewrite (Pool_Release_eq p item h it a Hi Ha). unfold_bind. cbv beta iota.
  rewrite Pool_ReleaseMany_cons.
  rewrite (Pool_Release_eq _ item _ (mkItem (Some (Arena_Reset a)) 0) (Arena_Reset a)
             (lookup_insert_eq _ _ _) eq_refl).
  unfold_bind. cbv beta iota.
  cbn [Pool_ReleaseMany pool sizes item_Key]. rewrite RR, Arena_Reset_Peak.
  eexists _, _, _, _, _, _. split; [reflexivity |]. cbn [pool sizes].
  split; [now rewrite <- app_assoc |]. split; [reflexivity |].
  unfold Pool_Acquire. cbn [pool sizes].
  rewrite !rev_app_distr. cbn [rev app Pool_acquire_loop]. rewrite Hl.
  rewrite lookup_insert_eq. cbn [item_Arena].
  split; [reflexivity |]. split; [apply lookup_insert_eq |].
  cbn [pool sizes]. rewrite rev_involutive.
  cbn [Pool_acquire_loop]. rewrite Hl.
  rewrite lookup_insert_eq. cbn [item_Arena].
  split; [reflexivity |]. split; [apply lookup_insert_eq |].
  cbn [pool]. apply rev_involutive.
Qed.

Lemma Item_released_twice_is_handed_out_twice_witness :
  exists p1 h1 p2 h2 p3 h3,
    Pool_ReleaseMany NewArenaPool [0%nat; 0%nat] {[ 0%nat := demo_item ]} = Ret (p1, h1) /\
    pool p1 = [] ++ [0%nat; 0%nat] /\
    sizes p1 = recorded (recorded ∅ 7 (Arena_Peak (MonotonicArena demo_arena))) 0
                        (Arena_Peak (MonotonicArena demo_arena)) /\
    Pool_Acquire p1 8 h1 (fun _ => true) 1%nat = Ret (0%nat, p2, h2) /\
    h2 !! 0%nat = Some (mkItem (Some (Arena_Reset (MonotonicArena demo_arena))) 8) /\
    Pool_Acquire p2 9 h2 (fun _ => true) 2%nat = Ret (0%nat, p3, h3) /\
    h3 !! 0%nat = Some (mkItem (Some (Arena_Reset (MonotonicArena demo_arena))) 9) /\
    pool p3 = [].
Proof.
  apply (Item_released_twice_is_handed_out_twice NewArenaPool 0%nat
           {[ 0%nat := demo_item ]} demo_item (MonotonicArena demo_arena)
           8 9 (fun _ => true) 1%nat 2%nat).
  - apply lookup_singleton_eq.
  - reflexivity.
  - reflexivity.
Defined.
